(** * pipe-optimizer: the cutting-stock allocator, its metrics and the
      demand aggregation, embedded from [App.tsx]

    Lengths are whole millimetres ([Z]) below 2^53: the entry forms step by
    1 mm or by 0.001 m, and on such integers the additions, subtractions and
    comparisons of JavaScript's [number] are exact.  Lengths with a fraction
    of a millimetre are not part of this model.  [formatMm] divides by 1000
    and so leaves the integers: it is modelled with the doubles it computes.
    Identifiers, project labels and material names are strings.  A
    JavaScript [Map] is an association list in insertion order; the plain
    object that holds the cut plan is the list of its own properties, written
    by [Object_set] and enumerated by [Object_entries]. *)

From Stdlib Require Import ZArith List String Ascii Bool Lia Permutation Sorted.
From Stdlib Require Import QArith.
From Stdlib Require Import Decimal DecimalString DecimalPos DecimalZ.
Import ListNotations.
Open Scope string_scope.
Open Scope list_scope.
Open Scope Z_scope.

(** ** Types *)

Module Material.
Record t := mk { id : string; name : string; stockLengthMm : Z }.
End Material.

Module Demand.
Record t := mk { id : string; project : string; materialId : string; lengthMm : Z }.
End Demand.

Module Pipe.
Record t := mk { cuts : list Demand.t; remainingMm : Z; stockLengthMm : Z; usableMm : Z }.
End Pipe.

Module AggregatedDemand.
Record t := mk { key : string; project : string; materialId : string;
                 lengthMm : Z; count : Z; ids : list string }.
End AggregatedDemand.

(** ** Constants *)

Definition FIXED_WASTE : Z := 110.
Definition KERF : Z := 2.

(** ** JavaScript [Map]: insertion-ordered, [set] on a present key keeps its place *)

Section JsMap.
Context {V : Type}.

Fixpoint Map_get (k : string) (m : list (string * V)) : option V :=
  match m with
  | [] => None
  | (k', v) :: rest => if String.eqb k k' then Some v else Map_get k rest
  end.

Fixpoint Map_set (k : string) (v : V) (m : list (string * V)) : list (string * V) :=
  match m with
  | [] => [(k, v)]
  | (k', v') :: rest =>
      if String.eqb k k' then (k, v) :: rest else (k', v') :: Map_set k v rest
  end.

Definition Map_keys (m : list (string * V)) : list string := map fst m.
Definition Map_values (m : list (string * V)) : list V := map snd m.
End JsMap.

Definition JsMap (V : Type) := list (string * V).

(** [CutPlan = Record<string, Pipe[]>]: the own properties of the object, in
    the order they were created. *)
Definition CutPlan := JsMap (list Pipe.t).

(** [obj[k] = v] on an object literal, [v] an array.  The name [__proto__]
    reaches the setter that [Object.prototype] has for it: the array becomes
    the prototype of [obj] and no property is created.  Every other name
    creates the property or overwrites it in place. *)
Definition Object_set {V : Type} (k : string) (v : V) (obj : JsMap V) : JsMap V :=
  if String.eqb k "__proto__" then obj else Map_set k v obj.

(** ** The algorithm *)

(** [new Map(materials.map(m => [m.id, m]))] *)
Definition materialMapOf (materials : list Material.t) : JsMap Material.t :=
  fold_left (fun m mat => Map_set (Material.id mat) mat m) materials [].

(** [list = grouped.get(d.materialId) ?? []; list.push(d); grouped.set(..., list)] *)
Definition groupStep (grouped : JsMap (list Demand.t)) (d : Demand.t) : JsMap (list Demand.t) :=
  let list := match Map_get (Demand.materialId d) grouped with
              | Some l => l
              | None => []
              end in
  Map_set (Demand.materialId d) (list ++ [d]) grouped.

Definition groupDemands (demands : list Demand.t) : JsMap (list Demand.t) :=
  fold_left groupStep demands [].

(** The comparator of [sort((a, b) => b.lengthMm - a.lengthMm)] *)
Definition compareFn (a b : Demand.t) : Z := Demand.lengthMm b - Demand.lengthMm a.

(** [Array.prototype.sort] is stable: an element moves behind another one only
    when the comparator puts it strictly after. *)
Fixpoint insertSorted (x : Demand.t) (l : list Demand.t) : list Demand.t :=
  match l with
  | [] => [x]
  | y :: ys => if 0 <? compareFn x y then y :: insertSorted x ys
               else x :: y :: ys
  end.

Definition sortPieces (pieces : list Demand.t) : list Demand.t :=
  fold_right insertSorted [] pieces.

(** The inner scan.  [best = None] is [bestIdx = -1, bestRemaining = Infinity];
    [Some (i, r)] is [bestIdx = i, bestRemaining = r]. *)
Definition belowBest (r : Z) (best : option (nat * Z)) : bool :=
  match best with
  | None => true
  | Some (_, bestRemaining) => r <? bestRemaining
  end.

Fixpoint scanPipes (needed : Z) (pipes : list Pipe.t) (i : nat) (best : option (nat * Z))
  : option (nat * Z) :=
  match pipes with
  | [] => best
  | pipe :: rest =>
      let best' :=
        if (needed <=? Pipe.remainingMm pipe) && belowBest (Pipe.remainingMm pipe) best
        then Some (i, Pipe.remainingMm pipe)
        else best in
      scanPipes needed rest (S i) best'
  end.

(** [pipes[bestIdx].cuts.push(piece); pipes[bestIdx].remainingMm -= needed] *)
Definition addCut (piece : Demand.t) (needed : Z) (pipe : Pipe.t) : Pipe.t :=
  Pipe.mk (Pipe.cuts pipe ++ [piece]) (Pipe.remainingMm pipe - needed)
          (Pipe.stockLengthMm pipe) (Pipe.usableMm pipe).

Fixpoint updateAt (i : nat) (f : Pipe.t -> Pipe.t) (pipes : list Pipe.t) : list Pipe.t :=
  match pipes, i with
  | [], _ => []
  | p :: rest, O => f p :: rest
  | p :: rest, S j => p :: updateAt j f rest
  end.

(** One turn of [for (const piece of sorted)] *)
Definition placePiece (mat : Material.t) (usable : Z) (pipes : list Pipe.t) (piece : Demand.t)
  : list Pipe.t :=
  if usable <? Demand.lengthMm piece then pipes
  else
    let needed := Demand.lengthMm piece + KERF in
    match scanPipes needed pipes 0%nat None with
    | Some (bestIdx, _) => updateAt bestIdx (addCut piece needed) pipes
    | None =>
        pipes ++ [Pipe.mk [piece] (usable - needed) (Material.stockLengthMm mat) usable]
    end.

Definition packLoop (mat : Material.t) (usable : Z) (sorted : list Demand.t) : list Pipe.t :=
  fold_left (placePiece mat usable) sorted [].

(** [if (pipe.cuts.length > 0) pipe.remainingMm += KERF] *)
Definition refundKerf (pipe : Pipe.t) : Pipe.t :=
  if (0 <? Z.of_nat (List.length (Pipe.cuts pipe)))
  then Pipe.mk (Pipe.cuts pipe) (Pipe.remainingMm pipe + KERF)
               (Pipe.stockLengthMm pipe) (Pipe.usableMm pipe)
  else pipe.

Definition packMaterial (mat : Material.t) (pieces : list Demand.t) : list Pipe.t :=
  let usable := Material.stockLengthMm mat - FIXED_WASTE in
  map refundKerf (packLoop mat usable (sortPieces pieces)).

Definition planStep (materialMap : JsMap Material.t) (plan : CutPlan)
  (entry : string * list Demand.t) : CutPlan :=
  let (materialId, pieces) := entry in
  match Map_get materialId materialMap with
  | None => plan
  | Some mat => Object_set materialId (packMaterial mat pieces) plan
  end.

Definition optimize (materials : list Material.t) (demands : list Demand.t) : CutPlan :=
  let materialMap := materialMapOf materials in
  let grouped := groupDemands demands in
  fold_left (planStep materialMap) grouped [].

(** ** Helpers *)

(** [`${n}`] for an integer [n] *)
Definition numberToString (n : Z) : string := NilZero.string_of_int (Z.to_int n).

Definition digitChar (d : Z) : ascii := ascii_of_nat (48 + Z.to_nat d).

(** *** The numbers behind [formatMm]

    [mm / 1000] is not a whole number: it is the double nearest to the
    quotient, and [toFixed], [parseFloat] and the template work on doubles.
    For [1000 <= mm < 2^53] all of them lie between 1 and 2^53, where a
    double is [mantissa * 2 ^ exponent] with [2^52 <= mantissa < 2^53]. *)
Record Double := mkDouble { mantissa : Z; exponent : Z }.

(** The integer nearest to [num / den], the even one of two *)
Definition roundHalfEven (num den : Z) : Z :=
  let q := num / den in
  let r := num mod den in
  if 2 * r <? den then q
  else if den <? 2 * r then q + 1
  else if Z.even q then q else q + 1.

(** The double nearest to [num / den], for [num / den >= 1]: what a division
    and what the reading of a numeral return *)
Definition nearestDouble (num den : Z) : Double :=
  let e := Z.log2 (num / den) - 52 in
  let m := if 0 <=? e then roundHalfEven num (den * 2 ^ e)
           else roundHalfEven (num * 2 ^ (- e)) den in
  if m =? 2 ^ 53 then mkDouble (2 ^ 52) (e + 1) else mkDouble m e.

(** [x.toFixed(3)] is the numeral of [n / 1000] with three decimals, for the
    integer [n] that brings [n / 1000] nearest to [x], the larger one of two;
    this is [n]. *)
Definition toFixed3 (x : Double) : Z :=
  if 0 <=? exponent x then mantissa x * 2 ^ exponent x * 1000
  else (2 * (mantissa x * 1000) + 2 ^ (- exponent x)) / (2 * 2 ^ (- exponent x)).

(** [parseFloat] of the numeral of [n / 1000] *)
Definition parseFloat3 (n : Z) : Double := nearestDouble n 1000.

(** The integer nearest to [x * 10 ^ f], the even one of two *)
Definition scaled (x : Double) (f : nat) : Z :=
  if 0 <=? exponent x then mantissa x * 2 ^ exponent x * 10 ^ Z.of_nat f
  else roundHalfEven (mantissa x * 10 ^ Z.of_nat f) (2 ^ (- exponent x)).

Definition Double_eqb (x y : Double) : bool :=
  (mantissa x =? mantissa y) && (exponent x =? exponent y).

(** [`${x}`] takes the shortest numeral that reads back as [x]: the first
    number [f] of decimals for which the numeral nearest to [x] does.  This
    is [(s, f)] for the numeral [s / 10 ^ f]. *)
Fixpoint shortest (fuel : nat) (f : nat) (x : Double) : Z * nat :=
  let s := scaled x f in
  if Double_eqb (nearestDouble s (10 ^ Z.of_nat f)) x then (s, f)
  else match fuel with
       | O => (s, f)
       | S fuel' => shortest fuel' (S f) x
       end.

(** The last [f] digits of [r] *)
Fixpoint digitsOf (f : nat) (r : Z) : string :=
  match f with
  | O => ""
  | S k => (digitsOf k (r / 10) ++ String (digitChar (r mod 10)) "")%string
  end.

(** [`${x}`] for a double [x] from 1 up to 2^53 *)
Definition Number_toString (x : Double) : string :=
  let (s, f) := shortest 17 0 x in
  match f with
  | O => numberToString s
  | _ => (numberToString (s / 10 ^ Z.of_nat f) ++ "."
          ++ digitsOf f (s mod 10 ^ Z.of_nat f))%string
  end.

(** [mm >= 1000 ? `${parseFloat((mm / 1000).toFixed(3))} m` : `${mm} mm`] *)
Definition formatMm (mm : Z) : string :=
  if 1000 <=? mm
  then (Number_toString (parseFloat3 (toFixed3 (nearestDouble mm 1000))) ++ " m")%string
  else (numberToString mm ++ " mm")%string.

(** [`${d.materialId}|${d.project}|${d.lengthMm}`] *)
Definition keyOf (d : Demand.t) : string :=
  (Demand.materialId d ++ "|" ++ Demand.project d ++ "|"
   ++ numberToString (Demand.lengthMm d))%string.

Definition aggregateStep (map : JsMap AggregatedDemand.t) (d : Demand.t)
  : JsMap AggregatedDemand.t :=
  let key := keyOf d in
  match Map_get key map with
  | Some existing =>
      Map_set key
        (AggregatedDemand.mk (AggregatedDemand.key existing)
           (AggregatedDemand.project existing) (AggregatedDemand.materialId existing)
           (AggregatedDemand.lengthMm existing)
           (AggregatedDemand.count existing + 1)
           (AggregatedDemand.ids existing ++ [Demand.id d]))
        map
  | None =>
      Map_set key
        (AggregatedDemand.mk key (Demand.project d) (Demand.materialId d)
           (Demand.lengthMm d) 1 [Demand.id d])
        map
  end.

Definition aggregateDemands (demands : list Demand.t) : list AggregatedDemand.t :=
  Map_values (fold_left aggregateStep demands []).

(** ** [Object.entries]: array-index keys first, ascending, then the other
    keys in creation order *)

Definition arrayIndex (k : string) : option N :=
  match NilZero.uint_of_string k with
  | Some d =>
      let n := N.of_uint d in
      if String.eqb (NilZero.string_of_uint (N.to_uint n)) k && (n <? 4294967295)%N
      then Some n else None
  | None => None
  end.

Section ObjectEntries.
Context {V : Type}.

Fixpoint insertIndexed (e : N * (string * V)) (l : list (N * (string * V)))
  : list (N * (string * V)) :=
  match l with
  | [] => [e]
  | e' :: rest => if (fst e <? fst e')%N then e :: e' :: rest
                  else e' :: insertIndexed e rest
  end.

Definition indexedEntries (obj : list (string * V)) : list (N * (string * V)) :=
  flat_map (fun e => match arrayIndex (fst e) with
                     | Some n => [(n, e)]
                     | None => []
                     end) obj.

Definition namedEntries (obj : list (string * V)) : list (string * V) :=
  filter (fun e => match arrayIndex (fst e) with
                   | Some _ => false
                   | None => true
                   end) obj.

Definition Object_entries (obj : list (string * V)) : list (string * V) :=
  map snd (fold_right insertIndexed [] (indexedEntries obj)) ++ namedEntries obj.
End ObjectEntries.

(** ** ResultSection: the statistics *)


(** [pipe.cuts.reduce((sum, c) => sum + c.lengthMm, 0)] *)
Definition cutSum (pipe : Pipe.t) : Z :=
  fold_left (fun sum c => sum + Demand.lengthMm c) (Pipe.cuts pipe) 0.






(** The filter in front of [tooLongAgg] *)
Definition tooLong (materialMap : JsMap Material.t) (d : Demand.t) : bool :=
  match Map_get (Demand.materialId d) materialMap with
  | Some mat => Material.stockLengthMm mat - FIXED_WASTE <? Demand.lengthMm d
  | None => false
  end.


(** ** ResultSection: the cut summary *)

Module SummaryRow.
Record t := mk { material : string; pattern : string; count : Z }.
End SummaryRow.

(** [pipe.cuts.map(c => formatMm(c.lengthMm)).join(' + ')] *)
Definition patternKey (pipe : Pipe.t) : string :=
  String.concat " + " (map (fun c => formatMm (Demand.lengthMm c)) (Pipe.cuts pipe)).

Definition patternStep (patternCounts : JsMap Z) (pipe : Pipe.t) : JsMap Z :=
  let key := patternKey pipe in
  Map_set key (match Map_get key patternCounts with Some n => n | None => 0 end + 1)
          patternCounts.

Definition patternCountsOf (pipes : list Pipe.t) : JsMap Z :=
  fold_left patternStep pipes [].

Definition summaryStep (materialMap : JsMap Material.t) (summary : list SummaryRow.t)
  (entry : string * list Pipe.t) : list SummaryRow.t :=
  let (materialId, pipes) := entry in
  match Map_get materialId materialMap with
  | None => summary
  | Some mat =>
      if Z.of_nat (List.length pipes) =? 0 then summary
      else summary
           ++ map (fun pc => SummaryRow.mk (Material.name mat) (fst pc) (snd pc))
                  (patternCountsOf pipes)
  end.

Definition buildSummary (materials : list Material.t) (results : CutPlan)
  : list SummaryRow.t :=
  fold_left (summaryStep (materialMapOf materials)) (Object_entries results) [].

(** The loop-head states of [for (const piece of sorted)], oldest first *)
Fixpoint packTrace (mat : Material.t) (usable : Z) (pipes : list Pipe.t)
  (sorted : list Demand.t) : list (list Pipe.t) :=
  pipes :: match sorted with
           | [] => []
           | piece :: rest => packTrace mat usable (placePiece mat usable pipes piece) rest
           end.

(** ** Vocabulary of the properties *)

Definition forMaterial (k : string) (d : Demand.t) : bool := String.eqb (Demand.materialId d) k.

Definition nonEmpty {A : Type} (l : list A) : option (list A) :=
  match l with [] => None | _ => Some l end.

(** What [bestIdx] and [bestRemaining] hold once the pipes of [l] were looked at *)
Definition BestOf (needed : Z) (l : list Pipe.t) (best : option (nat * Z)) : Prop :=
  match best with
  | None => forall p, In p l -> Pipe.remainingMm p < needed
  | Some (i, r) =>
      (exists p, nth_error l i = Some p /\ Pipe.remainingMm p = r) /\
      needed <= r /\
      (forall j q, nth_error l j = Some q -> needed <= Pipe.remainingMm q ->
                   r < Pipe.remainingMm q \/ (r = Pipe.remainingMm q /\ (i <= j)%nat))
  end.

Definition newPipe (mat : Material.t) (usable : Z) (piece : Demand.t) : Pipe.t :=
  Pipe.mk [piece] (usable - (Demand.lengthMm piece + KERF)) (Material.stockLengthMm mat) usable.

(** The three ways a turn of the loop can go *)
Inductive Placement (mat : Material.t) (usable : Z) (pipes : list Pipe.t) (piece : Demand.t)
  : list Pipe.t -> Prop :=
| Skipped :
    usable < Demand.lengthMm piece ->
    Placement mat usable pipes piece pipes
| IntoPipe i p :
    Demand.lengthMm piece <= usable ->
    nth_error pipes i = Some p ->
    Demand.lengthMm piece + KERF <= Pipe.remainingMm p ->
    (forall j q, nth_error pipes j = Some q ->
                 Demand.lengthMm piece + KERF <= Pipe.remainingMm q ->
                 Pipe.remainingMm p < Pipe.remainingMm q \/
                 (Pipe.remainingMm p = Pipe.remainingMm q /\ (i <= j)%nat)) ->
    Placement mat usable pipes piece
              (updateAt i (addCut piece (Demand.lengthMm piece + KERF)) pipes)
| NewPipe :
    Demand.lengthMm piece <= usable ->
    (forall p, In p pipes -> Pipe.remainingMm p < Demand.lengthMm piece + KERF) ->
    Placement mat usable pipes piece (pipes ++ [newPipe mat usable piece]).

(** A pipe of the loop: it has a cut, carries its material's lengths, and a
    kerf was charged for each of its cuts. *)
Record Packed (mat : Material.t) (usable : Z) (p : Pipe.t) : Prop := mkPacked
  { packed_cuts : Pipe.cuts p <> [];
    packed_stock : Pipe.stockLengthMm p = Material.stockLengthMm mat;
    packed_usable : Pipe.usableMm p = usable;
    packed_charged :
      Pipe.remainingMm p
      = usable - cutSum p - KERF * Z.of_nat (List.length (Pipe.cuts p));
    packed_low : - KERF <= Pipe.remainingMm p }.

(** Plans that agree key by key, pipe by pipe and field by field *)
Definition samePipe (p q : Pipe.t) : Prop :=
  Pipe.cuts p = Pipe.cuts q /\ Pipe.remainingMm p = Pipe.remainingMm q /\
  Pipe.stockLengthMm p = Pipe.stockLengthMm q /\ Pipe.usableMm p = Pipe.usableMm q.

Definition samePlan (a b : CutPlan) : Prop :=
  Forall2 (fun e f => fst e = fst f /\ Forall2 samePipe (snd e) (snd f)) a b.

(** Pieces in the order the loop takes them: longest first *)
Definition Descending (l : list Demand.t) : Prop :=
  StronglySorted (fun a b => Demand.lengthMm b <= Demand.lengthMm a) l.

Definition ofLength (n : Z) (d : Demand.t) : bool := Demand.lengthMm d =? n.

(** What ECMAScript promises of [Array.prototype.sort] with the comparator
    [compareFn], whatever algorithm the engine runs: the result holds the
    same elements, no element stands before one that the comparator puts
    first, and elements that compare equal keep their order. *)
Record ArraySort (sort : list Demand.t -> list Demand.t) : Prop := mkArraySort
  { sort_perm : forall l, Permutation (sort l) l;
    sort_ordered : forall l, StronglySorted (fun a b => compareFn a b <= 0) (sort l);
    sort_stable : forall l n, filter (ofLength n) (sort l) = filter (ofLength n) l }.

(** [optimize] with the engine's [sort] as a parameter *)
Definition packMaterialWith (sort : list Demand.t -> list Demand.t)
  (mat : Material.t) (pieces : list Demand.t) : list Pipe.t :=
  let usable := Material.stockLengthMm mat - FIXED_WASTE in
  map refundKerf (packLoop mat usable (sort pieces)).

Definition planStepWith (sort : list Demand.t -> list Demand.t)
  (materialMap : JsMap Material.t) (plan : CutPlan) (entry : string * list Demand.t)
  : CutPlan :=
  let (materialId, pieces) := entry in
  match Map_get materialId materialMap with
  | None => plan
  | Some mat => Object_set materialId (packMaterialWith sort mat pieces) plan
  end.

Definition optimizeWith (sort : list Demand.t -> list Demand.t)
  (materials : list Material.t) (demands : list Demand.t) : CutPlan :=
  let materialMap := materialMapOf materials in
  let grouped := groupDemands demands in
  fold_left (planStepWith sort materialMap) grouped [].

(** Another stable sort: the elements are taken from the left, and each one
    is put behind those that are not shorter. *)
Fixpoint insertBehind (x : Demand.t) (l : list Demand.t) : list Demand.t :=
  match l with
  | [] => [x]
  | y :: ys => if compareFn y x <=? 0 then y :: insertBehind x ys
               else x :: y :: ys
  end.

Definition sortFromLeft (pieces : list Demand.t) : list Demand.t :=
  fold_left (fun sorted x => insertBehind x sorted) pieces [].

(** The distinct elements of a list, each at the place where it shows first *)
Fixpoint firstSeen (l : list string) : list string :=
  match l with
  | [] => []
  | x :: rest => x :: filter (fun y => negb (String.eqb y x)) (firstSeen rest)
  end.

Definition withKey (k : string) (d : Demand.t) : bool := String.eqb (keyOf d) k.

(** The group that the demands [ds], all of key [k], end up as *)
Definition groupOf (k : string) (ds : list Demand.t) : option AggregatedDemand.t :=
  match ds with
  | [] => None
  | d :: _ =>
      Some (AggregatedDemand.mk k (Demand.project d) (Demand.materialId d)
              (Demand.lengthMm d) (Z.of_nat (List.length ds)) (map Demand.id ds))
  end.

(** The test [piece.lengthMm > usable] of the loop, negated *)
Definition fits (usable : Z) (d : Demand.t) : bool := negb (usable <? Demand.lengthMm d).

(** All the cuts of a plan *)
Definition planPipes (plan : CutPlan) : list Pipe.t := flat_map snd plan.
Definition planCuts (plan : CutPlan) : list Demand.t := flat_map Pipe.cuts (planPipes plan).


Definition Demand_eq_dec (a b : Demand.t) : {a = b} + {a <> b}.
Proof. decide equality; (apply Z.eq_dec || apply string_dec). Defined.

(** The pipe has [d] among its cuts *)
Definition holds (d : Demand.t) (p : Pipe.t) : bool :=
  if in_dec Demand_eq_dec d (Pipe.cuts p) then true else false.

(** The decimals of [r / 1000] for [0 < r < 1000], without trailing zeros *)
Definition fraction3 (r : Z) : string :=
  let a := digitChar (r / 100) in
  let b := digitChar ((r / 10) mod 10) in
  let c := digitChar (r mod 10) in
  if negb (r mod 10 =? 0) then String a (String b (String c ""))
  else if negb ((r / 10) mod 10 =? 0) then String a (String b "")
  else String a "".

(** The decimal numeral of [mm / 1000], exact to the millimetre *)
Definition formatMetres (mm : Z) : string :=
  let whole := numberToString (mm / 1000) in
  if mm mod 1000 =? 0 then whole
  else (whole ++ "." ++ fraction3 (mm mod 1000))%string.

(** A length as exact text: metres from 1000 mm on, millimetres below *)
Definition decimalMm (mm : Z) : string :=
  if 1000 <=? mm then (formatMetres mm ++ " m")%string
  else (numberToString mm ++ " mm")%string.

(** The number of decimals of the numeral of [p / 1000] *)
Definition decimals (p : Z) : nat :=
  if p mod 1000 =? 0 then 0%nat
  else if p mod 100 =? 0 then 1%nat
  else if p mod 10 =? 0 then 2%nat
  else 3%nat.

(** Strings by their characters *)
Fixpoint allChars (f : ascii -> bool) (s : string) : bool :=
  match s with
  | EmptyString => true
  | String a rest => f a && allChars f rest
  end.

Definition lacks (c : ascii) (s : string) : bool :=
  allChars (fun a => negb (Ascii.eqb a c)) s.

Definition isNumChar (a : ascii) : bool :=
  existsb (Ascii.eqb a)
    ["0"; "1"; "2"; "3"; "4"; "5"; "6"; "7"; "8"; "9"; "-"]%char.

(** What may follow an element in the output of [join(' + ')] *)
Definition sepTail (s : string) : Prop :=
  s = "" \/ exists t, s = (" + " ++ t)%string.

Definition lengthsOf (p : Pipe.t) : list Z := map Demand.lengthMm (Pipe.cuts p).

(** Every cut of the pipe is shorter than 10^15 mm *)
Definition shortCuts (p : Pipe.t) : Prop := Forall (fun n => n < 10 ^ 15) (lengthsOf p).

Definition sameLengths (p q : Pipe.t) : bool :=
  if list_eq_dec Z.eq_dec (lengthsOf p) (lengthsOf q) then true else false.

Definition withPattern (k : string) (p : Pipe.t) : bool := String.eqb (patternKey p) k.

(** What follows the first element in [join(' + ')] of [x :: l] *)
Definition joinTail (l : list string) : string :=
  match l with
  | [] => ""
  | _ => (" + " ++ String.concat " + " l)%string
  end.

(** The rows that one entry of the plan adds to the summary *)
Definition summaryRows (materialMap : JsMap Material.t) (entry : string * list Pipe.t)
  : list SummaryRow.t :=
  match Map_get (fst entry) materialMap with
  | Some mat =>
      map (fun pc => SummaryRow.mk (Material.name mat) (fst pc) (snd pc))
          (patternCountsOf (snd entry))
  | None => []
  end.

(** Demands with the same material, project and length *)
Definition sameTriple (a b : Demand.t) : bool :=
  String.eqb (Demand.materialId a) (Demand.materialId b)
  && String.eqb (Demand.project a) (Demand.project b)
  && (Demand.lengthMm a =? Demand.lengthMm b).

(** The first demand of every triple, in input order *)
Fixpoint firstOfTriple (ds : list Demand.t) : list Demand.t :=
  match ds with
  | [] => []
  | d :: rest => d :: filter (fun y => negb (sameTriple y d)) (firstOfTriple rest)
  end.

(** The group of the demands of [ds] that share the triple of [d] *)
Definition groupOfTriple (ds : list Demand.t) (d : Demand.t) : AggregatedDemand.t :=
  AggregatedDemand.mk (keyOf d) (Demand.project d) (Demand.materialId d) (Demand.lengthMm d)
    (Z.of_nat (List.length (filter (sameTriple d) ds)))
    (map Demand.id (filter (sameTriple d) ds)).




(** ** Ids, colours and the bar of a pipe *)

(** [let idCounter = 0; function nextId() { return String(++idCounter) }]:
    the id and the counter after the call *)
Definition nextId (idCounter : Z) : string * Z :=
  (numberToString (idCounter + 1), idCounter + 1).

Definition PROJECT_COLORS : list string :=
  ["#3b82f6"; "#10b981"; "#8b5cf6"; "#ec4899"; "#06b6d4";
   "#84cc16"; "#f97316"; "#14b8a6"; "#a855f7"; "#f43f5e";
   "#6366f1"; "#22d3ee"; "#eab308"; "#e879f9"; "#2dd4bf"].

(** [projects.forEach((p, i) => map.set(p, PROJECT_COLORS[i % PROJECT_COLORS.length]))] *)
Fixpoint colorLoop (projects : list string) (i : nat) (map : JsMap string) : JsMap string :=
  match projects with
  | [] => map
  | p :: rest =>
      colorLoop rest (S i)
        (Map_set p (nth (i mod List.length PROJECT_COLORS) PROJECT_COLORS "") map)
  end.

(** [[...new Set(demands.map(d => d.project))]] keeps the first of equal labels *)
Definition getProjectColorMap (demands : list Demand.t) : JsMap string :=
  let projects := firstSeen (map Demand.project demands) in
  colorLoop projects 0 [].

Module Segment.
Record t := mk { type : string; mm : Z; label : string;
                 color : option string; project : option string }.
End Segment.

(** [projectColors.get(cut.project) ?? '#666'] *)
Definition colorOf (projectColors : JsMap string) (cut : Demand.t) : string :=
  match Map_get (Demand.project cut) projectColors with
  | Some c => c
  | None => "#666"
  end.

(** [pipe.cuts.forEach((cut, cutIdx) => ...)]: a cut, and a kerf unless it is
    the last cut *)
Fixpoint cutLoop (projectColors : JsMap string) (cutsLength : nat) (cuts : list Demand.t)
  (cutIdx : nat) (segments : list Segment.t) : list Segment.t :=
  match cuts with
  | [] => segments
  | cut :: rest =>
      let withCut :=
        segments ++ [Segment.mk "cut" (Demand.lengthMm cut) (formatMm (Demand.lengthMm cut))
                       (Some (colorOf projectColors cut)) (Some (Demand.project cut))] in
      let withKerf :=
        if Z.of_nat cutIdx <? Z.of_nat cutsLength - 1
        then withCut ++ [Segment.mk "kerf" KERF (numberToString KERF) None None]
        else withCut in
      cutLoop projectColors cutsLength rest (S cutIdx) withKerf
  end.

(** The segments of one bar of ResultSection *)
Definition segmentsOf (projectColors : JsMap string) (pipe : Pipe.t) : list Segment.t :=
  let fixed := [Segment.mk "fixed-waste" FIXED_WASTE (numberToString FIXED_WASTE) None None] in
  let withCuts :=
    cutLoop projectColors (List.length (Pipe.cuts pipe)) (Pipe.cuts pipe) 0 fixed in
  if 0 <? Pipe.remainingMm pipe
  then withCuts ++ [Segment.mk "waste" (Pipe.remainingMm pipe)
                      (formatMm (Pipe.remainingMm pipe)) None None]
  else withCuts.

Definition segmentsMm (segments : list Segment.t) : Z :=
  fold_right (fun seg acc => Segment.mm seg + acc) 0 segments.

(** [tooLongPieces] of ResultStep: the demands pushed by its loop *)
Definition tooLongPieces (materials : list Material.t) (demands : list Demand.t)
  : list Demand.t :=
  fold_left (fun pieces d =>
               match Map_get (Demand.materialId d) (materialMapOf materials) with
               | Some mat =>
                   if Material.stockLengthMm mat - FIXED_WASTE <? Demand.lengthMm d
                   then pieces ++ [d] else pieces
               | None => pieces
               end) demands [].

(** ** The state of App and its handlers *)

Record AppState := mkApp
  { idCounter : Z; step : Z; materials : list Material.t; demands : list Demand.t }.

Definition initialApp : AppState := mkApp 0 1 [] [].

(** [setMaterials(prev => [...prev, m])] *)
Definition addMaterial (m : Material.t) (st : AppState) : AppState :=
  mkApp (idCounter st) (step st) (materials st ++ [m]) (demands st).

Definition deleteMaterial (id : string) (st : AppState) : AppState :=
  mkApp (idCounter st) (step st)
        (filter (fun m => negb (String.eqb (Material.id m) id)) (materials st))
        (filter (fun d => negb (String.eqb (Demand.materialId d) id)) (demands st)).

Definition addDemand (d : Demand.t) (st : AppState) : AppState :=
  mkApp (idCounter st) (step st) (materials st) (demands st ++ [d]).

(** [const idSet = new Set(ids); setDemands(prev => prev.filter(d => !idSet.has(d.id)))] *)
Definition deleteGroup (ids : list string) (st : AppState) : AppState :=
  mkApp (idCounter st) (step st) (materials st)
        (filter (fun d => negb (existsb (String.eqb (Demand.id d)) ids)) (demands st)).

Definition clearDemands (st : AppState) : AppState :=
  mkApp (idCounter st) (step st) (materials st) [].

Definition goToStep (s : Z) (st : AppState) : AppState :=
  if (s =? 2) && (Z.of_nat (List.length (materials st)) =? 0) then st
  else mkApp (idCounter st) s (materials st) (demands st).

(** [handleSubmit] of MaterialStep.  [name] is [name.trim()]; [len] is
    [parseFloat(stockLength)], [None] for [NaN]. *)
Definition submitMaterial (name : string) (len : option Z) (st : AppState) : AppState :=
  match len with
  | None => st
  | Some len =>
      if String.eqb name "" || (len <=? 0) then st
      else
        let (id, counter) := nextId (idCounter st) in
        addMaterial (Material.mk id name len)
                    (mkApp counter (step st) (materials st) (demands st))
  end.

(** [for (let i = 0; i < cnt; i++) onAdd({ id: nextId(), ... })] *)
Fixpoint addLoop (cnt : nat) (project materialId : string) (lengthMm : Z) (st : AppState)
  : AppState :=
  match cnt with
  | O => st
  | S n =>
      let (id, counter) := nextId (idCounter st) in
      addLoop n project materialId lengthMm
        (addDemand (Demand.mk id project materialId lengthMm)
                   (mkApp counter (step st) (materials st) (demands st)))
  end.

(** [handleSubmit] of DemandStep.  [project] is [project.trim()]; [lengthMm]
    is the entered length in millimetres ([len] in mm, [len * 1000] in m, of
    the sign of [len]), [None] for [NaN]; [cnt] is [parseInt(count)]. *)
Definition submitDemand (project materialId : string) (lengthMm cnt : option Z)
  (st : AppState) : AppState :=
  match lengthMm, cnt with
  | Some lengthMm, Some cnt =>
      if String.eqb project "" || String.eqb materialId "" || (lengthMm <=? 0) || (cnt <? 1)
      then st
      else addLoop (Z.to_nat cnt) project materialId lengthMm st
  | _, _ => st
  end.

Inductive Event : Type :=
| SubmitMaterial (name : string) (len : option Z)
| DeleteMaterial (id : string)
| SubmitDemand (project materialId : string) (lengthMm cnt : option Z)
| DeleteGroup (ids : list string)
| ClearDemands
| GoToStep (s : Z).

Definition handle (e : Event) (st : AppState) : AppState :=
  match e with
  | SubmitMaterial name len => submitMaterial name len st
  | DeleteMaterial id => deleteMaterial id st
  | SubmitDemand project materialId lengthMm cnt =>
      submitDemand project materialId lengthMm cnt st
  | DeleteGroup ids => deleteGroup ids st
  | ClearDemands => clearDemands st
  | GoToStep s => goToStep s st
  end.

(** The material of the demand form is one that the [select] offers *)
Definition offered (e : Event) (st : AppState) : Prop :=
  match e with
  | SubmitDemand _ materialId _ _ =>
      materialId = "" \/ In materialId (map Material.id (materials st))
  | _ => True
  end.

Inductive Reachable : AppState -> Prop :=
| ReachInitial : Reachable initialApp
| ReachHandle e st : Reachable st -> offered e st -> Reachable (handle e st).

(** What the handlers keep true of the materials and demands *)
Record WellFormed (st : AppState) : Prop := mkWellFormed
  { wf_counter : 0 <= idCounter st;
    wf_ids : NoDup (map Material.id (materials st) ++ map Demand.id (demands st));
    wf_minted :
      forall i, In i (map Material.id (materials st) ++ map Demand.id (demands st)) ->
                exists k, 0 < k <= idCounter st /\ i = numberToString k;
    wf_stock : forall m, In m (materials st) ->
                         0 < Material.stockLengthMm m /\ Material.name m <> "";
    wf_length : forall d, In d (demands st) ->
                          0 < Demand.lengthMm d /\ Demand.project d <> "";
    wf_material : forall d, In d (demands st) ->
                            In (Demand.materialId d) (map Material.id (materials st)) }.

(** The entry that one group of demands adds to the plan *)
Definition entryOf (materialMap : JsMap Material.t) (entry : string * list Demand.t)
  : CutPlan :=
  match Map_get (fst entry) materialMap with
  | Some mat => Object_set (fst entry) (packMaterial mat (snd entry)) []
  | None => []
  end.

Definition otherKey {V : Type} (k : string) (e : string * V) : bool :=
  negb (String.eqb (fst e) k).

(** The entry of material [k] in the plan for [demands], if it has one *)
Definition entryFor (materialMap : JsMap Material.t) (demands : list Demand.t) (k : string)
  : CutPlan :=
  match Map_get k materialMap with
  | Some mat => Object_set k (packMaterial mat (filter (forMaterial k) demands)) []
  | None => []
  end.

(** The sum of the counts of a list of groups *)
Definition totalCount (groups : list AggregatedDemand.t) : Z :=
  fold_right (fun g acc => AggregatedDemand.count g + acc) 0 groups.

Definition otherGroup (k : string) (g : AggregatedDemand.t) : bool :=
  negb (String.eqb (AggregatedDemand.key g) k).

(** [PROJECT_COLORS[i % PROJECT_COLORS.length]] *)
Definition colorAt (i : nat) : string :=
  nth (i mod List.length PROJECT_COLORS) PROJECT_COLORS "".

(** No pipe has room, up to [slack], for the first cut of a later pipe *)
Definition Tight (slack : Z) (pipes : list Pipe.t) : Prop :=
  forall i j p q c,
    (i < j)%nat -> nth_error pipes i = Some p -> nth_error pipes j = Some q ->
    hd_error (Pipe.cuts q) = Some c ->
    Pipe.remainingMm p < Demand.lengthMm c + slack.

(** The cuts of the pipes are in descending order and not shorter than the
    pieces still to come *)
Definition Ordered (rest : list Demand.t) (pipes : list Pipe.t) : Prop :=
  forall p, In p pipes ->
    Descending (Pipe.cuts p) /\
    forall c d, In c (Pipe.cuts p) -> In d rest -> Demand.lengthMm d <= Demand.lengthMm c.

Definition knownMaterial (materialMap : JsMap Material.t) (d : Demand.t) : bool :=
  match Map_get (Demand.materialId d) materialMap with
  | Some _ => true
  | None => false
  end.

(** The demands that the plan holds as cuts: they fit a known material that
    is not called [__proto__] *)
Definition placed (materialMap : JsMap Material.t) (d : Demand.t) : bool :=
  match Map_get (Demand.materialId d) materialMap with
  | Some mat =>
      fits (Material.stockLengthMm mat - FIXED_WASTE) d
      && negb (String.eqb (Demand.materialId d) "__proto__")
  | None => false
  end.

(** ** The three-step App of [src/App.tsx]: the same handlers, and a stored plan *)

Record WizardState := mkWizard { app : AppState; results : option CutPlan }.

Definition initialWizard : WizardState := mkWizard initialApp None.

(** [addMaterial] leaves [results] alone *)
Definition wizardAddMaterial (m : Material.t) (w : WizardState) : WizardState :=
  mkWizard (addMaterial m (app w)) (results w).

Definition wizardDeleteMaterial (id : string) (w : WizardState) : WizardState :=
  mkWizard (deleteMaterial id (app w)) None.

Definition wizardAddDemand (d : Demand.t) (w : WizardState) : WizardState :=
  mkWizard (addDemand d (app w)) None.

(** [setDemands(prev => prev.filter(d => d.id !== id)); setResults(null)] *)
Definition deleteDemand (id : string) (w : WizardState) : WizardState :=
  mkWizard (mkApp (idCounter (app w)) (step (app w)) (materials (app w))
              (filter (fun d => negb (String.eqb (Demand.id d) id)) (demands (app w))))
           None.

Definition wizardClearDemands (w : WizardState) : WizardState :=
  mkWizard (clearDemands (app w)) None.

(** [const plan = optimize(materials, demands); setResults(plan); setStep(3)] *)
Definition runOptimize (w : WizardState) : WizardState :=
  mkWizard (mkApp (idCounter (app w)) 3 (materials (app w)) (demands (app w)))
           (Some (optimize (materials (app w)) (demands (app w)))).

Definition wizardGoToStep (s : Z) (w : WizardState) : WizardState :=
  if (s =? 2) && (Z.of_nat (List.length (materials (app w))) =? 0) then w
  else if (s =? 3) && (match results w with Some _ => false | None => true end) then w
  else mkWizard (mkApp (idCounter (app w)) s (materials (app w)) (demands (app w)))
                (results w).

Definition wizardSubmitMaterial (name : string) (len : option Z) (w : WizardState)
  : WizardState :=
  match len with
  | None => w
  | Some len =>
      if String.eqb name "" || (len <=? 0) then w
      else
        let (id, counter) := nextId (idCounter (app w)) in
        wizardAddMaterial (Material.mk id name len)
          (mkWizard (mkApp counter (step (app w)) (materials (app w)) (demands (app w)))
                    (results w))
  end.

Fixpoint wizardAddLoop (cnt : nat) (project materialId : string) (lengthMm : Z)
  (w : WizardState) : WizardState :=
  match cnt with
  | O => w
  | S n =>
      let (id, counter) := nextId (idCounter (app w)) in
      wizardAddLoop n project materialId lengthMm
        (wizardAddDemand (Demand.mk id project materialId lengthMm)
           (mkWizard (mkApp counter (step (app w)) (materials (app w)) (demands (app w)))
                     (results w)))
  end.

Definition wizardSubmitDemand (project materialId : string) (lengthMm cnt : option Z)
  (w : WizardState) : WizardState :=
  match lengthMm, cnt with
  | Some lengthMm, Some cnt =>
      if String.eqb project "" || String.eqb materialId "" || (lengthMm <=? 0) || (cnt <? 1)
      then w
      else wizardAddLoop (Z.to_nat cnt) project materialId lengthMm w
  | _, _ => w
  end.

Inductive WizardEvent : Type :=
| WSubmitMaterial (name : string) (len : option Z)
| WDeleteMaterial (id : string)
| WSubmitDemand (project materialId : string) (lengthMm cnt : option Z)
| WDeleteDemand (id : string)
| WClearDemands
| WRunOptimize
| WGoToStep (s : Z).

Definition wizardHandle (e : WizardEvent) (w : WizardState) : WizardState :=
  match e with
  | WSubmitMaterial name len => wizardSubmitMaterial name len w
  | WDeleteMaterial id => wizardDeleteMaterial id w
  | WSubmitDemand project materialId lengthMm cnt =>
      wizardSubmitDemand project materialId lengthMm cnt w
  | WDeleteDemand id => deleteDemand id w
  | WClearDemands => wizardClearDemands w
  | WRunOptimize => runOptimize w
  | WGoToStep s => wizardGoToStep s w
  end.

Definition wizardOffered (e : WizardEvent) (w : WizardState) : Prop :=
  match e with
  | WSubmitDemand _ materialId _ _ =>
      materialId = "" \/ In materialId (map Material.id (materials (app w)))
  | _ => True
  end.

Inductive WizardReachable : WizardState -> Prop :=
| WizardInitial : WizardReachable initialWizard
| WizardStep e w :
    WizardReachable w -> wizardOffered e w -> WizardReachable (wizardHandle e w).

(** The stored plan, if there is one, is the plan of the current inputs *)
Definition Current (w : WizardState) : Prop :=
  match results w with
  | None => True
  | Some plan => plan = optimize (materials (app w)) (demands (app w))
  end.

(** Entries whose keys are array indices, the first not above the second *)
Definition ascendingKeys {V : Type} (e1 e2 : string * V) : Prop :=
  exists a b, arrayIndex (fst e1) = Some a /\ arrayIndex (fst e2) = Some b /\ (a <= b)%N.

(** ** The demand table of DemandStep *)

(** [list = groupedByMat.get(agg.materialId) ?? []; list.push(agg); groupedByMat.set(..., list)] *)
Definition groupedByMatStep (groupedByMat : JsMap (list AggregatedDemand.t))
  (agg : AggregatedDemand.t) : JsMap (list AggregatedDemand.t) :=
  let list := match Map_get (AggregatedDemand.materialId agg) groupedByMat with
              | Some l => l
              | None => []
              end in
  Map_set (AggregatedDemand.materialId agg) (list ++ [agg]) groupedByMat.

Definition groupedByMatOf (aggregated : list AggregatedDemand.t)
  : JsMap (list AggregatedDemand.t) :=
  fold_left groupedByMatStep aggregated [].

(** [mat ? agg.lengthMm > mat.stockLengthMm - FIXED_WASTE : false], with
    [mat = materialMap.get(matId)] of the header the row stands under *)
Definition rowTooLong (materialMap : JsMap Material.t) (matId : string)
  (agg : AggregatedDemand.t) : bool :=
  match Map_get matId materialMap with
  | Some mat => Material.stockLengthMm mat - FIXED_WASTE <? AggregatedDemand.lengthMm agg
  | None => false
  end.

Definition rowOfMaterial (k : string) (agg : AggregatedDemand.t) : bool :=
  String.eqb (AggregatedDemand.materialId agg) k.

(** * Properties *)

(** ** The [Map] model *)

Section JsMapFacts.
Context {V : Type}.
Implicit Types (m : list (string * V)) (k : string) (v : V).

Lemma Map_get_set_same k v m : Map_get k (Map_set k v m) = Some v.
Proof.
  induction m as [|[k' v'] m IH]; simpl.
  - now rewrite String.eqb_refl.
  - destruct (String.eqb k k') eqn:E; simpl; rewrite ?String.eqb_refl, ?E; auto.
Qed.

Lemma Map_get_set_other k k' v m :
  k <> k' -> Map_get k' (Map_set k v m) = Map_get k' m.
Proof.
  intros Hne. induction m as [|[k0 v0] m IH]; simpl.
  - destruct (String.eqb_spec k' k); congruence.
  - destruct (String.eqb_spec k k0) as [->|Hk]; simpl.
    + destruct (String.eqb_spec k' k0); congruence.
    + now rewrite IH.
Qed.

Lemma Map_get_None_notin k m : Map_get k m = None <-> ~ In k (Map_keys m).
Proof.
  induction m as [|[k' v'] m IH]; simpl.
  - tauto.
  - destruct (String.eqb_spec k k') as [->|Hk].
    + split; [discriminate | intros H; exfalso; apply H; now left].
    + rewrite IH. split; [intros H [E|E]; congruence || auto | tauto].
Qed.

Lemma Map_get_Some_in k v m : Map_get k m = Some v -> In (k, v) m.
Proof.
  induction m as [|[k' v'] m IH]; simpl; [discriminate|].
  destruct (String.eqb_spec k k') as [->|Hk]; [intros [= ->]; now left | auto].
Qed.

Lemma Map_in_get k v m : NoDup (Map_keys m) -> In (k, v) m -> Map_get k m = Some v.
Proof.
  induction m as [|[k' v'] m IH]; simpl; [tauto|].
  intros Hnd [E|Hin]; inversion Hnd as [|? ? Hk' Hnd']; subst.
  - inversion E; subst. now rewrite String.eqb_refl.
  - destruct (String.eqb_spec k k') as [->|Hk]; auto.
    exfalso. apply Hk'. unfold Map_keys. now apply (in_map fst _ (k', v)).
Qed.

Lemma Map_keys_set k v m :
  Map_keys (Map_set k v m)
  = match Map_get k m with Some _ => Map_keys m | None => Map_keys m ++ [k] end.
Proof.
  induction m as [|[k' v'] m IH]; simpl; auto.
  destruct (String.eqb_spec k k') as [->|Hk]; simpl; auto.
  rewrite IH. now destruct (Map_get k m).
Qed.

Lemma Map_set_NoDup k v m : NoDup (Map_keys m) -> NoDup (Map_keys (Map_set k v m)).
Proof.
  intros Hnd. rewrite Map_keys_set. destruct (Map_get k m) eqn:E; auto.
  apply Map_get_None_notin in E.
  apply NoDup_rev in Hnd. rewrite <- (rev_involutive (_ ++ _)).
  apply NoDup_rev. rewrite rev_app_distr. simpl. constructor; auto.
  now rewrite <- in_rev.
Qed.

Lemma Map_set_in k v k' v' m :
  In (k', v') (Map_set k v m) -> (k', v') = (k, v) \/ In (k', v') m.
Proof.
  induction m as [|[k0 v0] m IH]; simpl.
  - intros [E|[]]; auto.
  - destruct (String.eqb_spec k k0) as [->|Hk]; simpl; intros [E|H]; auto.
    destruct (IH H); auto.
Qed.
End JsMapFacts.

Lemma fold_Map_set_NoDup {A V : Type} (f : list (string * V) -> A -> list (string * V)) :
  (forall m a, NoDup (Map_keys m) -> NoDup (Map_keys (f m a))) ->
  forall l m, NoDup (Map_keys m) -> NoDup (Map_keys (fold_left f l m)).
Proof.
  intros Hf l. induction l as [|a l IH]; simpl; auto.
Qed.

(** ** Grouping by material *)

Lemma groupDemands_snoc ds d : groupDemands (ds ++ [d]) = groupStep (groupDemands ds) d.
Proof. unfold groupDemands. now rewrite fold_left_app. Qed.

Lemma groupDemands_get k ds :
  Map_get k (groupDemands ds) = nonEmpty (filter (forMaterial k) ds).
Proof.
  induction ds as [|d ds IH] using rev_ind; [reflexivity|].
  rewrite groupDemands_snoc, filter_app. unfold groupStep. simpl.
  unfold forMaterial at 2.
  destruct (String.eqb_spec (Demand.materialId d) k) as [->|Hk].
  - rewrite Map_get_set_same, IH.
    destruct (filter _ ds); reflexivity.
  - rewrite Map_get_set_other by auto. now rewrite IH, app_nil_r.
Qed.

Lemma groupDemands_NoDup ds : NoDup (Map_keys (groupDemands ds)).
Proof.
  unfold groupDemands. apply fold_Map_set_NoDup; [|constructor].
  intros m a H. unfold groupStep. now apply Map_set_NoDup.
Qed.

Lemma groupDemands_in k pieces ds :
  In (k, pieces) (groupDemands ds) <->
  pieces <> [] /\ pieces = filter (forMaterial k) ds.
Proof.
  split.
  - intros H. apply Map_in_get in H; [|apply groupDemands_NoDup].
    rewrite groupDemands_get in H. destruct (filter _ ds) eqn:E; inversion H; subst.
    split; congruence.
  - intros [Hne ->]. apply Map_get_Some_in. rewrite groupDemands_get.
    destruct (filter _ ds); simpl; congruence.
Qed.

(** ** The plan, entry by entry *)

Lemma Map_get_Object_set {V : Type} k k0 (v : V) m :
  Map_get k (Object_set k0 v m)
  = if String.eqb k k0 && negb (String.eqb k0 "__proto__") then Some v else Map_get k m.
Proof.
  unfold Object_set. destruct (String.eqb k0 "__proto__"); cbn [negb].
  - now rewrite andb_false_r.
  - rewrite andb_true_r. destruct (String.eqb_spec k k0) as [->|Hk].
    + apply Map_get_set_same.
    + apply Map_get_set_other. auto.
Qed.

Lemma planStep_get mm k plan k0 p0 :
  Map_get k (planStep mm plan (k0, p0))
  = match Map_get k0 mm with
    | Some mat =>
        if String.eqb k k0 && negb (String.eqb k0 "__proto__")
        then Some (packMaterial mat p0) else Map_get k plan
    | None => Map_get k plan
    end.
Proof.
  unfold planStep. destruct (Map_get k0 mm); [|reflexivity]. apply Map_get_Object_set.
Qed.

Lemma planStep_fold_get mm k es : forall plan,
  NoDup (Map_keys es) ->
  Map_get k (fold_left (planStep mm) es plan)
  = match Map_get k es, Map_get k mm with
    | Some pieces, Some mat =>
        if String.eqb k "__proto__" then Map_get k plan
        else Some (packMaterial mat pieces)
    | _, _ => Map_get k plan
    end.
Proof.
  induction es as [|[k0 p0] es IH]; intros plan Hnd; cbn [fold_left].
  - simpl. now destruct (Map_get k mm).
  - inversion Hnd as [|? ? Hk0 Hnd']; subst. rewrite IH by auto.
    rewrite planStep_get. cbn [Map_get].
    destruct (String.eqb_spec k k0) as [->|Hk]; cbn [andb].
    + assert (E : Map_get k0 es = None) by now apply Map_get_None_notin.
      rewrite E. destruct (Map_get k0 mm) eqn:Em; [|reflexivity].
      now destruct (String.eqb k0 "__proto__").
    + now destruct (Map_get k0 mm).
Qed.

Lemma optimize_get materials demands k :
  Map_get k (optimize materials demands)
  = if String.eqb k "__proto__" then None
    else match Map_get k (groupDemands demands), Map_get k (materialMapOf materials) with
         | Some pieces, Some mat => Some (packMaterial mat pieces)
         | _, _ => None
         end.
Proof.
  unfold optimize. rewrite planStep_fold_get by apply groupDemands_NoDup.
  destruct (Map_get k (groupDemands demands)); [destruct (Map_get k _)|];
    destruct (String.eqb k "__proto__"); reflexivity.
Qed.

Lemma optimize_NoDup materials demands : NoDup (Map_keys (optimize materials demands)).
Proof.
  unfold optimize. apply fold_Map_set_NoDup; [|constructor].
  intros m [k pieces] H. unfold planStep, Object_set.
  destruct (Map_get k _); auto. destruct (String.eqb k "__proto__"); auto.
  now apply Map_set_NoDup.
Qed.

Lemma optimize_in materials demands k pipes :
  In (k, pipes) (optimize materials demands) <->
  exists mat pieces,
    Map_get k (groupDemands demands) = Some pieces /\
    Map_get k (materialMapOf materials) = Some mat /\
    pipes = packMaterial mat pieces /\
    k <> "__proto__".
Proof.
  split.
  - intros H. apply Map_in_get in H; [|apply optimize_NoDup].
    rewrite optimize_get in H.
    destruct (String.eqb_spec k "__proto__") as [|Hk]; [discriminate|].
    destruct (Map_get k (groupDemands demands)) as [pieces|]; [|discriminate].
    destruct (Map_get k (materialMapOf materials)) as [mat|]; [|discriminate].
    inversion H. eauto 6.
  - intros (mat & pieces & Hg & Hm & -> & Hk). apply Map_get_Some_in.
    rewrite optimize_get, Hg, Hm.
    now destruct (String.eqb_spec k "__proto__").
Qed.

(** ** The scan for the best pipe *)

Lemma nth_error_snoc {A : Type} (l : list A) (x : A) j y :
  nth_error (l ++ [x]) j = Some y ->
  nth_error l j = Some y \/ (j = List.length l /\ y = x).
Proof.
  intros H. destruct (Nat.lt_ge_cases j (List.length l)) as [Hlt|Hge].
  - left. now rewrite nth_error_app1 in H.
  - right. rewrite nth_error_app2 in H by auto.
    destruct (j - List.length l)%nat eqn:E; simpl in H.
    + inversion H. split; [lia|reflexivity].
    + destruct n; discriminate.
Qed.

Lemma BestOf_step needed pre p best :
  BestOf needed pre best ->
  BestOf needed (pre ++ [p])
    (if (needed <=? Pipe.remainingMm p) && belowBest (Pipe.remainingMm p) best
     then Some (List.length pre, Pipe.remainingMm p) else best).
Proof.
  intros Hb.
  destruct (Z.leb_spec needed (Pipe.remainingMm p)) as [Hfit|Hno]; simpl.
  - destruct best as [[i r]|]; simpl in *.
    + destruct Hb as ((p0 & Hp0 & Hr) & Hle & Hmin).
      destruct (Z.ltb_spec (Pipe.remainingMm p) r) as [Hlt|Hge]; simpl.
      * split; [|split; auto].
        { exists p. split; auto. rewrite nth_error_app2, Nat.sub_diag by auto. reflexivity. }
        intros j q Hq Hfq. apply nth_error_snoc in Hq as [Hq|[-> ->]].
        -- destruct (Hmin j q Hq Hfq) as [H|[H _]]; left; lia.
        -- right. split; auto.
      * split; [|split; auto].
        { exists p0. split; auto. rewrite nth_error_app1; auto.
          apply nth_error_Some. congruence. }
        intros j q Hq Hfq. apply nth_error_snoc in Hq as [Hq|[-> ->]]; auto.
        assert (i < List.length pre)%nat by (apply nth_error_Some; congruence).
        destruct (Z.eq_dec r (Pipe.remainingMm p)); [right|left]; lia.
    + split; [|split; auto].
      { exists p. split; auto. rewrite nth_error_app2, Nat.sub_diag by auto. reflexivity. }
      intros j q Hq Hfq. apply nth_error_snoc in Hq as [Hq|[-> ->]].
      * apply nth_error_In in Hq. specialize (Hb q Hq). lia.
      * right. split; auto.
  - destruct best as [[i r]|]; simpl in *.
    + destruct Hb as ((p0 & Hp0 & Hr) & Hle & Hmin).
      split; [|split; auto].
      { exists p0. split; auto. rewrite nth_error_app1; auto.
        apply nth_error_Some. congruence. }
      intros j q Hq Hfq. apply nth_error_snoc in Hq as [Hq|[-> ->]]; auto. lia.
    + intros q Hq. apply in_app_or in Hq as [Hq|[->|[]]]; auto.
Qed.

Lemma scanPipes_BestOf needed pipes : forall pre best,
  BestOf needed pre best ->
  BestOf needed (pre ++ pipes) (scanPipes needed pipes (List.length pre) best).
Proof.
  induction pipes as [|p pipes IH]; intros pre best Hb; simpl.
  - now rewrite app_nil_r.
  - apply (BestOf_step needed pre p) in Hb.
    apply IH in Hb. rewrite length_app, Nat.add_1_r, <- app_assoc in Hb. exact Hb.
Qed.

Lemma scanPipes_spec needed pipes : BestOf needed pipes (scanPipes needed pipes 0 None).
Proof. apply (scanPipes_BestOf needed pipes [] None). intros p []. Qed.

(** ** One placement *)

Lemma placePiece_Placement mat usable pipes piece :
  Placement mat usable pipes piece (placePiece mat usable pipes piece).
Proof.
  unfold placePiece.
  destruct (Z.ltb_spec usable (Demand.lengthMm piece)) as [Hlong|Hfits].
  - now constructor.
  - pose proof (scanPipes_spec (Demand.lengthMm piece + KERF) pipes) as Hb.
    destruct (scanPipes _ pipes 0 None) as [[i r]|]; simpl in Hb.
    + destruct Hb as ((p & Hp & <-) & Hle & Hmin).
      now apply IntoPipe with (p := p).
    + now apply NewPipe.
Qed.

Lemma updateAt_length i f pipes : List.length (updateAt i f pipes) = List.length pipes.
Proof.
  revert i. induction pipes as [|p pipes IH]; intros [|i]; simpl; auto.
Qed.

Lemma updateAt_nth i f pipes p :
  nth_error pipes i = Some p ->
  updateAt i f pipes = firstn i pipes ++ f p :: skipn (S i) pipes.
Proof.
  revert i. induction pipes as [|q pipes IH]; intros [|i] H; try discriminate.
  - inversion H. reflexivity.
  - cbn [updateAt firstn skipn List.app]. f_equal. now apply IH.
Qed.

Lemma updateAt_Forall (P : Pipe.t -> Prop) i f pipes p :
  nth_error pipes i = Some p -> P (f p) -> Forall P pipes -> Forall P (updateAt i f pipes).
Proof.
  revert i. induction pipes as [|q pipes IH]; intros [|i] Hn Hf Hall; simpl in *;
    try discriminate; inversion Hall; subst.
  - inversion Hn; subst. now constructor.
  - constructor; eauto.
Qed.

Lemma updateAt_in i f pipes q :
  In q (updateAt i f pipes) ->
  In q pipes \/ exists p, nth_error pipes i = Some p /\ q = f p.
Proof.
  revert i. induction pipes as [|p pipes IH]; intros [|i]; simpl; auto.
  - intros [<-|H]; eauto.
  - intros [<-|H]; auto. destruct (IH _ H) as [H'|H']; auto.
Qed.

Lemma updateAt_cuts i piece needed pipes p :
  nth_error pipes i = Some p ->
  Permutation (flat_map Pipe.cuts (updateAt i (addCut piece needed) pipes))
              (piece :: flat_map Pipe.cuts pipes).
Proof.
  revert i. induction pipes as [|q pipes IH]; intros [|i] Hn; simpl in *; try discriminate.
  - inversion Hn; subst. rewrite <- app_assoc. simpl.
    rewrite <- Permutation_middle. reflexivity.
  - rewrite (IH _ Hn). symmetry. apply Permutation_middle.
Qed.

(** ** The pipes while and after packing *)

Lemma cutSum_addCut piece needed p :
  cutSum (addCut piece needed p) = cutSum p + Demand.lengthMm piece.
Proof. unfold cutSum. simpl. now rewrite fold_left_app. Qed.

Lemma Packed_newPipe mat usable piece :
  Demand.lengthMm piece <= usable -> Packed mat usable (newPipe mat usable piece).
Proof.
  intros H. constructor; unfold newPipe; cbn [Pipe.cuts Pipe.remainingMm Pipe.stockLengthMm
    Pipe.usableMm List.length]; auto; try discriminate; unfold cutSum, KERF; cbn [fold_left Pipe.cuts]; lia.
Qed.

Lemma Packed_addCut mat usable piece p :
  Demand.lengthMm piece + KERF <= Pipe.remainingMm p ->
  Packed mat usable p ->
  Packed mat usable (addCut piece (Demand.lengthMm piece + KERF) p).
Proof.
  intros Hfit [Hc Hs Hu Hr Hl].
  constructor; auto.
  - simpl. intros E. now apply app_eq_nil in E as [_ E].
  - rewrite cutSum_addCut. unfold addCut. cbn [Pipe.cuts Pipe.remainingMm].
    rewrite length_app, Nat2Z.inj_add. cbn [List.length]. unfold KERF in *. lia.
  - simpl. unfold KERF in *. lia.
Qed.

Lemma Placement_Packed mat usable pipes piece pipes' :
  Placement mat usable pipes piece pipes' ->
  Forall (Packed mat usable) pipes -> Forall (Packed mat usable) pipes'.
Proof.
  intros [Hlong|i p Hfits Hn Hle Hmin|Hfits Hnone] Hall; auto.
  - apply updateAt_Forall with (p := p); auto.
    apply Packed_addCut; auto.
    rewrite Forall_forall in Hall. apply Hall. eapply nth_error_In; eauto.
  - apply Forall_app. split; auto. constructor; auto. now apply Packed_newPipe.
Qed.

Lemma fold_placePiece_Packed mat usable sorted : forall pipes,
  Forall (Packed mat usable) pipes ->
  Forall (Packed mat usable) (fold_left (placePiece mat usable) sorted pipes).
Proof.
  induction sorted as [|piece sorted IH]; intros pipes Hall; simpl; auto.
  apply IH. eapply Placement_Packed; eauto. apply placePiece_Placement.
Qed.

Lemma packLoop_Packed mat usable sorted : Forall (Packed mat usable) (packLoop mat usable sorted).
Proof. apply fold_placePiece_Packed. constructor. Qed.

Lemma packTrace_Packed mat usable sorted : forall pipes,
  Forall (Packed mat usable) pipes ->
  Forall (Forall (Packed mat usable)) (packTrace mat usable pipes sorted).
Proof.
  induction sorted as [|piece sorted IH]; intros pipes Hall; simpl.
  - constructor; auto.
  - constructor; auto. apply IH. eapply Placement_Packed; eauto. apply placePiece_Placement.
Qed.

Lemma packTrace_last mat usable sorted : forall pipes,
  last (packTrace mat usable pipes sorted) [] = fold_left (placePiece mat usable) sorted pipes.
Proof.
  induction sorted as [|piece sorted IH]; intros pipes; [reflexivity|].
  change (packTrace mat usable pipes (piece :: sorted))
    with (pipes :: packTrace mat usable (placePiece mat usable pipes piece) sorted).
  simpl fold_left. rewrite <- IH.
  destruct sorted; reflexivity.
Qed.

Lemma packTrace_prefix mat usable s1 s2 : forall pipes,
  In (fold_left (placePiece mat usable) s1 pipes) (packTrace mat usable pipes (s1 ++ s2)).
Proof.
  induction s1 as [|piece s1 IH]; intros pipes; simpl.
  - destruct s2; simpl; auto.
  - right. apply IH.
Qed.

Lemma refundKerf_Packed mat usable q :
  Packed mat usable q ->
  refundKerf q = Pipe.mk (Pipe.cuts q) (Pipe.remainingMm q + KERF)
                         (Pipe.stockLengthMm q) (Pipe.usableMm q).
Proof.
  intros [Hc _ _ _ _]. unfold refundKerf.
  destruct (Pipe.cuts q); [congruence|reflexivity].
Qed.

Lemma packMaterial_in mat pieces p :
  In p (packMaterial mat pieces) ->
  exists q, In q (packLoop mat (Material.stockLengthMm mat - FIXED_WASTE) (sortPieces pieces)) /\
            Packed mat (Material.stockLengthMm mat - FIXED_WASTE) q /\
            p = Pipe.mk (Pipe.cuts q) (Pipe.remainingMm q + KERF)
                        (Pipe.stockLengthMm q) (Pipe.usableMm q).
Proof.
  unfold packMaterial. intros H. apply in_map_iff in H as (q & <- & Hq).
  pose proof (packLoop_Packed mat (Material.stockLengthMm mat - FIXED_WASTE)
                (sortPieces pieces)) as Hall.
  rewrite Forall_forall in Hall. exists q.
  split; [exact Hq|]. split; [now apply Hall|].
  eapply refundKerf_Packed; eauto.
Qed.

(** ** The sort *)

Lemma insertSorted_perm x l : Permutation (insertSorted x l) (x :: l).
Proof.
  induction l as [|y l IH]; simpl; auto.
  destruct (0 <? compareFn x y); auto.
  rewrite IH. apply perm_swap.
Qed.

Lemma sortPieces_perm l : Permutation (sortPieces l) l.
Proof.
  induction l as [|x l IH]; simpl; auto.
  rewrite insertSorted_perm. now constructor.
Qed.

Lemma insertSorted_Descending x l : Descending l -> Descending (insertSorted x l).
Proof.
  unfold Descending. induction l as [|y l IH]; intros Hs; simpl.
  - repeat constructor.
  - inversion Hs as [|? ? Hl Hy]; subst. unfold compareFn.
    destruct (Z.ltb_spec 0 (Demand.lengthMm y - Demand.lengthMm x)) as [Hlt|Hge].
    + constructor; auto.
      rewrite (Forall_forall _ (insertSorted x l)). intros z Hz.
      apply (Permutation_in _ (insertSorted_perm x l)) in Hz as [<-|Hz]; [lia|].
      rewrite Forall_forall in Hy. auto.
    + constructor; auto. constructor; [lia|].
      rewrite Forall_forall in *. intros z Hz. specialize (Hy z Hz). lia.
Qed.

Lemma sortPieces_Descending l : Descending (sortPieces l).
Proof.
  induction l as [|x l IH]; simpl; [constructor|]. now apply insertSorted_Descending.
Qed.

Lemma insertSorted_stable n x l :
  filter (ofLength n) (insertSorted x l) = filter (ofLength n) (x :: l).
Proof.
  induction l as [|y l IH]; [reflexivity|].
  cbn [insertSorted]. unfold compareFn.
  destruct (Z.ltb_spec 0 (Demand.lengthMm y - Demand.lengthMm x)) as [Hlt|Hge]; auto.
  cbn [filter] in *. rewrite IH. unfold ofLength.
  destruct (Z.eqb_spec (Demand.lengthMm x) n), (Z.eqb_spec (Demand.lengthMm y) n);
    auto; lia.
Qed.

Lemma sortPieces_stable n l : filter (ofLength n) (sortPieces l) = filter (ofLength n) l.
Proof.
  induction l as [|x l IH]; [reflexivity|].
  cbn [sortPieces fold_right]. rewrite insertSorted_stable.
  cbn [filter]. fold (sortPieces l). now rewrite IH.
Qed.

(** ** The material map *)

Lemma materialMapOf_snoc ms m :
  materialMapOf (ms ++ [m]) = Map_set (Material.id m) m (materialMapOf ms).
Proof. unfold materialMapOf. now rewrite fold_left_app. Qed.

Lemma materialMapOf_get k ms :
  Map_get k (materialMapOf ms)
  = find (fun m => String.eqb (Material.id m) k) (List.rev ms).
Proof.
  induction ms as [|m ms IH] using rev_ind; [reflexivity|].
  rewrite materialMapOf_snoc, rev_app_distr. simpl.
  destruct (String.eqb_spec (Material.id m) k) as [->|Hk].
  - apply Map_get_set_same.
  - now rewrite Map_get_set_other.
Qed.

Lemma materialMapOf_known k ms :
  (exists mat, Map_get k (materialMapOf ms) = Some mat) <->
  (exists m, In m ms /\ Material.id m = k).
Proof.
  rewrite materialMapOf_get. split.
  - intros [mat H]. apply find_some in H as [Hin He].
    exists mat. split; [now apply in_rev|]. now apply String.eqb_eq.
  - intros (m & Hin & He).
    destruct (find _ (List.rev ms)) as [mat|] eqn:E; eauto.
    apply in_rev in Hin. pose proof (find_none _ _ E m Hin) as Hf.
    simpl in Hf. subst k. now rewrite String.eqb_refl in Hf.
Qed.

Lemma materialMapOf_id k ms mat :
  Map_get k (materialMapOf ms) = Some mat -> In mat ms /\ Material.id mat = k.
Proof.
  rewrite materialMapOf_get. intros H. apply find_some in H as [Hin He].
  split; [now apply in_rev|]. now apply String.eqb_eq.
Qed.

(** ** The allocator *)

(** C1, as the code has it: while a material is packed no pipe's
    [remainingMm] drops below [-KERF], and in the returned plan none is
    negative; every turn of the loop is one of the three [Placement]s, so a
    piece joins an open pipe only if that pipe's [remainingMm] is at least
    [lengthMm + KERF], and opens a new pipe only if [lengthMm <= usable].
    The pipes of [packMaterial] are the entry of the material in the plan,
    unless the material is called [__proto__], which gets no entry. *)
Theorem packing_remaining_bounds materials demands materialId mat pieces :
  Map_get materialId (groupDemands demands) = Some pieces ->
  Map_get materialId (materialMapOf materials) = Some mat ->
  let usable := Material.stockLengthMm mat - FIXED_WASTE in
  (forall pipes p,
      In pipes (packTrace mat usable [] (sortPieces pieces)) -> In p pipes ->
      - KERF <= Pipe.remainingMm p) /\
  (forall before piece after,
      sortPieces pieces = before ++ piece :: after ->
      In (packLoop mat usable before) (packTrace mat usable [] (sortPieces pieces)) /\
      Placement mat usable (packLoop mat usable before) piece
                (packLoop mat usable (before ++ [piece]))) /\
  Map_get materialId (optimize materials demands)
  = (if String.eqb materialId "__proto__" then None else Some (packMaterial mat pieces)) /\
  (forall p, In p (packMaterial mat pieces) -> 0 <= Pipe.remainingMm p).
Proof.
  intros Hg Hm usable. repeat split.
  - intros pipes p Hpipes Hp.
    pose proof (packTrace_Packed mat usable (sortPieces pieces) [] (Forall_nil _)) as Hall.
    rewrite Forall_forall in Hall. specialize (Hall pipes Hpipes).
    rewrite Forall_forall in Hall. apply (packed_low _ _ _ (Hall p Hp)).
  - rewrite H. apply packTrace_prefix.
  - unfold packLoop. rewrite fold_left_app. apply placePiece_Placement.
  - now rewrite optimize_get, Hg, Hm.
  - intros p Hp. apply packMaterial_in in Hp as (q & _ & Hq & ->). simpl.
    pose proof (packed_low _ _ _ Hq). lia.
Qed.

Lemma packing_remaining_bounds_witness :
  0 <= Pipe.remainingMm (Pipe.mk [Demand.mk "2" "P" "1" 5890] 0 6000 5890).
Proof.
  apply (packing_remaining_bounds [Material.mk "1" "M" 6000] [Demand.mk "2" "P" "1" 5890]
           "1" (Material.mk "1" "M" 6000) [Demand.mk "2" "P" "1" 5890]).
  - reflexivity.
  - reflexivity.
  - left. reflexivity.
Defined.

(** C1 as worded fails: a piece as long as the usable length opens a pipe
    although [lengthMm + KERF > usableMm], and that pipe's [remainingMm] is
    [-2] until the refund. *)
Lemma first_piece_overdraws_until_refund :
  0 < Material.stockLengthMm (Material.mk "1" "M" 6000) /\
  0 < Demand.lengthMm (Demand.mk "2" "P" "1" 5890) /\
  placePiece (Material.mk "1" "M" 6000) (6000 - FIXED_WASTE) [] (Demand.mk "2" "P" "1" 5890)
  = [Pipe.mk [Demand.mk "2" "P" "1" 5890] (-2) 6000 5890] /\
  In [Pipe.mk [Demand.mk "2" "P" "1" 5890] (-2) 6000 5890]
     (packTrace (Material.mk "1" "M" 6000) (6000 - FIXED_WASTE) []
                (sortPieces [Demand.mk "2" "P" "1" 5890])) /\
  ~ (0 <= Pipe.remainingMm (Pipe.mk [Demand.mk "2" "P" "1" 5890] (-2) 6000 5890)) /\
  ~ (Demand.lengthMm (Demand.mk "2" "P" "1" 5890) + KERF <= 6000 - FIXED_WASTE) /\
  optimize [Material.mk "1" "M" 6000] [Demand.mk "2" "P" "1" 5890]
  = [("1", [Pipe.mk [Demand.mk "2" "P" "1" 5890] 0 6000 5890])].
Proof.
  repeat split; try (vm_compute; congruence); try reflexivity.
  simpl. right. left. reflexivity.
Qed.

(** C2: in the returned plan every pipe has at least one cut and
    [stockLengthMm = FIXED_WASTE + sum of cuts + KERF * (cuts - 1) + remainingMm];
    each pipe is a pipe of the loop with [KERF] added once to its [remainingMm]. *)
Theorem plan_pipes_conserve_length materials demands materialId pipes p :
  In (materialId, pipes) (optimize materials demands) ->
  In p pipes ->
  Pipe.cuts p <> [] /\
  Pipe.stockLengthMm p
  = FIXED_WASTE + cutSum p + KERF * (Z.of_nat (List.length (Pipe.cuts p)) - 1)
    + Pipe.remainingMm p /\
  exists mat pieces q,
    Map_get materialId (materialMapOf materials) = Some mat /\
    Map_get materialId (groupDemands demands) = Some pieces /\
    In q (packLoop mat (Material.stockLengthMm mat - FIXED_WASTE) (sortPieces pieces)) /\
    Pipe.cuts p = Pipe.cuts q /\
    Pipe.remainingMm p = Pipe.remainingMm q + KERF /\
    Pipe.remainingMm q
    = Pipe.usableMm q - cutSum q - KERF * Z.of_nat (List.length (Pipe.cuts q)).
Proof.
  intros Hin Hp. apply optimize_in in Hin as (mat & pieces & Hg & Hm & -> & Hproto).
  apply packMaterial_in in Hp as (q & Hq & [Hc Hs Hu Hr Hl] & ->).
  cbn [Pipe.cuts Pipe.remainingMm Pipe.stockLengthMm]. unfold cutSum at 1.
  cbn [Pipe.cuts]. fold (cutSum q). split; [exact Hc|]. split.
  - rewrite Hs, Hr. lia.
  - exists mat, pieces, q. rewrite Hu. auto 10.
Qed.

Lemma plan_pipes_conserve_length_witness :
  let d := Demand.mk "2" "P" "1" 2500 in
  let p := Pipe.mk [d; d] 888 6000 5890 in
  Pipe.stockLengthMm p
  = FIXED_WASTE + cutSum p + KERF * (Z.of_nat (List.length (Pipe.cuts p)) - 1)
    + Pipe.remainingMm p.
Proof.
  intros d p.
  apply (plan_pipes_conserve_length [Material.mk "1" "M" 6000] [d; d] "1" [p] p).
  - left. reflexivity.
  - left. reflexivity.
Defined.

(** C3: one material of 6000 mm and three demands of 2500 mm give two pipes,
    the first with two cuts and 888 mm left, the second with one cut and
    3390 mm left.  This holds whatever the ids, labels and names are, except
    that a material called [__proto__] leaves the plan without an entry. *)
Theorem scenario_three_pieces_of_2500 mid name i1 p1 i2 p2 i3 p3 :
  FIXED_WASTE = 110 /\ KERF = 2 /\
  optimize [Material.mk mid name 6000]
           [Demand.mk i1 p1 mid 2500; Demand.mk i2 p2 mid 2500; Demand.mk i3 p3 mid 2500]
  = (if String.eqb mid "__proto__" then []
     else [(mid, [Pipe.mk [Demand.mk i1 p1 mid 2500; Demand.mk i2 p2 mid 2500] 888 6000 5890;
                  Pipe.mk [Demand.mk i3 p3 mid 2500] 3390 6000 5890])]) /\
  optimize [Material.mk "1" name 6000]
           [Demand.mk i1 p1 "1" 2500; Demand.mk i2 p2 "1" 2500; Demand.mk i3 p3 "1" 2500]
  = [("1", [Pipe.mk [Demand.mk i1 p1 "1" 2500; Demand.mk i2 p2 "1" 2500] 888 6000 5890;
            Pipe.mk [Demand.mk i3 p3 "1" 2500] 3390 6000 5890])].
Proof.
  split; [reflexivity|]. split; [reflexivity|]. split; [|reflexivity].
  unfold optimize, groupDemands, materialMapOf, groupStep. cbn.
  repeat (rewrite !String.eqb_refl; cbn). unfold Object_set.
  destruct (String.eqb mid "__proto__"); reflexivity.
Qed.

Lemma Descending_compare l :
  StronglySorted (fun a b => compareFn a b <= 0) l <-> Descending l.
Proof.
  unfold Descending, compareFn.
  split; intros H; induction H; constructor; auto;
    rewrite Forall_forall in *; intros y Hy; specialize (H0 y Hy); lia.
Qed.

Lemma filter_ofLength_in n l d : In d l -> Demand.lengthMm d = n -> filter (ofLength n) l <> [].
Proof.
  intros Hin Hn E.
  assert (H : In d (filter (ofLength n) l)).
  { apply filter_In. split; auto. unfold ofLength. now apply Z.eqb_eq. }
  rewrite E in H. destruct H.
Qed.

Lemma filter_ofLength_from n l :
  filter (ofLength n) l <> [] -> exists d, In d l /\ Demand.lengthMm d = n.
Proof.
  destruct (filter (ofLength n) l) as [|d r] eqn:E; [congruence|]. intros _.
  assert (H : In d (filter (ofLength n) l)) by (rewrite E; now left).
  apply filter_In in H as [Hin Hn]. exists d. split; auto. now apply Z.eqb_eq.
Qed.

(** A list in descending order is fixed by its elements of each length *)
Lemma Descending_unique l1 : forall l2,
  Descending l1 -> Descending l2 ->
  (forall n, filter (ofLength n) l1 = filter (ofLength n) l2) ->
  l1 = l2.
Proof.
  induction l1 as [|a l1 IH]; intros [|b l2] H1 H2 Hf; auto.
  - exfalso. apply (filter_ofLength_in _ (b :: l2) b (or_introl eq_refl) eq_refl).
    now rewrite <- Hf.
  - exfalso. apply (filter_ofLength_in _ (a :: l1) a (or_introl eq_refl) eq_refl).
    now rewrite Hf.
  - inversion H1 as [|? ? S1 F1]; inversion H2 as [|? ? S2 F2]; subst.
    rewrite Forall_forall in F1, F2.
    assert (Hba : Demand.lengthMm b <= Demand.lengthMm a).
    { destruct (filter_ofLength_from (Demand.lengthMm b) (a :: l1)) as (d & [<-|Hd] & E).
      - rewrite Hf. apply (filter_ofLength_in _ _ b); [now left|reflexivity].
      - lia.
      - specialize (F1 d Hd). lia. }
    assert (Hab : Demand.lengthMm a <= Demand.lengthMm b).
    { destruct (filter_ofLength_from (Demand.lengthMm a) (b :: l2)) as (d & [<-|Hd] & E).
      - rewrite <- Hf. apply (filter_ofLength_in _ _ a); [now left|reflexivity].
      - lia.
      - specialize (F2 d Hd). lia. }
    assert (Hhead : a = b /\ forall n, filter (ofLength n) l1 = filter (ofLength n) l2).
    { assert (Eab : forall n, ofLength n b = ofLength n a).
      { intros n. unfold ofLength.
        destruct (Z.eqb_spec (Demand.lengthMm a) n), (Z.eqb_spec (Demand.lengthMm b) n);
          auto; lia. }
      split.
      - specialize (Hf (Demand.lengthMm a)). cbn [filter] in Hf. rewrite Eab in Hf.
        assert (Ea : ofLength (Demand.lengthMm a) a = true) by apply Z.eqb_refl.
        rewrite Ea in Hf. congruence.
      - intros n. specialize (Hf n). cbn [filter] in Hf. rewrite Eab in Hf.
        destruct (ofLength n a); congruence. }
    destruct Hhead as [-> Hrest]. f_equal. now apply IH.
Qed.

(** Every sort that keeps the promise of [Array.prototype.sort] returns what
    [sortPieces] returns *)
Lemma ArraySort_unique sort l : ArraySort sort -> sort l = sortPieces l.
Proof.
  intros [Hp Ho Hs]. apply Descending_unique.
  - apply Descending_compare, Ho.
  - apply sortPieces_Descending.
  - intros n. now rewrite Hs, sortPieces_stable.
Qed.

Lemma sortPieces_ArraySort : ArraySort sortPieces.
Proof.
  split.
  - apply sortPieces_perm.
  - intros l. apply Descending_compare, sortPieces_Descending.
  - intros l n. apply sortPieces_stable.
Qed.

Lemma insertBehind_perm x l : Permutation (insertBehind x l) (x :: l).
Proof.
  induction l as [|y l IH]; cbn [insertBehind]; auto.
  destruct (compareFn y x <=? 0); auto.
  rewrite IH. apply perm_swap.
Qed.

Lemma insertBehind_Descending x l : Descending l -> Descending (insertBehind x l).
Proof.
  unfold Descending. induction 1 as [|y l Hs IH Hf]; cbn [insertBehind].
  - repeat constructor.
  - unfold compareFn. destruct (Z.leb_spec (Demand.lengthMm x - Demand.lengthMm y) 0).
    + constructor; auto. rewrite Forall_forall in *. intros z Hz.
      apply (Permutation_in _ (insertBehind_perm x l)) in Hz. destruct Hz as [<-|Hz].
      * lia.
      * now apply Hf.
    + constructor; [constructor; auto|].
      constructor; [lia|]. rewrite Forall_forall in *. intros z Hz.
      specialize (Hf z Hz). lia.
Qed.

Lemma filter_none {A : Type} (f : A -> bool) l :
  (forall z, In z l -> f z = false) -> filter f l = [].
Proof.
  induction l as [|z r IH]; intros H; [reflexivity|].
  cbn [filter]. rewrite (H z (or_introl eq_refl)). apply IH.
  intros w Hw. apply H. now right.
Qed.

Lemma insertBehind_stable n x l :
  Descending l ->
  filter (ofLength n) (insertBehind x l) = filter (ofLength n) (l ++ [x]).
Proof.
  unfold Descending. induction 1 as [|y l Hs IH Hf]; cbn [insertBehind]; [reflexivity|].
  unfold compareFn. destruct (Z.leb_spec (Demand.lengthMm x - Demand.lengthMm y) 0).
  - cbn [filter List.app]. now rewrite IH.
  - set (r := y :: l). rewrite filter_app.
    change (filter (ofLength n) (x :: r))
      with (if ofLength n x then x :: filter (ofLength n) r else filter (ofLength n) r).
    change (filter (ofLength n) [x]) with (if ofLength n x then [x] else []).
    destruct (ofLength n x) eqn:E; [|now rewrite app_nil_r].
    apply Z.eqb_eq in E. rewrite filter_none; [reflexivity|].
    rewrite Forall_forall in Hf.
    intros z [<-|Hz]; unfold ofLength; apply Z.eqb_neq.
    + lia.
    + specialize (Hf z Hz). lia.
Qed.

Lemma sortFromLeft_snoc l x : sortFromLeft (l ++ [x]) = insertBehind x (sortFromLeft l).
Proof. unfold sortFromLeft. now rewrite fold_left_app. Qed.

Lemma sortFromLeft_ArraySort : ArraySort sortFromLeft.
Proof.
  assert (Hd : forall l, Descending (sortFromLeft l)).
  { induction l as [|x l IH] using rev_ind; [constructor|].
    rewrite sortFromLeft_snoc. now apply insertBehind_Descending. }
  split.
  - induction l as [|x l IH] using rev_ind; [reflexivity|].
    rewrite sortFromLeft_snoc, insertBehind_perm, IH. apply Permutation_cons_append.
  - intros l. apply Descending_compare, Hd.
  - intros l n. induction l as [|x l IH] using rev_ind; [reflexivity|].
    rewrite sortFromLeft_snoc, insertBehind_stable by apply Hd.
    now rewrite !filter_app, IH.
Qed.

Lemma optimizeWith_sortPieces sort materials demands :
  ArraySort sort -> optimizeWith sort materials demands = optimize materials demands.
Proof.
  intros Hs. unfold optimizeWith, optimize.
  generalize (@nil (string * list Pipe.t)).
  induction (groupDemands demands) as [|[k pieces] es IH]; intros plan; [reflexivity|].
  cbn [fold_left]. rewrite IH. f_equal.
  unfold planStepWith, planStep, packMaterialWith, packMaterial.
  now rewrite (ArraySort_unique sort pieces Hs).
Qed.

(** C4: the plan depends on nothing but the materials and the demands.  The
    one step of [optimize] that the language leaves to the engine is the
    [sort]; any two sorts that keep the promise of [Array.prototype.sort]
    lead to the same plan: the same keys in the same order, the same pipes
    per key in the same order, the same cuts per pipe in the same order, and
    equal [remainingMm], [stockLengthMm] and [usableMm]; the enumeration by
    [Object.entries] agrees as well.  (The counter of [nextId] is no input of
    [optimize], which calls nothing but [Map], array and arithmetic
    operations.) *)
Theorem optimize_deterministic sort1 sort2 materials demands :
  ArraySort sort1 -> ArraySort sort2 ->
  optimizeWith sort1 materials demands = optimizeWith sort2 materials demands /\
  samePlan (optimizeWith sort1 materials demands) (optimizeWith sort2 materials demands) /\
  Object_entries (optimizeWith sort1 materials demands)
  = Object_entries (optimizeWith sort2 materials demands) /\
  optimizeWith sort1 materials demands = optimize materials demands.
Proof.
  intros H1 H2.
  rewrite (optimizeWith_sortPieces sort1), (optimizeWith_sortPieces sort2) by assumption.
  split; [reflexivity|]. split; [|split; reflexivity].
  unfold samePlan. induction (optimize materials demands) as [|[k pipes] plan IH];
    constructor; auto.
  split; [reflexivity|]. clear. simpl.
  induction pipes; constructor; auto. repeat split.
Qed.

Lemma optimize_deterministic_witness :
  let ms := [Material.mk "1" "M" 6000] in
  let ds := [Demand.mk "2" "P" "1" 2500; Demand.mk "3" "Q" "1" 3000;
             Demand.mk "4" "R" "1" 2500; Demand.mk "5" "S" "1" 3000] in
  optimizeWith sortPieces ms ds = optimizeWith sortFromLeft ms ds /\
  samePlan (optimizeWith sortPieces ms ds) (optimizeWith sortFromLeft ms ds) /\
  Object_entries (optimizeWith sortPieces ms ds)
  = Object_entries (optimizeWith sortFromLeft ms ds) /\
  optimizeWith sortPieces ms ds = optimize ms ds.
Proof.
  intros ms ds.
  apply (optimize_deterministic sortPieces sortFromLeft ms ds).
  - apply sortPieces_ArraySort.
  - apply sortFromLeft_ArraySort.
Defined.

(** C5: the pieces are taken longest first, equal lengths in their input
    order; a piece that fits the material goes into the open pipe with the
    smallest sufficient [remainingMm], the earliest of them on a tie: it is
    appended to the cuts of that pipe, whose [remainingMm] drops by
    [lengthMm + KERF], and the other pipes stay as they are; a new pipe is
    opened exactly when no open pipe has [lengthMm + KERF] left. *)
Theorem best_fit_decreasing mat pieces pipes piece :
  let usable := Material.stockLengthMm mat - FIXED_WASTE in
  let needed := Demand.lengthMm piece + KERF in
  Demand.lengthMm piece <= usable ->
  (Permutation (sortPieces pieces) pieces /\ Descending (sortPieces pieces) /\
   (forall n, filter (ofLength n) (sortPieces pieces) = filter (ofLength n) pieces) /\
   packMaterial mat pieces
   = map refundKerf (fold_left (placePiece mat usable) (sortPieces pieces) [])) /\
  ((exists p, In p pipes /\ needed <= Pipe.remainingMm p) ->
   exists i p,
     nth_error pipes i = Some p /\ needed <= Pipe.remainingMm p /\
     (forall j q, nth_error pipes j = Some q -> needed <= Pipe.remainingMm q ->
                  Pipe.remainingMm p <= Pipe.remainingMm q /\
                  (Pipe.remainingMm q = Pipe.remainingMm p -> (i <= j)%nat))) /\
  (forall i p,
      nth_error pipes i = Some p -> needed <= Pipe.remainingMm p ->
      (forall j q, nth_error pipes j = Some q -> needed <= Pipe.remainingMm q ->
                   Pipe.remainingMm p <= Pipe.remainingMm q /\
                   (Pipe.remainingMm q = Pipe.remainingMm p -> (i <= j)%nat)) ->
      placePiece mat usable pipes piece
      = firstn i pipes
        ++ Pipe.mk (Pipe.cuts p ++ [piece]) (Pipe.remainingMm p - needed)
                   (Pipe.stockLengthMm p) (Pipe.usableMm p)
           :: skipn (S i) pipes) /\
  (List.length (placePiece mat usable pipes piece) = S (List.length pipes) <->
   forall p, In p pipes -> Pipe.remainingMm p < needed) /\
  ((forall p, In p pipes -> Pipe.remainingMm p < needed) ->
   placePiece mat usable pipes piece
   = pipes ++ [Pipe.mk [piece] (usable - needed) (Material.stockLengthMm mat) usable]).
Proof.
  intros usable needed Hfits. split.
  { split; [apply sortPieces_perm|]. split; [apply sortPieces_Descending|].
    split; [intros n; apply sortPieces_stable|reflexivity]. }
  subst needed.
  pose proof (placePiece_Placement mat usable pipes piece) as Hpl.
  destruct Hpl as [Hlong|i p _ Hn Hle Hmin|_ Hnone]; [lia| |].
  - assert (Hp : In p pipes) by (eapply nth_error_In; eauto).
    split; [|split; [|split]].
    + intros _. exists i, p. repeat split; auto.
      * destruct (Hmin j q H H0) as [Hlt|[He _]]; lia.
      * intros He. destruct (Hmin j q H H0) as [Hlt|[_ Hij]]; auto. lia.
    + intros i' p' Hn' Hle' Hmin'.
      destruct (Hmin i' p' Hn' Hle') as [Hlt|[He Hii]];
        destruct (Hmin' i p Hn Hle) as [Hle2 Hii'].
      * lia.
      * assert (i' = i) by (specialize (Hii' He); lia). subst i'.
        assert (p' = p) by congruence. subst p'.
        now rewrite (updateAt_nth i _ pipes p Hn).
    + rewrite updateAt_length. split; [lia|].
      intros Hnone. specialize (Hnone p Hp). lia.
    + intros Hnone. specialize (Hnone p Hp). lia.
  - split; [|split; [|split]].
    + intros (p & Hp & Hle). specialize (Hnone p Hp). lia.
    + intros i p Hn Hle _. apply nth_error_In in Hn. specialize (Hnone p Hn). lia.
    + rewrite length_app, Nat.add_1_r. split; auto.
    + reflexivity.
Qed.

Lemma best_fit_decreasing_witness :
  let a := Demand.mk "2" "P" "1" 2500 in
  let b := Demand.mk "3" "Q" "1" 3000 in
  let c := Demand.mk "4" "R" "1" 2500 in
  let p0 := Pipe.mk [Demand.mk "5" "P" "1" 3000] 2888 6000 5890 in
  let p1 := Pipe.mk [Demand.mk "6" "P" "1" 4000] 1888 6000 5890 in
  let p2 := Pipe.mk [Demand.mk "7" "P" "1" 4000] 1888 6000 5890 in
  let piece := Demand.mk "8" "P" "1" 1000 in
  (filter (ofLength 2500) (sortPieces [a; b; c]) = [a; c] /\
   Descending (sortPieces [a; b; c])) /\
  placePiece (Material.mk "1" "M" 6000) 5890 [p0; p1; p2] piece
  = [p0; Pipe.mk [Demand.mk "6" "P" "1" 4000; piece] 886 6000 5890; p2].
Proof.
  intros a b c p0 p1 p2 piece.
  destruct (best_fit_decreasing (Material.mk "1" "M" 6000) [a; b; c] [p0; p1; p2] piece)
    as ((_ & Hdesc & Hstable & _) & _ & Hbest & _).
  - vm_compute. congruence.
  - split; [split; [apply (Hstable 2500)|exact Hdesc]|].
    apply (Hbest 1%nat p1).
    + reflexivity.
    + vm_compute. congruence.
    + intros [|[|[|j]]] q Hq Hle; cbn in Hq.
      * inversion Hq; subst q. cbn. split; [lia|intros; lia].
      * inversion Hq; subst q. cbn. split; [lia|intros; lia].
      * inversion Hq; subst q. cbn. split; [lia|intros; lia].
      * destruct j; discriminate.
Defined.

(** ** The keys of the plan *)

Lemma Map_key_get {V : Type} k (m : list (string * V)) :
  In k (Map_keys m) <-> exists v, Map_get k m = Some v.
Proof.
  pose proof (Map_get_None_notin k m) as H.
  destruct (Map_get k m) as [v|]; split.
  - eauto.
  - intros _. destruct (in_dec string_dec k (Map_keys m)) as [Hin|Hn]; auto.
    apply H in Hn. discriminate.
  - intros Hin. exfalso. now apply H.
  - intros [v Hv]. discriminate.
Qed.

Lemma groupDemands_known k demands :
  (exists pieces, Map_get k (groupDemands demands) = Some pieces) <->
  (exists d, In d demands /\ Demand.materialId d = k).
Proof.
  rewrite groupDemands_get. split.
  - intros [pieces H]. destruct (filter _ demands) as [|d l] eqn:E; [discriminate|].
    assert (Hd : In d (filter (forMaterial k) demands)) by (rewrite E; now left).
    apply filter_In in Hd as [Hin Hk]. exists d. split; auto. now apply String.eqb_eq.
  - intros (d & Hin & Hk).
    assert (Hd : In d (filter (forMaterial k) demands)).
    { apply filter_In. split; auto. unfold forMaterial. subst. apply String.eqb_refl. }
    destruct (filter _ demands); [destruct Hd|]. simpl. eauto.
Qed.

Lemma fold_placePiece_too_long mat usable sorted : forall pipes,
  (forall d, In d sorted -> usable < Demand.lengthMm d) ->
  fold_left (placePiece mat usable) sorted pipes = pipes.
Proof.
  induction sorted as [|d sorted IH]; intros pipes Hall; simpl; auto.
  unfold placePiece at 2.
  destruct (Z.ltb_spec usable (Demand.lengthMm d)) as [_|Hle].
  - apply IH. intros d' Hd'. apply Hall. now right.
  - specialize (Hall d (or_introl eq_refl)). lia.
Qed.

(** C10, as the code has it: the keys of the plan are the material ids,
    other than [__proto__], that some demand names and that the materials
    contain, each once; such a material whose demands are all too long is
    mapped to the empty list; no pipe of the plan is without a cut. *)
Theorem plan_keys materials demands :
  NoDup (Map_keys (optimize materials demands)) /\
  (forall k, In k (Map_keys (optimize materials demands)) <->
             k <> "__proto__" /\
             (exists d, In d demands /\ Demand.materialId d = k) /\
             (exists m, In m materials /\ Material.id m = k)) /\
  (forall k mat,
      k <> "__proto__" ->
      Map_get k (materialMapOf materials) = Some mat ->
      (exists d, In d demands /\ Demand.materialId d = k) ->
      (forall d, In d demands -> Demand.materialId d = k ->
                 Material.stockLengthMm mat - FIXED_WASTE < Demand.lengthMm d) ->
      In (k, []) (optimize materials demands)) /\
  (forall k pipes p,
      In (k, pipes) (optimize materials demands) -> In p pipes -> Pipe.cuts p <> []).
Proof.
  split; [apply optimize_NoDup|]. split; [|split].
  - intros k. rewrite Map_key_get, <- groupDemands_known, <- materialMapOf_known.
    rewrite optimize_get. destruct (String.eqb_spec k "__proto__") as [Hk|Hk]; split.
    + intros [v H]. discriminate.
    + intros [Hn _]. contradiction.
    + intros [v H]. split; [exact Hk|].
      destruct (Map_get k (groupDemands demands)) as [pieces|]; [|discriminate].
      destruct (Map_get k (materialMapOf materials)) as [mat|]; [|discriminate]. eauto.
    + intros [_ [[pieces ->] [mat ->]]]. eauto.
  - intros k mat Hk Hm Hd Hlong. apply groupDemands_known in Hd as [pieces Hg].
    apply optimize_in. exists mat, pieces. split; [exact Hg|]. split; [exact Hm|].
    split; [|exact Hk].
    unfold packMaterial, packLoop. rewrite fold_placePiece_too_long; [reflexivity|].
    intros d Hd. apply (Permutation_in _ (sortPieces_perm pieces)) in Hd.
    apply Map_get_Some_in, groupDemands_in in Hg as [_ ->].
    apply filter_In in Hd as [Hin Hk']. apply Hlong; auto. now apply String.eqb_eq.
  - intros k pipes p Hin Hp. apply optimize_in in Hin as (mat & pieces & _ & _ & -> & _).
    apply packMaterial_in in Hp as (q & _ & Hq & ->). simpl. apply (packed_cuts _ _ _ Hq).
Qed.

Lemma plan_keys_witness :
  In ("1", []) (optimize [Material.mk "1" "M" 6000; Material.mk "5" "N" 3000]
                         [Demand.mk "2" "P" "1" 5950; Demand.mk "3" "P" "9" 100]).
Proof.
  apply (plan_keys [Material.mk "1" "M" 6000; Material.mk "5" "N" 3000]
           [Demand.mk "2" "P" "1" 5950; Demand.mk "3" "P" "9" 100]
         ) with (mat := Material.mk "1" "M" 6000).
  - discriminate.
  - reflexivity.
  - exists (Demand.mk "2" "P" "1" 5950). split; [now left|reflexivity].
  - intros d [<-|[<-|[]]]; simpl; [intros _; vm_compute; reflexivity|discriminate].
Defined.

(** C10 as worded fails: the material [__proto__] exists and has a demand, yet
    it is no key of the plan, because [plan[materialId] = pipes] creates no
    property of that name. *)
Lemma proto_material_is_no_key :
  In (Material.mk "__proto__" "M" 6000) [Material.mk "__proto__" "M" 6000] /\
  In (Demand.mk "1" "P" "__proto__" 2500) [Demand.mk "1" "P" "__proto__" 2500] /\
  Demand.materialId (Demand.mk "1" "P" "__proto__" 2500)
  = Material.id (Material.mk "__proto__" "M" 6000) /\
  Map_keys (optimize [Material.mk "__proto__" "M" 6000]
                     [Demand.mk "1" "P" "__proto__" 2500]) = [] /\
  ~ In "__proto__" (Map_keys (optimize [Material.mk "__proto__" "M" 6000]
                                       [Demand.mk "1" "P" "__proto__" 2500])).
Proof.
  split; [now left|]. split; [now left|]. split; [reflexivity|].
  split; [reflexivity|]. intros [].
Qed.

(** ** Demand aggregation, key by key *)

Lemma firstSeen_snoc l x :
  firstSeen (l ++ [x])
  = if existsb (String.eqb x) l then firstSeen l else firstSeen l ++ [x].
Proof.
  induction l as [|y l IH]; [reflexivity|].
  cbn [List.app firstSeen existsb]. rewrite IH.
  destruct (String.eqb_spec x y) as [->|Hxy]; cbn [orb].
  - destruct (existsb (String.eqb y) l); [reflexivity|].
    rewrite filter_app. cbn [filter]. rewrite String.eqb_refl. cbn [negb].
    now rewrite app_nil_r.
  - destruct (existsb (String.eqb x) l); [reflexivity|].
    rewrite filter_app. cbn [filter].
    destruct (String.eqb_spec x y); [contradiction|]. reflexivity.
Qed.

Lemma existsb_eqb_in x l : existsb (String.eqb x) l = true <-> In x l.
Proof.
  rewrite existsb_exists. split.
  - intros (y & Hy & E). apply String.eqb_eq in E. now subst.
  - intros H. exists x. split; auto. apply String.eqb_refl.
Qed.

Lemma aggregate_snoc ds d :
  fold_left aggregateStep (ds ++ [d]) []
  = aggregateStep (fold_left aggregateStep ds []) d.
Proof. now rewrite fold_left_app. Qed.

Lemma aggregate_get k ds :
  Map_get k (fold_left aggregateStep ds []) = groupOf k (filter (withKey k) ds).
Proof.
  induction ds as [|d ds IH] using rev_ind; [reflexivity|].
  rewrite aggregate_snoc, filter_app. cbn [filter].
  set (m := fold_left aggregateStep ds []) in *. unfold aggregateStep.
  unfold withKey at 2.
  destruct (String.eqb_spec (keyOf d) k) as [->|Hk].
  - rewrite IH. destruct (filter _ ds) as [|d0 l] eqn:E; cbn [groupOf].
    + rewrite Map_get_set_same. reflexivity.
    + rewrite Map_get_set_same. cbn [List.app AggregatedDemand.key AggregatedDemand.project
        AggregatedDemand.materialId AggregatedDemand.lengthMm AggregatedDemand.count
        AggregatedDemand.ids groupOf].
      change (d0 :: l ++ [d]) with ((d0 :: l) ++ [d]).
      rewrite map_app, length_app, Nat2Z.inj_add. reflexivity.
  - rewrite app_nil_r, <- IH.
    destruct (Map_get (keyOf d) _); now apply Map_get_set_other.
Qed.

Lemma aggregate_keys ds :
  Map_keys (fold_left aggregateStep ds []) = firstSeen (map keyOf ds).
Proof.
  induction ds as [|d ds IH] using rev_ind; [reflexivity|].
  rewrite aggregate_snoc, map_app. cbn [map]. rewrite firstSeen_snoc.
  assert (Hk : forall v, Map_keys (Map_set (keyOf d) v (fold_left aggregateStep ds []))
                         = if existsb (String.eqb (keyOf d)) (map keyOf ds)
                           then firstSeen (map keyOf ds)
                           else firstSeen (map keyOf ds) ++ [keyOf d]).
  { intros v. rewrite Map_keys_set, IH.
    destruct (Map_get (keyOf d) _) as [g|] eqn:E.
    - assert (Hin : In (keyOf d) (Map_keys (fold_left aggregateStep ds []))).
      { apply Map_key_get. eauto. }
      rewrite aggregate_get in E.
      destruct (filter (withKey (keyOf d)) ds) as [|d0 l] eqn:F; [discriminate|].
      assert (H0 : In d0 (filter (withKey (keyOf d)) ds)) by (rewrite F; now left).
      apply filter_In in H0 as [H0 H1]. apply String.eqb_eq in H1.
      assert (H2 : existsb (String.eqb (keyOf d)) (map keyOf ds) = true).
      { apply existsb_eqb_in. rewrite <- H1. now apply in_map. }
      now rewrite H2.
    - rewrite aggregate_get in E.
      destruct (existsb (String.eqb (keyOf d)) (map keyOf ds)) eqn:H2; [|reflexivity].
      apply existsb_eqb_in, in_map_iff in H2 as (d0 & H1 & H0).
      assert (H3 : In d0 (filter (withKey (keyOf d)) ds)).
      { apply filter_In. split; auto. unfold withKey. now apply String.eqb_eq. }
      destruct (filter (withKey (keyOf d)) ds); [destruct H3|discriminate]. }
  set (m := fold_left aggregateStep ds []) in *. unfold aggregateStep.
  destruct (Map_get (keyOf d) m); apply Hk.
Qed.

Lemma aggregate_NoDup ds : NoDup (Map_keys (fold_left aggregateStep ds [])).
Proof.
  apply fold_Map_set_NoDup; [|constructor].
  intros m a H. unfold aggregateStep. destruct (Map_get (keyOf a) m); now apply Map_set_NoDup.
Qed.

Lemma Map_values_by_key {V : Type} (m : list (string * V)) (f : string -> option V) :
  (forall k, Map_get k m = f k) -> NoDup (Map_keys m) ->
  map Some (Map_values m) = map f (Map_keys m).
Proof.
  intros Hf Hnd. unfold Map_values, Map_keys. rewrite !map_map.
  apply map_ext_in. intros [k v] Hin. simpl. rewrite <- Hf. symmetry.
  now apply Map_in_get.
Qed.

(** What [aggregateDemands] returns, in terms of the key strings *)
Lemma aggregateDemands_by_key ds :
  map Some (aggregateDemands ds)
  = map (fun k => groupOf k (filter (withKey k) ds)) (firstSeen (map keyOf ds)).
Proof.
  unfold aggregateDemands. rewrite <- aggregate_keys.
  apply Map_values_by_key; [intros k; apply aggregate_get | apply aggregate_NoDup].
Qed.

Lemma aggregateDemands_in g ds :
  In g (aggregateDemands ds) <->
  exists k, groupOf k (filter (withKey k) ds) = Some g.
Proof.
  unfold aggregateDemands, Map_values. split.
  - intros H. apply in_map_iff in H as ([k g'] & <- & Hin). exists k.
    rewrite <- aggregate_get. apply Map_in_get; auto. apply aggregate_NoDup.
  - intros [k H]. rewrite <- aggregate_get in H. apply Map_get_Some_in in H.
    now apply (in_map snd _ (k, g)).
Qed.

(** ** Where the cuts come from *)

Lemma fold_placePiece_cuts mat usable sorted : forall pipes,
  Permutation (flat_map Pipe.cuts (fold_left (placePiece mat usable) sorted pipes))
              (flat_map Pipe.cuts pipes ++ filter (fits usable) sorted).
Proof.
  induction sorted as [|piece sorted IH]; intros pipes; cbn [fold_left filter].
  - now rewrite app_nil_r.
  - rewrite IH. unfold fits at 2.
    destruct (placePiece_Placement mat usable pipes piece) as [Hlong|i p Hfit Hn _ _|Hfit _].
    + apply Z.ltb_lt in Hlong. rewrite Hlong. reflexivity.
    + apply Z.ltb_ge in Hfit. rewrite Hfit. cbn [negb].
      rewrite (updateAt_cuts _ _ _ _ _ Hn). cbn [List.app].
      apply Permutation_middle.
    + apply Z.ltb_ge in Hfit. rewrite Hfit. cbn [negb].
      rewrite flat_map_app. cbn [flat_map newPipe Pipe.cuts List.app].
      rewrite <- app_assoc. reflexivity.
Qed.

Lemma refundKerf_cuts q : Pipe.cuts (refundKerf q) = Pipe.cuts q.
Proof. unfold refundKerf. now destruct (0 <? _). Qed.

Lemma packMaterial_cuts mat pieces :
  Permutation (flat_map Pipe.cuts (packMaterial mat pieces))
              (filter (fits (Material.stockLengthMm mat - FIXED_WASTE)) pieces).
Proof.
  unfold packMaterial. rewrite flat_map_concat_map, map_map.
  rewrite (map_ext _ Pipe.cuts refundKerf_cuts), <- flat_map_concat_map.
  unfold packLoop. rewrite fold_placePiece_cuts. cbn [flat_map List.app].
  pose proof (sortPieces_perm pieces) as Hp. revert Hp.
  generalize (sortPieces pieces). intros l Hp.
  induction Hp; cbn [filter]; auto.
  - destruct (fits _ x); auto.
  - destruct (fits _ x), (fits _ y); auto. apply perm_swap.
  - etransitivity; eauto.
Qed.

Lemma plan_cut_origin materials demands k pipes p c :
  In (k, pipes) (optimize materials demands) -> In p pipes -> In c (Pipe.cuts p) ->
  In c demands /\ Demand.materialId c = k /\
  exists mat, Map_get k (materialMapOf materials) = Some mat /\
              Demand.lengthMm c <= Material.stockLengthMm mat - FIXED_WASTE.
Proof.
  intros Hin Hp Hc. apply optimize_in in Hin as (mat & pieces & Hg & Hm & -> & Hproto).
  assert (H : In c (flat_map Pipe.cuts (packMaterial mat pieces))).
  { apply in_flat_map. eauto. }
  apply (Permutation_in _ (packMaterial_cuts mat pieces)) in H.
  apply filter_In in H as [H Hfit].
  apply Map_get_Some_in, groupDemands_in in Hg as [_ ->].
  apply filter_In in H as [H Hk]. apply String.eqb_eq in Hk.
  repeat split; auto. exists mat. split; auto.
  unfold fits in Hfit. apply negb_true_iff, Z.ltb_ge in Hfit. exact Hfit.
Qed.

(** ** Object.entries *)

Lemma insertIndexed_perm {V : Type} (e : N * (string * V)) l :
  Permutation (insertIndexed e l) (e :: l).
Proof.
  induction l as [|e' l IH]; simpl; auto.
  destruct (_ <? _)%N; auto. rewrite IH. apply perm_swap.
Qed.

Lemma Object_entries_perm {V : Type} (obj : list (string * V)) :
  Permutation (Object_entries obj) obj.
Proof.
  unfold Object_entries.
  assert (H : Permutation (fold_right insertIndexed [] (indexedEntries obj))
                          (indexedEntries obj)).
  { induction (indexedEntries obj) as [|e l IH]; simpl; auto.
    rewrite insertIndexed_perm. now constructor. }
  rewrite H. clear H. unfold indexedEntries, namedEntries.
  induction obj as [|e obj IH]; simpl; auto.
  destruct (arrayIndex (fst e)); simpl.
  - now constructor.
  - rewrite <- Permutation_middle. now constructor.
Qed.

(** ** The statistics *)














(** ** Every demand is placed once, reported as too long, or ignored *)

Lemma count_occ_filter (f : Demand.t -> bool) l d :
  count_occ Demand_eq_dec (filter f l) d
  = if f d then count_occ Demand_eq_dec l d else 0%nat.
Proof.
  induction l as [|x l IH]; cbn [filter]; [now destruct (f d)|].
  destruct (f x) eqn:Ex; cbn [count_occ]; destruct (Demand_eq_dec x d) as [->|Hne];
    rewrite ?IH; try rewrite Ex; auto.
Qed.

Lemma count_occ_plan (plan : CutPlan) k0 d :
  NoDup (Map_keys plan) ->
  (forall k pipes, In (k, pipes) plan -> k <> k0 -> ~ In d (flat_map Pipe.cuts pipes)) ->
  count_occ Demand_eq_dec (planCuts plan) d
  = match Map_get k0 plan with
    | Some pipes => count_occ Demand_eq_dec (flat_map Pipe.cuts pipes) d
    | None => 0%nat
    end.
Proof.
  unfold planCuts, planPipes.
  induction plan as [|[k pipes] plan IH]; intros Hnd Hother; [reflexivity|].
  inversion Hnd as [|? ? Hk Hnd']; subst.
  cbn [flat_map snd Map_get]. rewrite flat_map_app, count_occ_app.
  destruct (String.eqb_spec k0 k) as [->|Hne].
  - assert (E : Map_get k plan = None) by now apply Map_get_None_notin.
    rewrite IH, E; auto.
    intros k' pipes' Hin Hk'. apply (Hother k'); auto. now right.
  - rewrite IH; auto.
    + assert (E : count_occ Demand_eq_dec (flat_map Pipe.cuts pipes) d = 0%nat).
      { apply count_occ_not_In. apply (Hother k pipes); [now left|congruence]. }
      now rewrite E.
    + intros k' pipes' Hin Hk'. apply (Hother k'); auto. now right.
Qed.

Lemma holds_once d pipes :
  count_occ Demand_eq_dec (flat_map Pipe.cuts pipes) d = 1%nat ->
  List.length (filter (holds d) pipes) = 1%nat.
Proof.
  induction pipes as [|p pipes IH]; cbn [flat_map filter]; [discriminate|].
  rewrite count_occ_app. intros H. unfold holds at 1.
  destruct (in_dec Demand_eq_dec d (Pipe.cuts p)) as [Hin|Hn].
  - apply (count_occ_In Demand_eq_dec) in Hin.
    assert (H0 : count_occ Demand_eq_dec (flat_map Pipe.cuts pipes) d = 0%nat) by lia.
    cbn [List.length]. f_equal.
    assert (E : filter (holds d) pipes = []).
    { clear -H0. apply (count_occ_not_In Demand_eq_dec) in H0.
      induction pipes as [|q pipes IH]; [reflexivity|].
      cbn [filter flat_map] in *. unfold holds at 1.
      destruct (in_dec Demand_eq_dec d (Pipe.cuts q)) as [Hq|_].
      - exfalso. apply H0. apply in_or_app. now left.
      - apply IH. intros Hr. apply H0. apply in_or_app. now right. }
    now rewrite E.
  - apply (count_occ_not_In Demand_eq_dec) in Hn. apply IH. lia.
Qed.

Lemma NoDup_map_eq {A B : Type} (f : A -> B) l a b :
  NoDup (map f l) -> In a l -> In b l -> f a = f b -> a = b.
Proof.
  induction l as [|x l IH]; simpl; [tauto|].
  intros Hnd Ha Hb E. inversion Hnd as [|? ? Hx Hnd']; subst.
  destruct Ha as [<-|Ha], Hb as [<-|Hb]; auto.
  - exfalso. apply Hx. rewrite E. now apply in_map.
  - exfalso. apply Hx. rewrite <- E. now apply in_map.
Qed.




Lemma plan_count materials demands d :
  NoDup (map Demand.id demands) -> In d demands ->
  count_occ Demand_eq_dec (planCuts (optimize materials demands)) d
  = match Map_get (Demand.materialId d) (materialMapOf materials) with
    | Some mat =>
        if fits (Material.stockLengthMm mat - FIXED_WASTE) d
           && negb (String.eqb (Demand.materialId d) "__proto__")
        then 1%nat else 0%nat
    | None => 0%nat
    end.
Proof.
  intros Hnd Hin.
  rewrite (count_occ_plan _ (Demand.materialId d)).
  - rewrite optimize_get, groupDemands_get.
    destruct (filter (forMaterial (Demand.materialId d)) demands) as [|d0 l] eqn:E.
    { exfalso. assert (H : In d (filter (forMaterial (Demand.materialId d)) demands)).
      { apply filter_In. split; auto. unfold forMaterial. apply String.eqb_refl. }
      rewrite E in H. destruct H. }
    cbn [nonEmpty]. rewrite <- E. clear E d0 l.
    destruct (Map_get (Demand.materialId d) (materialMapOf materials)) as [mat|];
      [|now destruct (String.eqb _ "__proto__")].
    destruct (String.eqb (Demand.materialId d) "__proto__"); cbn [negb].
    { now rewrite andb_false_r. }
    rewrite andb_true_r.
    rewrite (proj1 (Permutation_count_occ Demand_eq_dec _ _) (packMaterial_cuts mat _)).
    rewrite !count_occ_filter. unfold forMaterial. rewrite String.eqb_refl.
    destruct (fits _ d); [|reflexivity].
    apply NoDup_count_occ'; auto. eapply NoDup_map_inv; eauto.
  - apply optimize_NoDup.
  - intros k pipes Hk Hne Hd. apply in_flat_map in Hd as (p & Hp & Hc).
    destruct (plan_cut_origin _ _ _ _ _ _ Hk Hp Hc) as (_ & E & _). congruence.
Qed.




(** ** Strings *)

Lemma allChars_app f s t : allChars f (s ++ t)%string = allChars f s && allChars f t.
Proof.
  induction s as [|a s IH]; simpl; auto. rewrite IH. now rewrite andb_assoc.
Qed.

Lemma allChars_impl (f g : ascii -> bool) s :
  (forall a, f a = true -> g a = true) -> allChars f s = true -> allChars g s = true.
Proof.
  intros Hfg. induction s as [|a s IH]; simpl; auto.
  intros H. apply andb_true_iff in H as [Ha Hs]. apply andb_true_iff. auto.
Qed.

(** Cutting at the first [c] *)
Lemma split_first c x1 x2 t1 t2 :
  lacks c x1 = true -> lacks c x2 = true ->
  (x1 ++ String c t1)%string = (x2 ++ String c t2)%string ->
  x1 = x2 /\ t1 = t2.
Proof.
  unfold lacks.
  revert x2. induction x1 as [|a x1 IH]; intros [|b x2] H1 H2 E; simpl in *.
  - inversion E. auto.
  - inversion E; subst. rewrite Ascii.eqb_refl in H2. discriminate.
  - inversion E; subst. rewrite Ascii.eqb_refl in H1. discriminate.
  - inversion E; subst.
    apply andb_true_iff in H1 as [_ H1]. apply andb_true_iff in H2 as [_ H2].
    destruct (IH x2 H1 H2 H3) as [-> ->]. auto.
Qed.

(** Cutting at the last [c] *)
Lemma split_last c x1 x2 t1 t2 :
  lacks c t1 = true -> lacks c t2 = true ->
  (x1 ++ String c t1)%string = (x2 ++ String c t2)%string ->
  x1 = x2 /\ t1 = t2.
Proof.
  intros H1 H2. revert x2. induction x1 as [|a x1 IH]; intros [|b x2] E; simpl in *.
  - inversion E. auto.
  - inversion E; subst. unfold lacks in H1. rewrite allChars_app in H1.
    simpl in H1. rewrite Ascii.eqb_refl in H1. simpl in H1.
    rewrite andb_false_r in H1. discriminate.
  - inversion E; subst. unfold lacks in H2. rewrite allChars_app in H2.
    simpl in H2. rewrite Ascii.eqb_refl in H2. simpl in H2.
    rewrite andb_false_r in H2. discriminate.
  - inversion E; subst. destruct (IH x2 H3) as [-> ->]. auto.
Qed.

Lemma lacks_not_inside c s x t : lacks c s = true -> s <> (x ++ String c t)%string.
Proof.
  intros H ->. unfold lacks in H. rewrite allChars_app in H. simpl in H.
  rewrite Ascii.eqb_refl in H. simpl in H. rewrite andb_false_r in H. discriminate.
Qed.

(** ** Numbers as text *)

Lemma string_of_uint_numeric d : allChars isNumChar (NilEmpty.string_of_uint d) = true.
Proof. induction d; simpl; auto. Qed.

Lemma numberToString_numeric n : allChars isNumChar (numberToString n) = true.
Proof.
  unfold numberToString, NilZero.string_of_int, NilZero.string_of_uint.
  destruct (Z.to_int n) as [d|d]; destruct d; simpl; auto using string_of_uint_numeric.
Qed.

Lemma isNumChar_other c a :
  isNumChar c = false -> isNumChar a = true -> negb (Ascii.eqb a c) = true.
Proof.
  intros Hc Ha. destruct (Ascii.eqb_spec a c) as [->|]; [congruence|reflexivity].
Qed.

Lemma numberToString_lacks c n : isNumChar c = false -> lacks c (numberToString n) = true.
Proof.
  intros Hc. unfold lacks.
  apply (allChars_impl isNumChar).
  - intros a. now apply isNumChar_other.
  - apply numberToString_numeric.
Qed.

Lemma numberToString_not_proto n : String.eqb (numberToString n) "__proto__" = false.
Proof.
  apply String.eqb_neq. intros E.
  pose proof (numberToString_lacks "_" n eq_refl) as H. rewrite E in H. discriminate.
Qed.

Lemma numberToString_inj a b : numberToString a = numberToString b -> a = b.
Proof.
  unfold numberToString. intros E.
  assert (Hn : forall z, NilZero.int_of_string (NilZero.string_of_int (Z.to_int z))
                         = Some (Z.to_int z)).
  { intros z. apply NilZero.isi; destruct z; simpl; try discriminate;
      intros [= H]; now apply DecimalPos.Unsigned.to_uint_nonnil in H. }
  apply (f_equal NilZero.int_of_string) in E. rewrite !Hn in E.
  inversion E. now apply DecimalZ.to_int_inj.
Qed.

Lemma digitChar_inj a b :
  0 <= a < 10 -> 0 <= b < 10 -> digitChar a = digitChar b -> a = b.
Proof.
  unfold digitChar. intros Ha Hb E. apply (f_equal nat_of_ascii) in E.
  rewrite !nat_ascii_embedding in E by lia. lia.
Qed.

Lemma digitChar_numeric d : 0 <= d < 10 -> isNumChar (digitChar d) = true.
Proof.
  intros H.
  assert (E : d = 0 \/ d = 1 \/ d = 2 \/ d = 3 \/ d = 4 \/ d = 5 \/ d = 6 \/ d = 7
              \/ d = 8 \/ d = 9) by lia.
  repeat (destruct E as [->|E]; [reflexivity|]). now subst.
Qed.

Lemma fraction3_digits r :
  0 <= r < 1000 ->
  0 <= r / 100 < 10 /\ 0 <= (r / 10) mod 10 < 10 /\ 0 <= r mod 10 < 10 /\
  r = 100 * (r / 100) + 10 * ((r / 10) mod 10) + r mod 10.
Proof. intros H. Z.div_mod_to_equations. lia. Qed.

Lemma fraction3_numeric r : 0 <= r < 1000 -> allChars isNumChar (fraction3 r) = true.
Proof.
  intros H. destruct (fraction3_digits r H) as (Ha & Hb & Hc & _).
  unfold fraction3.
  destruct (negb (r mod 10 =? 0)); [|destruct (negb ((r / 10) mod 10 =? 0))];
    cbn [allChars]; rewrite ?digitChar_numeric by assumption; reflexivity.
Qed.

Lemma fraction3_inj r1 r2 :
  0 <= r1 < 1000 -> 0 <= r2 < 1000 -> fraction3 r1 = fraction3 r2 -> r1 = r2.
Proof.
  intros H1 H2.
  destruct (fraction3_digits r1 H1) as (Ha1 & Hb1 & Hc1 & E1).
  destruct (fraction3_digits r2 H2) as (Ha2 & Hb2 & Hc2 & E2).
  unfold fraction3.
  destruct (Z.eqb_spec (r1 mod 10) 0) as [C1|C1], (Z.eqb_spec (r2 mod 10) 0) as [C2|C2];
    cbn [negb];
    try destruct (Z.eqb_spec ((r1 / 10) mod 10) 0) as [B1|B1];
    try destruct (Z.eqb_spec ((r2 / 10) mod 10) 0) as [B2|B2];
    cbn [negb]; intros E; inversion E;
    repeat match goal with
           | H : digitChar _ = digitChar _ |- _ => apply digitChar_inj in H; [|assumption..]
           end; lia.
Qed.

Lemma formatMetres_lacks c mm :
  isNumChar c = false -> c <> "."%char -> lacks c (formatMetres mm) = true.
Proof.
  intros Hc Hdot. unfold formatMetres.
  destruct (mm mod 1000 =? 0); [now apply numberToString_lacks|].
  unfold lacks. rewrite !allChars_app. cbn [allChars].
  fold (lacks c (numberToString (mm / 1000))). rewrite numberToString_lacks by auto.
  assert (Hr : 0 <= mm mod 1000 < 1000) by (apply Z.mod_pos_bound; lia).
  rewrite (allChars_impl isNumChar _ _ (fun a => isNumChar_other c a Hc)
             (fraction3_numeric _ Hr)).
  destruct (Ascii.eqb_spec "." c); [congruence|reflexivity].
Qed.

Lemma formatMetres_inj a b : formatMetres a = formatMetres b -> a = b.
Proof.
  unfold formatMetres. intros E.
  assert (Ha : 0 <= a mod 1000 < 1000) by (apply Z.mod_pos_bound; lia).
  assert (Hb : 0 <= b mod 1000 < 1000) by (apply Z.mod_pos_bound; lia).
  assert (Hdot : forall n, lacks "." (numberToString n) = true)
    by (intros n; now apply numberToString_lacks).
  assert (Hq : a / 1000 = b / 1000 /\ a mod 1000 = b mod 1000).
  { destruct (Z.eqb_spec (a mod 1000) 0) as [A|A], (Z.eqb_spec (b mod 1000) 0) as [B|B].
    - split; [now apply numberToString_inj|lia].
    - exfalso. eapply lacks_not_inside; [apply Hdot|]. exact E.
    - exfalso. eapply lacks_not_inside; [apply Hdot|]. symmetry. exact E.
    - apply split_first in E as [E1 E2]; auto.
      split; [now apply numberToString_inj|]. now apply fraction3_inj. }
  destruct Hq as [Hq Hr].
  rewrite (Z.div_mod a 1000), (Z.div_mod b 1000) by lia. now rewrite Hq, Hr.
Qed.

Lemma decimalMm_inj a b : decimalMm a = decimalMm b -> a = b.
Proof.
  unfold decimalMm.
  destruct (1000 <=? a), (1000 <=? b); intros E.
  - apply split_first in E as [E _]; try (now apply formatMetres_lacks).
    now apply formatMetres_inj.
  - apply split_first in E as [_ E];
      [discriminate | now apply formatMetres_lacks | now apply numberToString_lacks].
  - apply split_first in E as [_ E];
      [discriminate | now apply numberToString_lacks | now apply formatMetres_lacks].
  - apply split_first in E as [E _]; try (now apply numberToString_lacks).
    now apply numberToString_inj.
Qed.

Lemma decimalMm_lacks_plus mm : lacks "+" (decimalMm mm) = true.
Proof.
  unfold decimalMm, lacks.
  destruct (1000 <=? mm); rewrite allChars_app; cbn [allChars andb negb];
    [fold (lacks "+" (formatMetres mm)); rewrite formatMetres_lacks by (reflexivity || discriminate)
    |fold (lacks "+" (numberToString mm)); rewrite numberToString_lacks by reflexivity];
    reflexivity.
Qed.

Lemma decimalMm_nonempty mm : decimalMm mm <> "".
Proof.
  unfold decimalMm. destruct (1000 <=? mm).
  - destruct (formatMetres mm); discriminate.
  - destruct (numberToString mm); discriminate.
Qed.

(** ** The doubles of [formatMm] *)

Lemma roundHalfEven_spec num den :
  0 < den -> - den <= 2 * (num - roundHalfEven num den * den) <= den.
Proof.
  intros Hd. unfold roundHalfEven.
  pose proof (Z.div_mod num den ltac:(lia)) as E.
  pose proof (Z.mod_pos_bound num den Hd) as B.
  set (q := num / den) in *. set (r := num mod den) in *.
  destruct (Z.ltb_spec (2 * r) den); [lia|].
  destruct (Z.ltb_spec den (2 * r)); [lia|].
  destruct (Z.even q); lia.
Qed.

Lemma roundHalfEven_unique num den t :
  0 < den -> - den < 2 * (num - t * den) < den -> roundHalfEven num den = t.
Proof.
  intros Hd Ht. pose proof (roundHalfEven_spec num den Hd) as Hr.
  set (r := roundHalfEven num den) in *.
  assert (r - t < 1) by nia. assert (-1 < r - t) by nia. lia.
Qed.

Lemma roundHalfEven_scale k num den :
  0 < k -> 0 < den -> roundHalfEven (k * num) (k * den) = roundHalfEven num den.
Proof.
  intros Hk Hd. unfold roundHalfEven.
  rewrite Z.div_mul_cancel_l, Z.mul_mod_distr_l by lia.
  set (q := num / den). set (r := num mod den).
  replace (2 * (k * r) <? k * den) with (2 * r <? den)
    by (destruct (Z.ltb_spec (2 * r) den), (Z.ltb_spec (2 * (k * r)) (k * den)); auto; nia).
  replace (k * den <? 2 * (k * r)) with (den <? 2 * r)
    by (destruct (Z.ltb_spec den (2 * r)), (Z.ltb_spec (k * den) (2 * (k * r))); auto; nia).
  reflexivity.
Qed.

Lemma nearestDouble_scale k num den :
  0 < k -> 0 < den -> nearestDouble (k * num) (k * den) = nearestDouble num den.
Proof.
  intros Hk Hd. unfold nearestDouble.
  rewrite Z.div_mul_cancel_l by lia.
  set (e := Z.log2 (num / den) - 52).
  destruct (Z.leb_spec 0 e).
  - rewrite <- Z.mul_assoc, roundHalfEven_scale; auto.
    apply Z.mul_pos_pos; auto. apply Z.pow_pos_nonneg; lia.
  - rewrite <- Z.mul_assoc, roundHalfEven_scale; auto.
Qed.

Lemma nearest_error p :
  1000 <= p < 2 ^ 42 * 1000 ->
  let x := nearestDouble p 1000 in
  exponent x < 0 /\ 1024 <= 2 ^ (- exponent x) /\
  - 1000 <= 2 * (p * 2 ^ (- exponent x) - mantissa x * 1000) <= 1000.
Proof.
  intros Hp. unfold nearestDouble.
  assert (Hq : 1 <= p / 1000 < 2 ^ 42).
  { split.
    - apply Z.div_le_lower_bound; lia.
    - apply Z.div_lt_upper_bound; lia. }
  set (q0 := p / 1000) in *.
  assert (HL : 0 <= Z.log2 q0 < 42).
  { split; [apply Z.log2_nonneg|]. apply Z.log2_lt_pow2; lia. }
  set (L := Z.log2 q0) in *.
  destruct (Z.leb_spec 0 (L - 52)) as [|_]; [lia|].
  replace (- (L - 52)) with (Z.succ (51 - L)) by lia.
  rewrite Z.pow_succ_r by lia.
  assert (HE : 1024 <= 2 ^ (51 - L)).
  { change 1024 with (2 ^ 10). apply Z.pow_le_mono_r; lia. }
  set (E' := 2 ^ (51 - L)) in *.
  pose proof (roundHalfEven_spec (p * (2 * E')) 1000 ltac:(lia)) as Hr.
  set (m := roundHalfEven (p * (2 * E')) 1000) in *.
  destruct (Z.eqb_spec m (2 ^ 53)) as [Em|_]; cbn [exponent mantissa].
  - replace (- (L - 52 + 1)) with (51 - L) by lia. fold E'.
    rewrite Em in Hr. change (2 ^ 53) with (2 * 2 ^ 52) in Hr.
    split; [lia|]. split; [lia|]. lia.
  - replace (- (L - 52)) with (Z.succ (51 - L)) by lia.
    rewrite Z.pow_succ_r by lia. fold E'.
    split; [lia|]. split; [lia|]. lia.
Qed.

Lemma toFixed3_nearest p :
  1000 <= p < 2 ^ 42 * 1000 -> toFixed3 (nearestDouble p 1000) = p.
Proof.
  intros Hp. destruct (nearest_error p Hp) as (He & HE & Hr).
  unfold toFixed3. set (x := nearestDouble p 1000) in *.
  destruct (Z.leb_spec 0 (exponent x)); [lia|].
  set (E := 2 ^ (- exponent x)) in *. set (m := mantissa x) in *.
  symmetry. apply (Z.div_unique _ _ p (2 * (m * 1000) + E - 2 * E * p)); lia.
Qed.

Lemma Double_eqb_eq x y : Double_eqb x y = true <-> x = y.
Proof.
  unfold Double_eqb. destruct x as [m e], y as [m' e']. cbn [mantissa exponent].
  rewrite andb_true_iff, !Z.eqb_eq. split; [intros [-> ->]; reflexivity|].
  intros [= -> ->]. auto.
Qed.

Lemma powers_of_ten f :
  (f <= 3)%nat ->
  (10 ^ Z.of_nat f = 1 /\ 10 ^ Z.of_nat (3 - f) = 1000) \/
  (10 ^ Z.of_nat f = 10 /\ 10 ^ Z.of_nat (3 - f) = 100) \/
  (10 ^ Z.of_nat f = 100 /\ 10 ^ Z.of_nat (3 - f) = 10) \/
  (10 ^ Z.of_nat f = 1000 /\ 10 ^ Z.of_nat (3 - f) = 1).
Proof.
  destruct f as [|[|[|[|f]]]]; intros H; [| | | |lia]; auto 8.
Qed.

Lemma scaled_exact p f t :
  1000 <= p < 2 ^ 42 * 1000 -> (f <= 3)%nat -> p = t * 10 ^ Z.of_nat (3 - f) ->
  scaled (nearestDouble p 1000) f = t /\
  Double_eqb (nearestDouble t (10 ^ Z.of_nat f)) (nearestDouble p 1000) = true.
Proof.
  intros Hp Hf Ht. destruct (nearest_error p Hp) as (He & HE & Hr). split.
  - unfold scaled. set (x := nearestDouble p 1000) in *.
    destruct (Z.leb_spec 0 (exponent x)); [lia|].
    set (E := 2 ^ (- exponent x)) in *. set (m := mantissa x) in *.
    apply roundHalfEven_unique; [lia|].
    destruct (powers_of_ten f Hf) as [[EF EP]|[[EF EP]|[[EF EP]|[EF EP]]]];
      rewrite EF; rewrite EP in Ht; subst p; lia.
  - apply Double_eqb_eq.
    rewrite <- (nearestDouble_scale (10 ^ Z.of_nat (3 - f))).
    + f_equal; [rewrite Ht; apply Z.mul_comm|].
      rewrite <- Z.pow_add_r by lia.
      replace (Z.of_nat (3 - f) + Z.of_nat f) with 3 by lia. reflexivity.
    + apply Z.pow_pos_nonneg; lia.
    + apply Z.pow_pos_nonneg; lia.
Qed.

Lemma scaled_inexact p f :
  1000 <= p < 10 ^ 15 -> (f < 3)%nat -> p mod 10 ^ Z.of_nat (3 - f) <> 0 ->
  Double_eqb (nearestDouble (scaled (nearestDouble p 1000) f) (10 ^ Z.of_nat f))
             (nearestDouble p 1000) = false.
Proof.
  intros Hp Hf Hnd.
  assert (Hp' : 1000 <= p < 2 ^ 42 * 1000)
    by (change (2 ^ 42 * 1000) with 4398046511104000; change (10 ^ 15) with 1000000000000000 in Hp; lia).
  destruct (Double_eqb _ _) eqn:Eq; [|reflexivity]. exfalso.
  apply Double_eqb_eq in Eq.
  destruct (nearest_error p Hp') as (He & HE & Hr).
  pose proof (toFixed3_nearest p Hp') as Hfix.
  set (x := nearestDouble p 1000) in *.
  set (s := scaled x f) in *.
  assert (Hs : - 2 ^ (- exponent x) <= 2 * (mantissa x * 10 ^ Z.of_nat f - s * 2 ^ (- exponent x))
               <= 2 ^ (- exponent x)).
  { unfold s, scaled. destruct (Z.leb_spec 0 (exponent x)); [lia|].
    apply roundHalfEven_spec. lia. }
  set (E := 2 ^ (- exponent x)) in *. set (m := mantissa x) in *.
  assert (HPF : 10 ^ Z.of_nat (3 - f) * 10 ^ Z.of_nat f = 1000).
  { rewrite <- Z.pow_add_r by lia. replace (Z.of_nat (3 - f) + Z.of_nat f) with 3 by lia.
    reflexivity. }
  assert (HPpos : 0 < 10 ^ Z.of_nat (3 - f)) by (apply Z.pow_pos_nonneg; lia).
  assert (Hscale : nearestDouble (10 ^ Z.of_nat (3 - f) * s) 1000 = x).
  { rewrite <- HPF, nearestDouble_scale; auto. apply Z.pow_pos_nonneg; lia. }
  assert (Hbound : 1000 <= 10 ^ Z.of_nat (3 - f) * s < 2 ^ 42 * 1000).
  { change (2 ^ 42 * 1000) with 4398046511104000.
    change (10 ^ 15) with 1000000000000000 in Hp.
    destruct (powers_of_ten f ltac:(lia)) as [[EF EP]|[[EF EP]|[[EF EP]|[EF EP]]]];
      rewrite EF in Hs; rewrite EP; nia. }
  pose proof (toFixed3_nearest _ Hbound) as Hfix'.
  rewrite Hscale in Hfix'. rewrite Hfix in Hfix'.
  apply Hnd. rewrite Hfix', Z.mul_comm. apply Z.mod_mul. lia.
Qed.

Lemma shortest_hit fuel f x :
  Double_eqb (nearestDouble (scaled x f) (10 ^ Z.of_nat f)) x = true ->
  shortest fuel f x = (scaled x f, f).
Proof. intros H. destruct fuel; cbn [shortest]; now rewrite H. Qed.

Lemma shortest_skip fuel f x :
  Double_eqb (nearestDouble (scaled x f) (10 ^ Z.of_nat f)) x = false ->
  shortest (S fuel) f x = shortest fuel (S f) x.
Proof. intros H. cbn [shortest]. now rewrite H. Qed.

Lemma shortest_at fuel p f t :
  1000 <= p < 10 ^ 15 -> (f <= 3)%nat -> p = t * 10 ^ Z.of_nat (3 - f) ->
  shortest fuel f (nearestDouble p 1000) = (t, f).
Proof.
  intros Hp Hf Ht.
  assert (Hp' : 1000 <= p < 2 ^ 42 * 1000)
    by (change (2 ^ 42 * 1000) with 4398046511104000;
        change (10 ^ 15) with 1000000000000000 in Hp; lia).
  destruct (scaled_exact p f t Hp' Hf Ht) as [Hs Hc].
  rewrite shortest_hit; rewrite Hs; auto.
Qed.

Lemma shortest_decimals p :
  1000 <= p < 10 ^ 15 ->
  shortest 17 0 (nearestDouble p 1000)
  = (p / 10 ^ Z.of_nat (3 - decimals p), decimals p).
Proof.
  intros Hp. unfold decimals.
  destruct (Z.eqb_spec (p mod 1000) 0) as [E3|E3].
  { apply shortest_at; auto. change (10 ^ Z.of_nat (3 - 0)) with 1000.
    pose proof (Z.div_mod p 1000 ltac:(lia)). lia. }
  rewrite shortest_skip by (apply scaled_inexact; auto).
  destruct (Z.eqb_spec (p mod 100) 0) as [E2|E2].
  { apply shortest_at; auto. change (10 ^ Z.of_nat (3 - 1)) with 100.
    pose proof (Z.div_mod p 100 ltac:(lia)). lia. }
  rewrite shortest_skip by (apply scaled_inexact; auto).
  destruct (Z.eqb_spec (p mod 10) 0) as [E1|E1].
  { apply shortest_at; auto. change (10 ^ Z.of_nat (3 - 2)) with 10.
    pose proof (Z.div_mod p 10 ltac:(lia)). lia. }
  rewrite shortest_skip by (apply scaled_inexact; auto).
  apply shortest_at; auto. change (10 ^ Z.of_nat (3 - 3)) with 1.
  rewrite Z.div_1_r. lia.
Qed.

Lemma Number_toString_metres p :
  1000 <= p < 10 ^ 15 ->
  Number_toString (nearestDouble p 1000) = formatMetres p.
Proof.
  intros Hp. unfold Number_toString. rewrite shortest_decimals by auto.
  unfold decimals, formatMetres, fraction3.
  destruct (Z.eqb_spec (p mod 1000) 0) as [E3|E3].
  { reflexivity. }
  destruct (Z.eqb_spec (p mod 100) 0) as [E2|E2].
  { change (10 ^ Z.of_nat (3 - 1)) with 100. change (10 ^ Z.of_nat 1) with 10.
    cbn [digitsOf]. cbn [String.append].
    replace (p / 100 / 10) with (p / 1000) by (Z.div_mod_to_equations; lia).
    replace ((p / 100) mod 10 mod 10) with (p mod 1000 / 100)
      by (Z.div_mod_to_equations; lia).
    replace (p mod 1000 mod 10) with 0 by (Z.div_mod_to_equations; lia).
    replace ((p mod 1000 / 10) mod 10) with 0 by (Z.div_mod_to_equations; lia).
    reflexivity. }
  destruct (Z.eqb_spec (p mod 10) 0) as [E1|E1].
  { change (10 ^ Z.of_nat (3 - 2)) with 10. change (10 ^ Z.of_nat 2) with 100.
    cbn [digitsOf]. cbn [String.append].
    replace (p / 10 / 100) with (p / 1000) by (Z.div_mod_to_equations; lia).
    replace ((p / 10) mod 100 / 10 mod 10) with (p mod 1000 / 100)
      by (Z.div_mod_to_equations; lia).
    replace ((p / 10) mod 100 mod 10) with ((p mod 1000 / 10) mod 10)
      by (Z.div_mod_to_equations; lia).
    replace (p mod 1000 mod 10) with 0 by (Z.div_mod_to_equations; lia).
    destruct (Z.eqb_spec ((p mod 1000 / 10) mod 10) 0) as [E|E]; [|reflexivity].
    exfalso. apply E2. Z.div_mod_to_equations. lia. }
  change (10 ^ Z.of_nat (3 - 3)) with 1. change (10 ^ Z.of_nat 3) with 1000.
  cbn [digitsOf]. cbn [String.append]. rewrite Z.div_1_r.
  replace (p mod 1000 / 10 / 10 mod 10) with (p mod 1000 / 100)
    by (Z.div_mod_to_equations; lia).
  replace ((p mod 1000) mod 10) with (p mod 10) by (Z.div_mod_to_equations; lia).
  destruct (Z.eqb_spec (p mod 10) 0) as [E|E]; [contradiction|reflexivity].
Qed.

Lemma formatMm_decimal p : p < 10 ^ 15 -> formatMm p = decimalMm p.
Proof.
  intros Hp. unfold formatMm, decimalMm, parseFloat3.
  destruct (Z.leb_spec 1000 p); [|reflexivity].
  rewrite toFixed3_nearest, Number_toString_metres; auto.
  change (2 ^ 42 * 1000) with 4398046511104000.
  change (10 ^ 15) with 1000000000000000 in Hp. lia.
Qed.

Lemma formatMm_inj a b :
  a < 10 ^ 15 -> b < 10 ^ 15 -> formatMm a = formatMm b -> a = b.
Proof.
  intros Ha Hb. rewrite !formatMm_decimal by assumption. apply decimalMm_inj.
Qed.

Lemma formatMm_lacks_plus mm : mm < 10 ^ 15 -> lacks "+" (formatMm mm) = true.
Proof. intros H. rewrite formatMm_decimal by assumption. apply decimalMm_lacks_plus. Qed.

Lemma formatMm_nonempty mm : mm < 10 ^ 15 -> formatMm mm <> "".
Proof. intros H. rewrite formatMm_decimal by assumption. apply decimalMm_nonempty. Qed.

(** ** Joined patterns *)

Lemma append_empty_r s : (s ++ "")%string = s.
Proof. induction s as [|a s IH]; simpl; congruence. Qed.

Lemma concat_cons x l : String.concat " + " (x :: l) = (x ++ joinTail l)%string.
Proof. destruct l; simpl; [now rewrite append_empty_r|reflexivity]. Qed.

Lemma joinTail_sepTail l : sepTail (joinTail l).
Proof. destruct l; [now left|right; eexists; reflexivity]. Qed.

Lemma plus_split x1 x2 s1 s2 :
  lacks "+" x1 = true -> lacks "+" x2 = true -> sepTail s1 -> sepTail s2 ->
  (x1 ++ s1)%string = (x2 ++ s2)%string -> x1 = x2 /\ s1 = s2.
Proof.
  unfold lacks.
  revert x2. induction x1 as [|a x1 IH]; intros [|b x2] H1 H2 T1 T2 E; simpl in *.
  - auto.
  - exfalso. destruct T1 as [->|[t ->]]; [discriminate|].
    destruct x2 as [|b' x2]; simpl in E.
    + destruct T2 as [->|[t' ->]]; discriminate.
    + injection E as <- <- _. simpl in H2. discriminate.
  - exfalso. destruct T2 as [->|[t ->]]; [discriminate|].
    destruct x1 as [|a' x1]; simpl in E.
    + destruct T1 as [->|[t' ->]]; discriminate.
    + injection E as -> -> _. simpl in H1. discriminate.
  - inversion E; subst.
    apply andb_true_iff in H1 as [_ H1]. apply andb_true_iff in H2 as [_ H2].
    destruct (IH x2 H1 H2 T1 T2 H3) as [-> ->]. auto.
Qed.

Lemma concat_plus_inj l1 : forall l2,
  Forall (fun x => lacks "+" x = true /\ x <> "") l1 ->
  Forall (fun x => lacks "+" x = true /\ x <> "") l2 ->
  String.concat " + " l1 = String.concat " + " l2 -> l1 = l2.
Proof.
  induction l1 as [|x l1 IH]; intros [|y l2] F1 F2 E.
  - reflexivity.
  - exfalso. inversion F2 as [|? ? [_ Hy] _]; subst.
    rewrite concat_cons in E. simpl in E. destruct y; [congruence|discriminate].
  - exfalso. inversion F1 as [|? ? [_ Hx] _]; subst.
    rewrite concat_cons in E. simpl in E. destruct x; [congruence|discriminate].
  - inversion F1 as [|? ? [Hx _] F1']; inversion F2 as [|? ? [Hy _] F2']; subst.
    rewrite !concat_cons in E.
    apply plus_split in E as [-> E]; auto using joinTail_sepTail.
    f_equal. destruct l1 as [|x1 l1], l2 as [|y2 l2]; try discriminate; auto.
    apply IH; auto. simpl in E. now inversion E.
Qed.

Lemma patternKey_texts p :
  shortCuts p ->
  Forall (fun x => lacks "+" x = true /\ x <> "")
         (map (fun c => formatMm (Demand.lengthMm c)) (Pipe.cuts p)).
Proof.
  unfold shortCuts, lengthsOf. rewrite !Forall_forall. intros H x Hx.
  apply in_map_iff in Hx as (c & <- & Hc).
  assert (Hs : Demand.lengthMm c < 10 ^ 15) by (apply H; now apply in_map).
  split; [now apply formatMm_lacks_plus|now apply formatMm_nonempty].
Qed.

Lemma patternKey_lengths p q :
  shortCuts p -> shortCuts q ->
  (patternKey p = patternKey q <-> lengthsOf p = lengthsOf q).
Proof.
  intros Sp Sq. split.
  - unfold patternKey. intros E.
    apply concat_plus_inj in E; auto using patternKey_texts.
    unfold shortCuts, lengthsOf in *. revert Sp Sq E.
    generalize (Pipe.cuts q). induction (Pipe.cuts p) as [|c cs IH];
      intros [|d ds] Sp Sq E; try discriminate; auto.
    cbn [map] in *. inversion Sp; inversion Sq; subst.
    inversion E as [[E1 E2]]. apply formatMm_inj in E1; auto.
    f_equal; auto.
  - unfold patternKey, lengthsOf.
    intros E. rewrite <- (map_map Demand.lengthMm formatMm (Pipe.cuts p)).
    rewrite <- (map_map Demand.lengthMm formatMm (Pipe.cuts q)). now rewrite E.
Qed.

Lemma withPattern_sameLengths p q :
  shortCuts p -> shortCuts q -> withPattern (patternKey p) q = sameLengths p q.
Proof.
  intros Sp Sq. unfold withPattern, sameLengths.
  destruct (String.eqb_spec (patternKey q) (patternKey p)) as [E|E],
           (list_eq_dec Z.eq_dec (lengthsOf p) (lengthsOf q)) as [F|F]; auto.
  - apply patternKey_lengths in E; auto. congruence.
  - exfalso. apply E. symmetry. now apply patternKey_lengths.
Qed.

Lemma patternCounts_snoc pipes p :
  patternCountsOf (pipes ++ [p]) = patternStep (patternCountsOf pipes) p.
Proof. unfold patternCountsOf. now rewrite fold_left_app. Qed.

Lemma patternCounts_get k pipes :
  Map_get k (patternCountsOf pipes)
  = match filter (withPattern k) pipes with
    | [] => None
    | l => Some (Z.of_nat (List.length l))
    end.
Proof.
  induction pipes as [|p pipes IH] using rev_ind; [reflexivity|].
  rewrite patternCounts_snoc, filter_app. cbn [filter]. unfold patternStep.
  unfold withPattern at 2.
  destruct (String.eqb_spec (patternKey p) k) as [->|Hk].
  - rewrite Map_get_set_same, IH.
    destruct (filter _ pipes) as [|q l]; [reflexivity|].
    cbn [List.app]. change (q :: l ++ [p]) with ((q :: l) ++ [p]).
    rewrite length_app, Nat2Z.inj_add. reflexivity.
  - rewrite app_nil_r, <- IH. now apply Map_get_set_other.
Qed.

Lemma patternCounts_keys pipes :
  Map_keys (patternCountsOf pipes) = firstSeen (map patternKey pipes).
Proof.
  induction pipes as [|p pipes IH] using rev_ind; [reflexivity|].
  rewrite patternCounts_snoc, map_app. cbn [map]. rewrite firstSeen_snoc.
  unfold patternStep. rewrite Map_keys_set, IH, patternCounts_get.
  destruct (filter (withPattern (patternKey p)) pipes) as [|q l] eqn:E.
  - destruct (existsb _ _) eqn:H; [|reflexivity].
    apply existsb_eqb_in, in_map_iff in H as (q & Hq & Hin).
    assert (F : In q (filter (withPattern (patternKey p)) pipes)).
    { apply filter_In. split; auto. unfold withPattern. now apply String.eqb_eq. }
    rewrite E in F. destruct F.
  - assert (F : In q (filter (withPattern (patternKey p)) pipes)) by (rewrite E; now left).
    apply filter_In in F as [Hin Hq]. apply String.eqb_eq in Hq.
    assert (H : existsb (String.eqb (patternKey p)) (map patternKey pipes) = true).
    { apply existsb_eqb_in. rewrite <- Hq. now apply in_map. }
    now rewrite H.
Qed.

Lemma summary_fold mm entries : forall summary,
  fold_left (summaryStep mm) entries summary = summary ++ flat_map (summaryRows mm) entries.
Proof.
  induction entries as [|[k pipes] entries IH]; intros summary; cbn [fold_left flat_map].
  - now rewrite app_nil_r.
  - rewrite IH. unfold summaryStep, summaryRows. cbn [fst snd].
    destruct (Map_get k mm) as [mat|]; [|reflexivity].
    destruct pipes as [|p pipes]; [reflexivity|].
    cbn [List.length]. destruct (Z.eqb_spec (Z.of_nat (S (List.length pipes))) 0); [lia|].
    now rewrite app_assoc.
Qed.

(** C9, as the code has it: pipes whose cuts are shorter than 10^15 mm share
    a pattern key exactly when their cut lengths agree in order; for such
    pipes of a material each pattern is listed once, with the number of pipes
    that have that sequence of lengths; the summary is these rows, material
    by material.  The pipes of a plan for demands shorter than 10^15 mm are
    such pipes. *)
Theorem cut_pattern_summary materials results :
  (forall p q, shortCuts p -> shortCuts q ->
               (patternKey p = patternKey q <-> lengthsOf p = lengthsOf q)) /\
  (forall pipes p,
      Forall shortCuts pipes -> In p pipes ->
      Map_get (patternKey p) (patternCountsOf pipes)
      = Some (Z.of_nat (List.length (filter (sameLengths p) pipes)))) /\
  (forall pipes,
      Map_keys (patternCountsOf pipes) = firstSeen (map patternKey pipes) /\
      NoDup (Map_keys (patternCountsOf pipes))) /\
  buildSummary materials results
  = flat_map (summaryRows (materialMapOf materials)) (Object_entries results) /\
  (forall demands,
      Forall (fun d => Demand.lengthMm d < 10 ^ 15) demands ->
      Forall shortCuts (planPipes (optimize materials demands))) /\
  patternCountsOf
    [Pipe.mk [Demand.mk "1" "P" "1" 2000; Demand.mk "2" "P" "1" 1000] 2780 6000 5890;
     Pipe.mk [Demand.mk "3" "P" "1" 1000; Demand.mk "4" "P" "1" 2000] 2780 6000 5890]
  = [("2 m + 1 m", 1); ("1 m + 2 m", 1)].
Proof.
  split; [exact patternKey_lengths|]. split; [|split; [|split; [|split]]].
  - intros pipes p Hshort Hin. rewrite patternCounts_get.
    rewrite Forall_forall in Hshort.
    rewrite (filter_ext_in (withPattern (patternKey p)) (sameLengths p))
      by (intros q Hq; apply withPattern_sameLengths; auto).
    destruct (filter (sameLengths p) pipes) as [|q l] eqn:E; [|reflexivity].
    assert (F : In p (filter (sameLengths p) pipes)).
    { apply filter_In. split; auto. unfold sameLengths.
      now destruct (list_eq_dec Z.eq_dec (lengthsOf p) (lengthsOf p)). }
    rewrite E in F. destruct F.
  - intros pipes. split; [apply patternCounts_keys|].
    unfold patternCountsOf. apply fold_Map_set_NoDup; [|constructor].
    intros m a H. unfold patternStep. now apply Map_set_NoDup.
  - unfold buildSummary. now rewrite summary_fold.
  - intros demands Hshort. rewrite Forall_forall in *. intros p Hp.
    unfold planPipes in Hp. apply in_flat_map in Hp as ([k pipes] & Hk & Hp).
    unfold shortCuts, lengthsOf. rewrite Forall_forall. intros n Hn.
    apply in_map_iff in Hn as (c & <- & Hc). apply Hshort.
    eapply plan_cut_origin; eauto.
  - vm_compute. reflexivity.
Qed.

(** C9 as worded fails: two pipes with the cuts 9000000000000002 mm and
    9000000000000001 mm have different cuts and one pattern, because both
    lengths are shown as 9000000000000.002 m; the summary has one row for the
    two pipes. *)
Lemma long_cuts_share_a_pattern :
  let m := Material.mk "1" "M" 9000000000000200 in
  let a := Demand.mk "2" "P" "1" 9000000000000001 in
  let b := Demand.mk "3" "P" "1" 9000000000000002 in
  let pa := Pipe.mk [a] 89 9000000000000200 9000000000000090 in
  let pb := Pipe.mk [b] 88 9000000000000200 9000000000000090 in
  optimize [m] [a; b] = [("1", [pb; pa])] /\
  lengthsOf pa <> lengthsOf pb /\
  patternKey pa = "9000000000000.002 m" /\
  patternKey pb = "9000000000000.002 m" /\
  buildSummary [m] (optimize [m] [a; b]) = [SummaryRow.mk "M" "9000000000000.002 m" 2].
Proof.
  intros m a b pa pb. split; [reflexivity|]. split; [discriminate|].
  split; [vm_compute; reflexivity|]. split; vm_compute; reflexivity.
Qed.

(** ** Aggregation by triple *)

Lemma sameTriple_key a b : sameTriple a b = true -> keyOf a = keyOf b.
Proof.
  unfold sameTriple, keyOf. intros H.
  apply andb_true_iff in H as [H Hl]. apply andb_true_iff in H as [Hm Hp].
  apply String.eqb_eq in Hm, Hp. apply Z.eqb_eq in Hl. now rewrite Hm, Hp, Hl.
Qed.

(** The key tells the triples apart as long as no material id contains the
    separator. *)
Lemma keyOf_inj a b :
  lacks "|" (Demand.materialId a) = true -> lacks "|" (Demand.materialId b) = true ->
  keyOf a = keyOf b -> sameTriple a b = true.
Proof.
  unfold keyOf, sameTriple. intros Ha Hb E.
  change (Demand.materialId a ++ "|" ++ Demand.project a ++ "|"
          ++ numberToString (Demand.lengthMm a))%string
    with (Demand.materialId a
          ++ String "|" (Demand.project a ++ String "|" (numberToString (Demand.lengthMm a))))%string
    in E.
  change (Demand.materialId b ++ "|" ++ Demand.project b ++ "|"
          ++ numberToString (Demand.lengthMm b))%string
    with (Demand.materialId b
          ++ String "|" (Demand.project b ++ String "|" (numberToString (Demand.lengthMm b))))%string
    in E.
  apply split_first in E as [Em E]; auto.
  apply split_last in E as [Ep En]; try (now apply numberToString_lacks).
  apply numberToString_inj in En.
  rewrite Em, Ep, En, !String.eqb_refl, Z.eqb_refl. reflexivity.
Qed.

Lemma firstOfTriple_in l x : In x (firstOfTriple l) -> In x l.
Proof.
  induction l as [|d l IH]; simpl; auto.
  intros [->|H]; auto. apply filter_In in H as [H _]. auto.
Qed.

Lemma filter_map_swap {A B : Type} (f : B -> bool) (g : A -> B) l :
  filter f (map g l) = map g (filter (fun x => f (g x)) l).
Proof.
  induction l as [|x l IH]; simpl; auto. destruct (f (g x)); simpl; now rewrite IH.
Qed.

Section NoBarInIds.
Variable ds : list Demand.t.
Hypothesis no_bar : forall d, In d ds -> lacks "|" (Demand.materialId d) = true.

Lemma withKey_sameTriple x y :
  In x ds -> In y ds -> withKey (keyOf x) y = sameTriple x y.
Proof.
  intros Hx Hy. unfold withKey.
  destruct (String.eqb_spec (keyOf y) (keyOf x)) as [E|E].
  - symmetry. apply keyOf_inj; auto.
  - destruct (sameTriple x y) eqn:T; auto.
    apply sameTriple_key in T. congruence.
Qed.

Lemma firstSeen_keys l :
  (forall d, In d l -> In d ds) ->
  firstSeen (map keyOf l) = map keyOf (firstOfTriple l).
Proof.
  induction l as [|d l IH]; intros Hl; [reflexivity|].
  cbn [map firstSeen firstOfTriple]. f_equal.
  rewrite IH by (intros x Hx; apply Hl; now right).
  rewrite filter_map_swap. f_equal. apply filter_ext_in.
  intros x Hx. apply firstOfTriple_in in Hx. f_equal.
  rewrite String.eqb_sym.
  apply (withKey_sameTriple x d); [apply Hl; now right | apply Hl; now left].
Qed.

Lemma groupOf_triple d :
  In d ds -> In d (firstOfTriple ds) ->
  groupOf (keyOf d) (filter (withKey (keyOf d)) ds) = Some (groupOfTriple ds d).
Proof.
  intros Hd _.
  rewrite (filter_ext_in _ (sameTriple d)) by (intros x Hx; now apply withKey_sameTriple).
  unfold groupOfTriple.
  destruct (filter (sameTriple d) ds) as [|d0 l] eqn:E.
  - exfalso. assert (F : In d (filter (sameTriple d) ds)).
    { apply filter_In. split; auto. unfold sameTriple.
      now rewrite !String.eqb_refl, Z.eqb_refl. }
    rewrite E in F. destruct F.
  - assert (F : In d0 (filter (sameTriple d) ds)) by (rewrite E; now left).
    apply filter_In in F as [_ T]. unfold sameTriple in T.
    apply andb_true_iff in T as [T Tl]. apply andb_true_iff in T as [Tm Tp].
    apply String.eqb_eq in Tm, Tp. apply Z.eqb_eq in Tl.
    cbn [groupOf]. now rewrite Tm, Tp, Tl.
Qed.

(** With such ids [aggregateDemands] returns one group per triple, in the
    order the triples show first, each with the number and the ids of the
    demands of its triple. *)
Lemma aggregateDemands_by_triple :
  aggregateDemands ds = map (groupOfTriple ds) (firstOfTriple ds).
Proof.
  assert (H : map Some (aggregateDemands ds)
              = map Some (map (groupOfTriple ds) (firstOfTriple ds))).
  { rewrite aggregateDemands_by_key, firstSeen_keys by auto.
    rewrite !map_map. apply map_ext_in. intros d Hd.
    apply groupOf_triple; auto. now apply firstOfTriple_in. }
  revert H. generalize (map (groupOfTriple ds) (firstOfTriple ds)).
  induction (aggregateDemands ds) as [|g l IH]; intros [|g' l'] H;
    try discriminate; auto.
  simpl in H. inversion H. f_equal. auto.
Qed.
End NoBarInIds.

Lemma ForallOrdPairs_filter {A : Type} (R : A -> A -> Prop) f l :
  ForallOrdPairs R l -> ForallOrdPairs R (filter f l).
Proof.
  induction 1 as [|a l Ha Hl IH]; simpl; [constructor|].
  destruct (f a); auto. constructor; auto.
  rewrite Forall_forall in *. intros x Hx. apply filter_In in Hx as [Hx _]. auto.
Qed.

Lemma firstOfTriple_distinct l :
  ForallOrdPairs (fun a b => sameTriple b a = false) (firstOfTriple l).
Proof.
  induction l as [|d l IH]; simpl; constructor.
  - rewrite Forall_forall. intros x Hx. apply filter_In in Hx as [_ Hx].
    now apply negb_true_iff.
  - now apply ForallOrdPairs_filter.
Qed.

Lemma sameTriple_trans a b c :
  sameTriple a b = true -> sameTriple b c = true -> sameTriple a c = true.
Proof.
  unfold sameTriple. intros H1 H2.
  apply andb_true_iff in H1 as [H1 L1]. apply andb_true_iff in H1 as [M1 P1].
  apply andb_true_iff in H2 as [H2 L2]. apply andb_true_iff in H2 as [M2 P2].
  apply String.eqb_eq in M1, P1, M2, P2. apply Z.eqb_eq in L1, L2.
  rewrite M1, M2, P1, P2, L1, L2, !String.eqb_refl, Z.eqb_refl. reflexivity.
Qed.

Lemma firstOfTriple_covers l d :
  In d l -> exists d0, In d0 (firstOfTriple l) /\ sameTriple d d0 = true.
Proof.
  induction l as [|x l IH]; simpl; [tauto|].
  intros [->|Hd].
  - exists d. split; [now left|]. unfold sameTriple.
    now rewrite !String.eqb_refl, Z.eqb_refl.
  - destruct (IH Hd) as (d0 & H0 & T).
    destruct (sameTriple d0 x) eqn:Tx.
    + exists x. split; [now left|]. eapply sameTriple_trans; eauto.
    + exists d0. split; auto. right. apply filter_In. split; auto. now rewrite Tx.
Qed.

(** C8 as worded fails where a material id contains the separator of the
    key: two demands that differ in material and project get the same key
    and come out as one group of two. *)
Lemma aggregate_merges_across_separator :
  aggregateDemands [Demand.mk "1" "c" "a|b" 1000; Demand.mk "2" "b|c" "a" 1000]
  = [AggregatedDemand.mk "a|b|c|1000" "c" "a|b" 1000 2 ["1"; "2"]] /\
  sameTriple (Demand.mk "1" "c" "a|b" 1000) (Demand.mk "2" "b|c" "a" 1000) = false /\
  keyOf (Demand.mk "1" "c" "a|b" 1000) = keyOf (Demand.mk "2" "b|c" "a" 1000).
Proof. repeat split; vm_compute; reflexivity. Qed.

(** C8, for material ids without the separator: [aggregateDemands] returns
    one group per distinct (materialId, project, lengthMm), in the order the
    triples show first; a group's count is the number of demands of its
    triple and its ids are theirs, in input order; no demands, no groups. *)
Theorem aggregate_groups_by_triple ds :
  (forall d, In d ds -> lacks "|" (Demand.materialId d) = true) ->
  aggregateDemands ds = map (groupOfTriple ds) (firstOfTriple ds) /\
  ForallOrdPairs (fun a b => sameTriple b a = false) (firstOfTriple ds) /\
  (forall d, In d ds -> exists d0, In d0 (firstOfTriple ds) /\ sameTriple d d0 = true) /\
  (forall d0, In d0 (firstOfTriple ds) -> In d0 ds) /\
  aggregateDemands [] = [].
Proof.
  intros Hbar. split; [now apply aggregateDemands_by_triple|].
  split; [apply firstOfTriple_distinct|].
  split; [apply firstOfTriple_covers|].
  split; [apply firstOfTriple_in|reflexivity].
Qed.

Lemma aggregate_groups_by_triple_witness :
  aggregateDemands
    [Demand.mk "1" "X" "M" 1000; Demand.mk "2" "X" "M" 1000; Demand.mk "3" "X" "M" 1000;
     Demand.mk "4" "Y" "M" 1000]
  = map (groupOfTriple
           [Demand.mk "1" "X" "M" 1000; Demand.mk "2" "X" "M" 1000;
            Demand.mk "3" "X" "M" 1000; Demand.mk "4" "Y" "M" 1000])
        (firstOfTriple
           [Demand.mk "1" "X" "M" 1000; Demand.mk "2" "X" "M" 1000;
            Demand.mk "3" "X" "M" 1000; Demand.mk "4" "Y" "M" 1000]).
Proof.
  apply (aggregate_groups_by_triple
           [Demand.mk "1" "X" "M" 1000; Demand.mk "2" "X" "M" 1000;
            Demand.mk "3" "X" "M" 1000; Demand.mk "4" "Y" "M" 1000]).
  intros d [<-|[<-|[<-|[<-|[]]]]]; reflexivity.
Defined.

(** * Further properties of the code *)

(** ** Ids *)

Lemma NoDup_app_inv {A : Type} (l1 l2 : list A) :
  NoDup (l1 ++ l2) -> NoDup l1 /\ NoDup l2 /\ (forall a, In a l1 -> ~ In a l2).
Proof.
  intros H. split; [eapply NoDup_app_remove_r; eauto|].
  split; [eapply NoDup_app_remove_l; eauto|].
  induction l1 as [|x l1 IH]; simpl in *; [tauto|].
  inversion H as [|? ? Hx Hr]; subst. intros a [<-|Ha] Hin.
  - apply Hx. apply in_or_app. now right.
  - now apply (IH Hr a).
Qed.

Lemma NoDup_map_filter {A B : Type} (f : A -> B) p l :
  NoDup (map f l) -> NoDup (map f (filter p l)).
Proof.
  induction l as [|x l IH]; simpl; auto.
  intros H. inversion H as [|? ? Hx Hr]; subst.
  destruct (p x); simpl; auto. constructor; auto.
  intros Hin. apply Hx. apply in_map_iff in Hin as (y & E & Hy).
  apply filter_In in Hy as [Hy _]. rewrite <- E. now apply in_map.
Qed.

Lemma in_map_filter {A B : Type} (f : A -> B) p l b :
  In b (map f (filter p l)) -> In b (map f l).
Proof.
  intros H. apply in_map_iff in H as (x & <- & Hx).
  apply filter_In in Hx as [Hx _]. now apply in_map.
Qed.

(** X1: the ids that [nextId] mints are the decimal numerals of the counter:
    different counters give different ids, the counter grows by one, and no
    id contains the separator of the aggregation key or is empty. *)
Theorem nextId_mints_fresh_numerals c1 c2 :
  (fst (nextId c1) = fst (nextId c2) <-> c1 = c2) /\
  snd (nextId c1) = c1 + 1 /\
  fst (nextId c1) = numberToString (snd (nextId c1)) /\
  allChars isNumChar (fst (nextId c1)) = true /\
  lacks "|" (fst (nextId c1)) = true /\
  fst (nextId c1) <> "".
Proof.
  unfold nextId. cbn [fst snd]. repeat split.
  - intros E. apply numberToString_inj in E. lia.
  - now intros ->.
  - apply numberToString_numeric.
  - now apply numberToString_lacks.
  - unfold numberToString, NilZero.string_of_int, NilZero.string_of_uint.
    destruct (Z.to_int (c1 + 1)) as [d|d]; [|discriminate].
    destruct d; discriminate.
Qed.

(** ** The handlers keep the inputs of the allocator well formed *)

Lemma WellFormed_initial : WellFormed initialApp.
Proof.
  constructor; simpl; try tauto; [lia|constructor].
Qed.

Lemma minted_fresh st :
  WellFormed st ->
  ~ In (numberToString (idCounter st + 1))
       (map Material.id (materials st) ++ map Demand.id (demands st)).
Proof.
  intros W Hin. destruct (wf_minted st W _ Hin) as (k & Hk & E).
  apply numberToString_inj in E. lia.
Qed.

Lemma minted_step st i :
  (exists k, 0 < k <= idCounter st /\ i = numberToString k) ->
  exists k, 0 < k <= idCounter st + 1 /\ i = numberToString k.
Proof. intros (k & Hk & E). exists k. split; [lia|assumption]. Qed.

Lemma submitMaterial_WellFormed name len st :
  WellFormed st -> WellFormed (submitMaterial name len st).
Proof.
  intros W. unfold submitMaterial. destruct len as [len|]; auto.
  destruct (String.eqb_spec name "") as [|Hname]; cbn [orb]; auto.
  destruct (Z.leb_spec len 0) as [|Hlen]; auto.
  pose proof (minted_fresh st W) as Hfresh.
  destruct W as [Wc Wi Wm Ws Wl Wr].
  unfold nextId, addMaterial. cbn [idCounter step materials demands].
  constructor; cbn [idCounter step materials demands].
  - lia.
  - rewrite map_app. cbn [map Material.id]. rewrite <- app_assoc. cbn [List.app].
    apply NoDup_app_inv in Wi as (Wa & Wb & Wd).
    apply NoDup_app; auto.
    + constructor; auto. intros Hin. apply Hfresh. apply in_or_app. now right.
    + intros a Ha [<-|Hb]; [|now apply (Wd a)].
      apply Hfresh. apply in_or_app. now left.
  - intros i Hi. rewrite map_app in Hi. cbn [map Material.id] in Hi.
    rewrite <- app_assoc in Hi. cbn [List.app] in Hi.
    apply in_app_or in Hi as [Hi|[<-|Hi]].
    + apply minted_step, Wm, in_or_app. now left.
    + exists (idCounter st + 1). split; [lia|reflexivity].
    + apply minted_step, Wm, in_or_app. now right.
  - intros m Hm. apply in_app_or in Hm as [Hm|[<-|[]]]; [now apply Ws|].
    cbn [Material.stockLengthMm Material.name]. split; assumption.
  - exact Wl.
  - intros d Hd. rewrite map_app. apply in_or_app. left. now apply Wr.
Qed.

Lemma addLoop_WellFormed cnt project materialId lengthMm : forall st,
  0 < lengthMm -> project <> "" ->
  In materialId (map Material.id (materials st)) ->
  WellFormed st -> WellFormed (addLoop cnt project materialId lengthMm st).
Proof.
  induction cnt as [|n IH]; intros st Hlen Hproj Hmat W; cbn [addLoop]; auto.
  unfold nextId. apply IH; auto.
  pose proof (minted_fresh st W) as Hfresh.
  destruct W as [Wc Wi Wm Ws Wl Wr].
  unfold addDemand. cbn [idCounter step materials demands].
  constructor; cbn [idCounter step materials demands].
  - lia.
  - rewrite map_app. cbn [map Demand.id]. rewrite app_assoc.
    apply NoDup_app; auto.
    + repeat constructor. intros [].
    + intros a Ha [<-|[]]. now apply Hfresh.
  - intros i Hi. rewrite map_app, app_assoc in Hi. cbn [map Demand.id] in Hi.
    apply in_app_or in Hi as [Hi|[<-|[]]].
    + now apply minted_step, Wm.
    + exists (idCounter st + 1). split; [lia|reflexivity].
  - exact Ws.
  - intros d Hd. apply in_app_or in Hd as [Hd|[<-|[]]]; [now apply Wl|].
    cbn [Demand.lengthMm Demand.project]. split; assumption.
  - intros d Hd. apply in_app_or in Hd as [Hd|[<-|[]]]; [now apply Wr|].
    exact Hmat.
Qed.

Lemma submitDemand_WellFormed project materialId lengthMm cnt st :
  materialId = "" \/ In materialId (map Material.id (materials st)) ->
  WellFormed st -> WellFormed (submitDemand project materialId lengthMm cnt st).
Proof.
  intros Hsel W. unfold submitDemand.
  destruct lengthMm as [lengthMm|], cnt as [cnt|]; auto.
  destruct (String.eqb_spec project "") as [|Hp]; cbn [orb]; auto.
  destruct (String.eqb_spec materialId "") as [|Hm]; cbn [orb]; auto.
  destruct (Z.leb_spec lengthMm 0) as [|Hl]; cbn [orb]; auto.
  destruct (cnt <? 1); auto.
  apply addLoop_WellFormed; auto. destruct Hsel; [contradiction|assumption].
Qed.

Lemma deleteMaterial_WellFormed id st : WellFormed st -> WellFormed (deleteMaterial id st).
Proof.
  intros [Wc Wi Wm Ws Wl Wr]. unfold deleteMaterial.
  constructor; cbn [idCounter step materials demands]; auto.
  - apply NoDup_app_inv in Wi as (Wa & Wb & Wd).
    apply NoDup_app; try now apply NoDup_map_filter.
    intros a Ha Hb. apply (Wd a); eapply in_map_filter; eauto.
  - intros i Hi. apply Wm. apply in_app_or in Hi as [Hi|Hi]; apply in_or_app;
      [left|right]; eapply in_map_filter; eauto.
  - intros m Hm. apply filter_In in Hm as [Hm _]. auto.
  - intros d Hd. apply filter_In in Hd as [Hd _]. auto.
  - intros d Hd. apply filter_In in Hd as [Hd Hne].
    specialize (Wr d Hd). apply in_map_iff in Wr as (m & E & Hm).
    apply in_map_iff. exists m. split; auto. apply filter_In. split; auto.
    now rewrite E.
Qed.

Lemma deleteGroup_WellFormed ids st : WellFormed st -> WellFormed (deleteGroup ids st).
Proof.
  intros [Wc Wi Wm Ws Wl Wr]. unfold deleteGroup.
  constructor; cbn [idCounter step materials demands]; auto.
  - apply NoDup_app_inv in Wi as (Wa & Wb & Wd).
    apply NoDup_app; auto; try now apply NoDup_map_filter.
    intros a Ha Hb. apply (Wd a); auto. eapply in_map_filter; eauto.
  - intros i Hi. apply Wm. apply in_app_or in Hi as [Hi|Hi]; apply in_or_app;
      [now left|right]. eapply in_map_filter; eauto.
  - intros d Hd. apply filter_In in Hd as [Hd _]. auto.
  - intros d Hd. apply filter_In in Hd as [Hd _]. auto.
Qed.

Lemma clearDemands_WellFormed st : WellFormed st -> WellFormed (clearDemands st).
Proof.
  intros [Wc Wi Wm Ws Wl Wr]. unfold clearDemands.
  constructor; cbn [idCounter step materials demands map]; auto; try tauto.
  - rewrite app_nil_r. apply NoDup_app_inv in Wi. tauto.
  - intros i Hi. apply Wm. rewrite app_nil_r in Hi. apply in_or_app. now left.
  - intros d [].
  - intros d [].
Qed.

Lemma goToStep_WellFormed s st : WellFormed st -> WellFormed (goToStep s st).
Proof.
  intros W. unfold goToStep. destruct (_ && _); auto.
  destruct W. constructor; auto.
Qed.

Lemma handle_WellFormed e st : offered e st -> WellFormed st -> WellFormed (handle e st).
Proof.
  destruct e; cbn [handle offered]; intros Ho W.
  - now apply submitMaterial_WellFormed.
  - now apply deleteMaterial_WellFormed.
  - now apply submitDemand_WellFormed.
  - now apply deleteGroup_WellFormed.
  - now apply clearDemands_WellFormed.
  - now apply goToStep_WellFormed.
Qed.

Lemma Reachable_WellFormed st : Reachable st -> WellFormed st.
Proof.
  induction 1 as [|e st _ IH Ho]; [apply WellFormed_initial|now apply handle_WellFormed].
Qed.

(** ** The plan as a list of entries *)

Lemma Map_set_absent {V : Type} k (v : V) m :
  Map_get k m = None -> Map_set k v m = m ++ [(k, v)].
Proof.
  induction m as [|[k' v'] m IH]; simpl; auto.
  destruct (String.eqb k k'); [discriminate|]. intros H. now rewrite IH.
Qed.

Lemma Map_set_present {V : Type} k (v v' : V) m :
  Map_get k m = Some v ->
  exists m1 m2, m = m1 ++ (k, v) :: m2 /\ Map_set k v' m = m1 ++ (k, v') :: m2.
Proof.
  induction m as [|[k0 v0] m IH]; simpl; [discriminate|].
  destruct (String.eqb_spec k k0) as [->|Hk].
  - intros [= ->]. exists [], m. auto.
  - intros H. destruct (IH H) as (m1 & m2 & -> & E).
    exists ((k0, v0) :: m1), m2. simpl. now rewrite E.
Qed.

Lemma Map_from_keys {V : Type} (m : list (string * V)) (f : string -> V) :
  NoDup (Map_keys m) ->
  (forall k, In k (Map_keys m) -> Map_get k m = Some (f k)) ->
  m = map (fun k => (k, f k)) (Map_keys m).
Proof.
  induction m as [|[k v] m IH]; intros Hnd Hf; [reflexivity|].
  inversion Hnd as [|? ? Hk Hnd']; subst. cbn [Map_keys map fst].
  pose proof (Hf k (or_introl eq_refl)) as E. simpl in E.
  rewrite String.eqb_refl in E. inversion E as [E']. rewrite <- E'. f_equal.
  apply IH; auto. intros k' Hk'.
  specialize (Hf k' (or_intror Hk')). simpl in Hf.
  destruct (String.eqb_spec k' k) as [E2|]; [|assumption].
  exfalso. apply Hk. now rewrite <- E2.
Qed.

Lemma Object_set_absent {V : Type} k (v : V) m :
  Map_get k m = None -> Object_set k v m = m ++ Object_set k v [].
Proof.
  intros H. unfold Object_set. destruct (String.eqb k "__proto__").
  - now rewrite app_nil_r.
  - now apply Map_set_absent.
Qed.

Lemma planStep_fold_entries mm es : forall plan,
  NoDup (Map_keys es) ->
  (forall k, In k (Map_keys es) -> Map_get k plan = None) ->
  fold_left (planStep mm) es plan = plan ++ flat_map (entryOf mm) es.
Proof.
  induction es as [|[k0 p0] es IH]; intros plan Hnd Hfresh; cbn [fold_left flat_map].
  - now rewrite app_nil_r.
  - inversion Hnd as [|? ? Hk0 Hnd']; subst.
    assert (E : planStep mm plan (k0, p0) = plan ++ entryOf mm (k0, p0)).
    { unfold planStep, entryOf. cbn [fst snd]. destruct (Map_get k0 mm).
      - apply Object_set_absent. apply Hfresh. now left.
      - now rewrite app_nil_r. }
    rewrite IH, E, <- app_assoc; auto.
    intros k Hk. rewrite planStep_get.
    assert (Hp : Map_get k plan = None) by (apply Hfresh; now right).
    destruct (Map_get k0 mm); [|assumption].
    destruct (String.eqb_spec k k0) as [->|Hne]; [contradiction|assumption].
Qed.

Lemma optimize_entries materials demands :
  optimize materials demands
  = flat_map (entryOf (materialMapOf materials)) (groupDemands demands).
Proof.
  unfold optimize. rewrite planStep_fold_entries; auto using groupDemands_NoDup.
Qed.

Lemma groupDemands_keys ds :
  Map_keys (groupDemands ds) = firstSeen (map Demand.materialId ds).
Proof.
  induction ds as [|d ds IH] using rev_ind; [reflexivity|].
  rewrite groupDemands_snoc, map_app. cbn [map]. rewrite firstSeen_snoc.
  unfold groupStep. rewrite Map_keys_set, IH, groupDemands_get.
  destruct (filter (forMaterial (Demand.materialId d)) ds) as [|d0 l] eqn:E; cbn [nonEmpty].
  - destruct (existsb _ _) eqn:H; [|reflexivity].
    apply existsb_eqb_in, in_map_iff in H as (q & Hq & Hin).
    assert (F : In q (filter (forMaterial (Demand.materialId d)) ds)).
    { apply filter_In. split; auto. unfold forMaterial. now apply String.eqb_eq. }
    rewrite E in F. destruct F.
  - assert (F : In d0 (filter (forMaterial (Demand.materialId d)) ds))
      by (rewrite E; now left).
    apply filter_In in F as [Hin Hq]. apply String.eqb_eq in Hq.
    assert (H : existsb (String.eqb (Demand.materialId d)) (map Demand.materialId ds) = true).
    { apply existsb_eqb_in. rewrite <- Hq. now apply in_map. }
    now rewrite H.
Qed.

Lemma firstSeen_in x l : In x (firstSeen l) <-> In x l.
Proof.
  induction l as [|y l IH]; simpl; [tauto|]. split.
  - intros [->|H]; auto. apply filter_In in H as [H _]. right. now apply IH.
  - intros [->|H]; auto.
    destruct (String.eqb_spec x y) as [->|Hne]; auto.
    right. apply filter_In. split; [now apply IH|].
    destruct (String.eqb_spec x y); [contradiction|reflexivity].
Qed.

Lemma groupDemands_structure ds :
  groupDemands ds
  = map (fun k => (k, filter (forMaterial k) ds)) (firstSeen (map Demand.materialId ds)).
Proof.
  rewrite <- groupDemands_keys. apply Map_from_keys; [apply groupDemands_NoDup|].
  intros k Hk. rewrite groupDemands_get.
  rewrite groupDemands_keys in Hk. apply firstSeen_in, in_map_iff in Hk as (d & E & Hd).
  assert (F : In d (filter (forMaterial k) ds)).
  { apply filter_In. split; auto. unfold forMaterial. now apply String.eqb_eq. }
  destruct (filter (forMaterial k) ds); [destruct F|reflexivity].
Qed.

(** ** What holds in every state of the app *)

Lemma WellFormed_demand_ids st : WellFormed st -> NoDup (map Demand.id (demands st)).
Proof. intros W. pose proof (wf_ids st W) as H. apply NoDup_app_inv in H. tauto. Qed.

Lemma WellFormed_material_numeral st d :
  WellFormed st -> In d (demands st) ->
  exists k, 0 < k <= idCounter st /\ Demand.materialId d = numberToString k.
Proof.
  intros W Hd. apply (wf_minted st W). apply in_or_app. left. now apply (wf_material st W).
Qed.

Lemma WellFormed_material_plain st d :
  WellFormed st -> In d (demands st) ->
  String.eqb (Demand.materialId d) "__proto__" = false.
Proof.
  intros W Hd. destruct (WellFormed_material_numeral st d W Hd) as (n & _ & ->).
  apply numberToString_not_proto.
Qed.

(** X2: in every state that the handlers of App can produce from the empty
    one, with demands submitted for a material of the select, material ids
    and demand ids are pairwise distinct numerals, stock and demand lengths
    are positive, names and projects are not empty, and every demand names
    one of the current materials. *)
Theorem app_inputs_stay_well_formed st :
  Reachable st ->
  NoDup (map Material.id (materials st) ++ map Demand.id (demands st)) /\
  (forall m, In m (materials st) ->
             0 < Material.stockLengthMm m /\ Material.name m <> "" /\
             lacks "|" (Material.id m) = true) /\
  (forall d, In d (demands st) ->
             0 < Demand.lengthMm d /\ Demand.project d <> "" /\
             exists m, In m (materials st) /\ Material.id m = Demand.materialId d).
Proof.
  intros R. pose proof (Reachable_WellFormed st R) as W.
  split; [apply (wf_ids st W)|]. split.
  - intros m Hm. destruct (wf_stock st W m Hm) as [Hs Hn]. repeat split; auto.
    destruct (wf_minted st W (Material.id m)) as (k & _ & ->).
    + apply in_or_app. left. now apply in_map.
    + now apply numberToString_lacks.
  - intros d Hd. destruct (wf_length st W d Hd) as [Hl Hp]. repeat split; auto.
    pose proof (wf_material st W d Hd) as Hm.
    apply in_map_iff in Hm as (m & E & Hm). eauto.
Qed.

Lemma app_inputs_stay_well_formed_witness :
  NoDup (map Material.id
           (materials (handle (SubmitDemand "P" "1" (Some 2500) (Some 3))
                         (handle (SubmitMaterial "M" (Some 6000)) initialApp)))
         ++ map Demand.id
              (demands (handle (SubmitDemand "P" "1" (Some 2500) (Some 3))
                          (handle (SubmitMaterial "M" (Some 6000)) initialApp)))).
Proof.
  apply (app_inputs_stay_well_formed
           (handle (SubmitDemand "P" "1" (Some 2500) (Some 3))
              (handle (SubmitMaterial "M" (Some 6000)) initialApp))).
  apply ReachHandle; [apply ReachHandle; [apply ReachInitial|exact I]|].
  right. left. reflexivity.
Defined.

Lemma app_aggregates_by_triple_aux st :
  WellFormed st ->
  aggregateDemands (demands st)
  = map (groupOfTriple (demands st)) (firstOfTriple (demands st)).
Proof.
  intros W. apply aggregateDemands_by_triple. intros d Hd.
  destruct (WellFormed_material_numeral st d W Hd) as (n & _ & ->).
  now apply numberToString_lacks.
Qed.

(** X3: in every such state [aggregateDemands] groups the demands by
    (materialId, project, lengthMm): one group per triple in first-seen
    order, with the number and the ids of the demands of the triple. *)
Theorem app_aggregates_by_triple st :
  Reachable st ->
  aggregateDemands (demands st)
  = map (groupOfTriple (demands st)) (firstOfTriple (demands st)).
Proof.
  intros R. pose proof (Reachable_WellFormed st R) as W.
  apply aggregateDemands_by_triple. intros d Hd.
  destruct (WellFormed_material_numeral st d W Hd) as (k & _ & ->).
  now apply numberToString_lacks.
Qed.

Lemma app_aggregates_by_triple_witness :
  aggregateDemands
    (demands (handle (SubmitDemand "P" "1" (Some 2500) (Some 3))
                (handle (SubmitMaterial "M" (Some 6000)) initialApp)))
  = map (groupOfTriple
           (demands (handle (SubmitDemand "P" "1" (Some 2500) (Some 3))
                       (handle (SubmitMaterial "M" (Some 6000)) initialApp))))
        (firstOfTriple
           (demands (handle (SubmitDemand "P" "1" (Some 2500) (Some 3))
                       (handle (SubmitMaterial "M" (Some 6000)) initialApp)))).
Proof.
  apply (app_aggregates_by_triple
           (handle (SubmitDemand "P" "1" (Some 2500) (Some 3))
              (handle (SubmitMaterial "M" (Some 6000)) initialApp))).
  apply ReachHandle; [apply ReachHandle; [apply ReachInitial|exact I]|].
  right. left. reflexivity.
Defined.

(** X4: in every such state the plan has an entry for the material of every
    demand, and each demand is either a cut of exactly one pipe or one of
    the too long pieces, never both and never neither. *)
Theorem app_demands_placed_or_too_long st d :
  Reachable st -> In d (demands st) ->
  In (Demand.materialId d) (Map_keys (optimize (materials st) (demands st))) /\
  ((count_occ Demand_eq_dec (planCuts (optimize (materials st) (demands st))) d = 1%nat /\
    List.length (filter (holds d) (planPipes (optimize (materials st) (demands st)))) = 1%nat /\
    ~ In d (filter (tooLong (materialMapOf (materials st))) (demands st)))
   \/
   (~ In d (planCuts (optimize (materials st) (demands st))) /\
    In d (filter (tooLong (materialMapOf (materials st))) (demands st)))).
Proof.
  intros R Hd. pose proof (Reachable_WellFormed st R) as W.
  assert (Hm : exists mat, Map_get (Demand.materialId d) (materialMapOf (materials st))
                           = Some mat).
  { apply materialMapOf_known. pose proof (wf_material st W d Hd) as H.
    apply in_map_iff in H as (m & E & Hm). eauto. }
  destruct Hm as [mat Hm]. split.
  - apply Map_key_get. rewrite optimize_get, Hm, (WellFormed_material_plain st d W Hd).
    destruct (proj2 (groupDemands_known (Demand.materialId d) (demands st))) as [pieces ->];
      eauto.
  - pose proof (plan_count (materials st) (demands st) d (WellFormed_demand_ids st W) Hd)
      as Hc.
    rewrite Hm, (WellFormed_material_plain st d W Hd) in Hc.
    cbn [negb] in Hc. rewrite andb_true_r in Hc. unfold fits in Hc.
    destruct (Material.stockLengthMm mat - FIXED_WASTE <? Demand.lengthMm d) eqn:El;
      cbn [negb] in Hc.
    + right. split; [now apply (count_occ_not_In Demand_eq_dec)|].
      apply filter_In. split; auto. unfold tooLong. now rewrite Hm.
    + left. split; auto. split; [now apply holds_once|].
      intros H. apply filter_In in H as [_ H]. unfold tooLong in H.
      rewrite Hm in H. congruence.
Qed.

Lemma app_demands_placed_or_too_long_witness :
  In (Demand.materialId (Demand.mk "2" "P" "1" 2500))
     (Map_keys (optimize
                  (materials (handle (SubmitDemand "P" "1" (Some 2500) (Some 1))
                                (handle (SubmitMaterial "M" (Some 6000)) initialApp)))
                  (demands (handle (SubmitDemand "P" "1" (Some 2500) (Some 1))
                              (handle (SubmitMaterial "M" (Some 6000)) initialApp))))).
Proof.
  apply (app_demands_placed_or_too_long
           (handle (SubmitDemand "P" "1" (Some 2500) (Some 1))
              (handle (SubmitMaterial "M" (Some 6000)) initialApp))
           (Demand.mk "2" "P" "1" 2500)).
  - apply ReachHandle; [apply ReachHandle; [apply ReachInitial|exact I]|].
    right. left. reflexivity.
  - left. reflexivity.
Defined.

(** ** The plan, material by material *)

Lemma filter_absorb {A : Type} (p q : A -> bool) l :
  (forall x, p x = true -> q x = true) -> filter p (filter q l) = filter p l.
Proof.
  intros H. induction l as [|x l IH]; simpl; auto.
  destruct (q x) eqn:Q, (p x) eqn:P; simpl; rewrite ?P, ?IH; auto.
  apply H in P. congruence.
Qed.

Lemma find_filter {A : Type} (p q : A -> bool) l :
  (forall x, p x = true -> q x = true) -> find p (filter q l) = find p l.
Proof.
  intros H. induction l as [|x l IH]; simpl; auto.
  destruct (q x) eqn:Q, (p x) eqn:P; simpl; rewrite ?P, ?IH; auto.
  apply H in P. congruence.
Qed.

Lemma filter_swap {A : Type} (p q : A -> bool) l :
  filter p (filter q l) = filter q (filter p l).
Proof.
  induction l as [|x l IH]; simpl; auto.
  destruct (q x) eqn:Q, (p x) eqn:P; simpl; rewrite ?P, ?Q, ?IH; auto.
Qed.

Lemma firstSeen_filter (p : string -> bool) l :
  firstSeen (filter p l) = filter p (firstSeen l).
Proof.
  induction l as [|x l IH]; [reflexivity|].
  cbn [filter firstSeen]. destruct (p x) eqn:P; cbn [firstSeen filter]; rewrite ?P.
  - rewrite IH. f_equal. apply filter_swap.
  - rewrite IH. symmetry. apply filter_absorb.
    intros y Hy. destruct (String.eqb_spec y x) as [->|]; [congruence|reflexivity].
Qed.

(** X5: the plan lists the materials in the order in which they first
    appear among the demands; each known material has one entry ([entryFor]),
    the packing of exactly its own demands, except that a material called
    [__proto__] has none; unknown materials have none. *)
Theorem plan_entries_in_first_seen_order materials demands :
  optimize materials demands
  = flat_map (entryFor (materialMapOf materials) demands)
             (firstSeen (map Demand.materialId demands)) /\
  (forall k, Map_get k (optimize materials demands)
             = Map_get k (optimize materials (filter (forMaterial k) demands))) /\
  (forall k mat,
      k <> "__proto__" -> In k (map Demand.materialId demands) ->
      Map_get k (materialMapOf materials) = Some mat ->
      entryFor (materialMapOf materials) demands k
      = [(k, packMaterial mat (filter (forMaterial k) demands))]) /\
  (forall k, Map_get k (materialMapOf materials) = None ->
             entryFor (materialMapOf materials) demands k = []) /\
  entryFor (materialMapOf materials) demands "__proto__" = [].
Proof.
  split; [|split; [|split; [|split]]].
  - rewrite optimize_entries, groupDemands_structure, flat_map_concat_map, map_map.
    now rewrite <- flat_map_concat_map.
  - intros k. rewrite !optimize_get, !groupDemands_get.
    rewrite (filter_absorb (forMaterial k) (forMaterial k)); auto.
  - intros k mat Hk _ Hm. unfold entryFor, Object_set. rewrite Hm.
    now destruct (String.eqb_spec k "__proto__").
  - intros k Hm. unfold entryFor. now rewrite Hm.
  - unfold entryFor, Object_set. now destruct (Map_get _ _).
Qed.

Lemma entryFor_after_delete (ms : list Material.t) (ds : list Demand.t) id k :
  k <> id ->
  entryFor (materialMapOf (filter (fun m => negb (String.eqb (Material.id m) id)) ms))
           (filter (fun d => negb (String.eqb (Demand.materialId d) id)) ds) k
  = entryFor (materialMapOf ms) ds k.
Proof.
  intros Hk. unfold entryFor. rewrite !materialMapOf_get, <- filter_rev.
  rewrite find_filter.
  - rewrite filter_absorb; auto.
    intros d Hd. unfold forMaterial in Hd. apply String.eqb_eq in Hd. rewrite Hd.
    destruct (String.eqb_spec k id); [contradiction|reflexivity].
  - intros m Hm. apply String.eqb_eq in Hm. rewrite Hm.
    destruct (String.eqb_spec k id); [contradiction|reflexivity].
Qed.

(** X6: deleting a material removes its entry from the plan and leaves the
    entries of all other materials as they were. *)
Theorem deleteMaterial_removes_its_entry id st :
  optimize (materials (deleteMaterial id st)) (demands (deleteMaterial id st))
  = filter (otherKey id) (optimize (materials st) (demands st)).
Proof.
  unfold deleteMaterial. cbn [materials demands].
  rewrite !optimize_entries, !groupDemands_structure, !flat_map_concat_map, !map_map.
  rewrite <- !flat_map_concat_map.
  change (fun x : string => entryOf ?mm (x, filter (forMaterial x) ?ds))
    with (entryFor mm ds).
  assert (E : map Demand.materialId
                 (filter (fun d => negb (String.eqb (Demand.materialId d) id)) (demands st))
               = filter (fun k => negb (String.eqb k id))
                        (map Demand.materialId (demands st))).
  { symmetry. apply (filter_map_swap (fun k => negb (String.eqb k id))). }
  rewrite E, firstSeen_filter. clear E.
  induction (firstSeen (map Demand.materialId (demands st))) as [|k l IH];
    [reflexivity|].
  cbn [filter flat_map]. rewrite filter_app, <- IH.
  destruct (String.eqb_spec k id) as [->|Hk]; cbn [negb flat_map].
  - unfold entryFor at 2, Object_set.
    destruct (Map_get id _); cbn [filter List.app]; auto.
    destruct (String.eqb id "__proto__"); cbn [Map_set filter List.app]; auto.
    unfold otherKey. cbn [fst]. now rewrite String.eqb_refl.
  - rewrite entryFor_after_delete by auto. f_equal.
    unfold entryFor, Object_set. destruct (Map_get k _); cbn [filter]; auto.
    destruct (String.eqb k "__proto__"); cbn [Map_set filter]; auto.
    unfold otherKey. cbn [fst].
    destruct (String.eqb_spec k id); [contradiction|reflexivity].
Qed.

(** ** Aggregation keeps every demand *)

Lemma aggregate_ids_perm ds :
  Permutation (flat_map AggregatedDemand.ids (Map_values (fold_left aggregateStep ds [])))
              (map Demand.id ds).
Proof.
  induction ds as [|d ds IH] using rev_ind; [reflexivity|].
  rewrite aggregate_snoc, map_app. cbn [map].
  set (m := fold_left aggregateStep ds []) in *. unfold aggregateStep.
  destruct (Map_get (keyOf d) m) as [g|] eqn:E.
  - destruct (Map_set_present (keyOf d) g
                (AggregatedDemand.mk (AggregatedDemand.key g) (AggregatedDemand.project g)
                   (AggregatedDemand.materialId g) (AggregatedDemand.lengthMm g)
                   (AggregatedDemand.count g + 1)
                   (AggregatedDemand.ids g ++ [Demand.id d])) m E)
      as (m1 & m2 & Hm & ->).
    rewrite Hm in IH. unfold Map_values in *. rewrite map_app in *. cbn [map snd] in *.
    rewrite flat_map_app in *. cbn [flat_map AggregatedDemand.ids] in *.
    rewrite <- IH, <- !app_assoc.
    apply Permutation_app_head. apply Permutation_app_head.
    apply Permutation_cons_append.
  - rewrite Map_set_absent by auto. unfold Map_values in *.
    rewrite map_app, flat_map_app. cbn [map snd flat_map AggregatedDemand.ids List.app].
    now apply Permutation_app_tail.
Qed.

Lemma groupOf_fields k l g :
  groupOf k l = Some g ->
  AggregatedDemand.key g = k /\
  AggregatedDemand.count g = Z.of_nat (List.length l) /\
  AggregatedDemand.ids g = map Demand.id l /\
  exists d rest, l = d :: rest /\
    AggregatedDemand.project g = Demand.project d /\
    AggregatedDemand.materialId g = Demand.materialId d /\
    AggregatedDemand.lengthMm g = Demand.lengthMm d.
Proof.
  destruct l as [|d rest]; [discriminate|]. cbn [groupOf]. intros [= <-].
  cbn. repeat split; eauto 10.
Qed.

Lemma totalCount_lengths groups :
  (forall g, In g groups ->
             AggregatedDemand.count g = Z.of_nat (List.length (AggregatedDemand.ids g))) ->
  totalCount groups = Z.of_nat (List.length (flat_map AggregatedDemand.ids groups)).
Proof.
  induction groups as [|g groups IH]; intros H; [reflexivity|].
  cbn [totalCount fold_right flat_map]. fold (totalCount groups).
  rewrite length_app, Nat2Z.inj_add, IH.
  - rewrite (H g) by now left. reflexivity.
  - intros g0 H0. apply H. now right.
Qed.

(** X7: aggregation loses no demand, whatever the ids and labels are: the
    counts of the groups add up to the number of demands, the ids of the
    groups together are the ids of the demands, and every group carries the
    key, project, material and length of the first demand that has its key,
    with as many ids as its count says. *)
Theorem aggregate_keeps_every_demand ds :
  totalCount (aggregateDemands ds) = Z.of_nat (List.length ds) /\
  Permutation (flat_map AggregatedDemand.ids (aggregateDemands ds)) (map Demand.id ds) /\
  forall g, In g (aggregateDemands ds) ->
    0 < AggregatedDemand.count g /\
    AggregatedDemand.count g = Z.of_nat (List.length (AggregatedDemand.ids g)) /\
    exists d rest,
      filter (withKey (AggregatedDemand.key g)) ds = d :: rest /\
      AggregatedDemand.key g = keyOf d /\
      AggregatedDemand.project g = Demand.project d /\
      AggregatedDemand.materialId g = Demand.materialId d /\
      AggregatedDemand.lengthMm g = Demand.lengthMm d /\
      AggregatedDemand.ids g = map Demand.id (d :: rest).
Proof.
  assert (Hg : forall g, In g (aggregateDemands ds) ->
    0 < AggregatedDemand.count g /\
    AggregatedDemand.count g = Z.of_nat (List.length (AggregatedDemand.ids g)) /\
    exists d rest,
      filter (withKey (AggregatedDemand.key g)) ds = d :: rest /\
      AggregatedDemand.key g = keyOf d /\
      AggregatedDemand.project g = Demand.project d /\
      AggregatedDemand.materialId g = Demand.materialId d /\
      AggregatedDemand.lengthMm g = Demand.lengthMm d /\
      AggregatedDemand.ids g = map Demand.id (d :: rest)).
  { intros g Hin. apply aggregateDemands_in in Hin as [k Hk].
    destruct (groupOf_fields _ _ _ Hk) as (Ek & Ec & Ei & d & rest & El & Ep & Em & Elen).
    rewrite Ec, Ei, length_map, Ek, El. cbn [List.length]. split; [lia|]. split; [reflexivity|].
    exists d, rest. repeat split; auto.
    assert (F : In d (filter (withKey k) ds)) by (rewrite El; now left).
    apply filter_In in F as [_ F]. unfold withKey in F. apply String.eqb_eq in F. congruence. }
  pose proof (aggregate_ids_perm ds) as Hp. fold (aggregateDemands ds) in Hp.
  split; [|split; auto].
  rewrite totalCount_lengths by (intros g H; apply Hg, H).
  now rewrite (Permutation_length Hp), length_map.
Qed.

(** ** Deleting a row of the demand table *)

Lemma map_Some_inj {A : Type} (l1 l2 : list A) : map Some l1 = map Some l2 -> l1 = l2.
Proof.
  revert l2. induction l1 as [|x l1 IH]; intros [|y l2] H; try discriminate; auto.
  simpl in H. inversion H. f_equal. auto.
Qed.

Lemma filter_groups_by_key (G : string -> option AggregatedDemand.t) k K : forall L,
  map Some L = map G K ->
  (forall k' g, G k' = Some g -> AggregatedDemand.key g = k') ->
  map Some (filter (otherGroup k) L)
  = map G (filter (fun k' => negb (String.eqb k' k)) K).
Proof.
  induction K as [|k' K IH]; intros [|g L] H Hkey; try discriminate; [reflexivity|].
  cbn [map] in H. inversion H as [[Hg HL]]. cbn [filter]. unfold otherGroup at 1.
  rewrite (Hkey k' g) by auto.
  destruct (String.eqb k' k); cbn [negb map]; rewrite IH; auto. now rewrite Hg.
Qed.

Lemma aggregate_without_key ds k :
  aggregateDemands (filter (fun d => negb (withKey k d)) ds)
  = filter (otherGroup k) (aggregateDemands ds).
Proof.
  apply map_Some_inj.
  rewrite (filter_groups_by_key
             (fun k' => groupOf k' (filter (withKey k') ds)) k (firstSeen (map keyOf ds))).
  - rewrite aggregateDemands_by_key.
    assert (E : map keyOf (filter (fun d => negb (withKey k d)) ds)
                = filter (fun k' => negb (String.eqb k' k)) (map keyOf ds)).
    { symmetry. apply (filter_map_swap (fun k' => negb (String.eqb k' k))). }
    rewrite E, firstSeen_filter. apply map_ext_in.
    intros k' Hk'. apply filter_In in Hk' as [_ Hk']. f_equal.
    apply filter_absorb. intros d Hd. unfold withKey in *.
    apply String.eqb_eq in Hd. now rewrite Hd.
  - apply aggregateDemands_by_key.
  - intros k' g Hg. now apply groupOf_fields in Hg.
Qed.

(** X8: with distinct demand ids, deleting the demands of a row of the
    aggregated table, as its delete button does, removes that row and leaves
    every other row as it was. *)
Theorem deleteGroup_removes_its_row st g :
  NoDup (map Demand.id (demands st)) ->
  In g (aggregateDemands (demands st)) ->
  aggregateDemands (demands (deleteGroup (AggregatedDemand.ids g) st))
  = filter (otherGroup (AggregatedDemand.key g)) (aggregateDemands (demands st)) /\
  ~ In g (aggregateDemands (demands (deleteGroup (AggregatedDemand.ids g) st))) /\
  List.length (demands (deleteGroup (AggregatedDemand.ids g) st))
  = (List.length (demands st) - List.length (AggregatedDemand.ids g))%nat.
Proof.
  intros Hnd Hg. pose proof Hg as Hg0. apply aggregateDemands_in in Hg as [k Hk].
  destruct (groupOf_fields _ _ _ Hk) as (Ek & _ & Ei & _).
  unfold deleteGroup. cbn [demands].
  assert (E : filter (fun d => negb (existsb (String.eqb (Demand.id d)) (AggregatedDemand.ids g)))
                     (demands st)
              = filter (fun d => negb (withKey k d)) (demands st)).
  { apply filter_ext_in. intros d Hd. f_equal. rewrite Ei.
    destruct (withKey k d) eqn:W.
    - apply existsb_eqb_in. apply in_map. apply filter_In. auto.
    - destruct (existsb _ _) eqn:X; auto.
      apply existsb_eqb_in, in_map_iff in X as (d' & Eid & Hd').
      apply filter_In in Hd' as [Hd' W'].
      assert (d' = d) by (eapply NoDup_map_eq; eauto). subst. congruence. }
  rewrite E, Ek, aggregate_without_key. split; [reflexivity|]. split.
  - intros H. apply filter_In in H as [_ H]. unfold otherGroup in H.
    rewrite Ek, String.eqb_refl in H. discriminate.
  - rewrite Ei, length_map.
    assert (L : forall (p : Demand.t -> bool) l,
               (List.length (filter (fun d => negb (p d)) l)
                + List.length (filter p l))%nat = List.length l).
    { intros p l. induction l as [|x l IH]; simpl; auto.
      destruct (p x); simpl; lia. }
    specialize (L (withKey k) (demands st)). lia.
Qed.

Lemma deleteGroup_removes_its_row_witness :
  aggregateDemands
    (demands (deleteGroup ["1"; "2"]
                (mkApp 3 2 [Material.mk "9" "M" 6000]
                   [Demand.mk "1" "X" "9" 1000; Demand.mk "2" "X" "9" 1000;
                    Demand.mk "3" "Y" "9" 1000])))
  = filter (otherGroup "9|X|1000")
      (aggregateDemands
         [Demand.mk "1" "X" "9" 1000; Demand.mk "2" "X" "9" 1000;
          Demand.mk "3" "Y" "9" 1000]).
Proof.
  apply (deleteGroup_removes_its_row
           (mkApp 3 2 [Material.mk "9" "M" 6000]
              [Demand.mk "1" "X" "9" 1000; Demand.mk "2" "X" "9" 1000;
               Demand.mk "3" "Y" "9" 1000])
           (AggregatedDemand.mk "9|X|1000" "X" "9" 1000 2 ["1"; "2"])).
  - repeat constructor; simpl; intuition discriminate.
  - left. reflexivity.
Defined.

(** ** Project colours *)

Lemma firstSeen_NoDup l : NoDup (firstSeen l).
Proof.
  induction l as [|x l IH]; simpl; constructor.
  - intros H. apply filter_In in H as [_ H]. now rewrite String.eqb_refl in H.
  - now apply NoDup_filter.
Qed.

Lemma colorLoop_entries projects : forall i map,
  NoDup projects ->
  (forall p, In p projects -> Map_get p map = None) ->
  colorLoop projects i map
  = map ++ combine projects (List.map colorAt (seq i (List.length projects))).
Proof.
  induction projects as [|p rest IH]; intros i map Hnd Hfresh; cbn [colorLoop].
  - now rewrite app_nil_r.
  - inversion Hnd as [|? ? Hp Hnd']; subst.
    fold (colorAt i). rewrite IH; auto.
    + rewrite Map_set_absent by (apply Hfresh; now left).
      rewrite <- app_assoc. reflexivity.
    + intros q Hq. rewrite Map_get_set_other; [apply Hfresh; now right|].
      intros ->. contradiction.
Qed.

Lemma Map_get_combine {V : Type} ks : forall (vs : list V) i p,
  NoDup ks -> List.length vs = List.length ks -> nth_error ks i = Some p ->
  Map_get p (combine ks vs) = nth_error vs i.
Proof.
  induction ks as [|k ks IH]; intros [|v vs] i p Hnd Hlen Hi; try discriminate.
  - destruct i; discriminate.
  - inversion Hnd as [|? ? Hk Hnd']; subst. destruct i as [|i]; simpl in *.
    + inversion Hi; subst. now rewrite String.eqb_refl.
    + destruct (String.eqb_spec p k) as [->|].
      * exfalso. apply Hk. eapply nth_error_In; eauto.
      * apply IH; auto.
Qed.

Lemma PROJECT_COLORS_NoDup : NoDup PROJECT_COLORS.
Proof.
  unfold PROJECT_COLORS. repeat constructor; simpl; intuition discriminate.
Qed.

Lemma getProjectColorMap_at demands i p :
  nth_error (firstSeen (map Demand.project demands)) i = Some p ->
  Map_get p (getProjectColorMap demands) = Some (colorAt i).
Proof.
  intros Hi. unfold getProjectColorMap.
  rewrite colorLoop_entries; [|apply firstSeen_NoDup|reflexivity]. cbn [List.app].
  rewrite (Map_get_combine _ _ i p); auto using firstSeen_NoDup.
  - assert (Hlt : (i < List.length (firstSeen (map Demand.project demands)))%nat)
      by (apply nth_error_Some; congruence).
    rewrite nth_error_map, nth_error_seq.
    destruct (Nat.ltb_spec i (List.length (firstSeen (map Demand.project demands))));
      [reflexivity|lia].
  - now rewrite length_map, length_seq.
Qed.

(** X9: every project of a demand gets a colour of the palette, so the grey
    fallback is never used for a cut; the projects are coloured in the order
    in which they first appear, the i-th with palette entry i modulo 15, and
    the first fifteen projects get pairwise different colours. *)
Theorem project_colors demands :
  Map_keys (getProjectColorMap demands) = firstSeen (map Demand.project demands) /\
  (forall i p, nth_error (firstSeen (map Demand.project demands)) i = Some p ->
               Map_get p (getProjectColorMap demands)
               = Some (nth (i mod 15) PROJECT_COLORS "")) /\
  (forall d, In d demands ->
             In (colorOf (getProjectColorMap demands) d) PROJECT_COLORS) /\
  (forall i j p q,
      (i < j < 15)%nat ->
      nth_error (firstSeen (map Demand.project demands)) i = Some p ->
      nth_error (firstSeen (map Demand.project demands)) j = Some q ->
      Map_get p (getProjectColorMap demands) <> Map_get q (getProjectColorMap demands)).
Proof.
  split; [|split; [|split]].
  - unfold getProjectColorMap.
    rewrite colorLoop_entries; [|apply firstSeen_NoDup|reflexivity]. cbn [List.app].
    unfold Map_keys. generalize (firstSeen (map Demand.project demands)).
    intros l. generalize 0%nat.
    induction l as [|x l IH]; intros n; cbn; [reflexivity|]. now rewrite IH.
  - intros i p Hi. now apply getProjectColorMap_at.
  - intros d Hd.
    assert (Hp : In (Demand.project d) (firstSeen (map Demand.project demands)))
      by (apply firstSeen_in; now apply in_map).
    apply In_nth_error in Hp as [i Hi]. unfold colorOf.
    rewrite (getProjectColorMap_at _ _ _ Hi). unfold colorAt. apply nth_In.
    apply Nat.mod_upper_bound. discriminate.
  - intros i j p q Hij Hi Hj.
    rewrite (getProjectColorMap_at _ _ _ Hi), (getProjectColorMap_at _ _ _ Hj).
    unfold colorAt. change (List.length PROJECT_COLORS) with 15%nat.
    rewrite !Nat.mod_small by lia. intros [= E].
    apply (NoDup_nth PROJECT_COLORS "") in E;
      [lia|apply PROJECT_COLORS_NoDup|simpl; lia|simpl; lia].
Qed.

(** ** The bar of a pipe *)

Lemma cut_total_shift cs : forall acc,
  fold_left (fun sum c => sum + Demand.lengthMm c) cs acc
  = acc + fold_left (fun sum c => sum + Demand.lengthMm c) cs 0.
Proof.
  induction cs as [|c cs IH]; intros acc; simpl; [lia|].
  rewrite IH, (IH (Demand.lengthMm c)). lia.
Qed.

Lemma segmentsMm_app s1 s2 : segmentsMm (s1 ++ s2) = segmentsMm s1 + segmentsMm s2.
Proof. induction s1 as [|x s1 IH]; simpl; [reflexivity|]. rewrite IH. lia. Qed.

Lemma cutLoop_total pc n cuts : forall cutIdx segments,
  (cutIdx + List.length cuts)%nat = n ->
  segmentsMm (cutLoop pc n cuts cutIdx segments)
  = segmentsMm segments
    + fold_left (fun sum c => sum + Demand.lengthMm c) cuts 0
    + KERF * Z.of_nat (List.length cuts - 1) /\
  List.length (cutLoop pc n cuts cutIdx segments)
  = (List.length segments + 2 * List.length cuts
     - match cuts with [] => 0 | _ :: _ => 1 end)%nat.
Proof.
  induction cuts as [|cut rest IH]; intros cutIdx segments Hn; cbn [cutLoop].
  - simpl. split; lia.
  - cbn [List.length] in Hn.
    destruct (IH (S cutIdx)
                (if Z.of_nat cutIdx <? Z.of_nat n - 1
                 then (segments ++ [Segment.mk "cut" (Demand.lengthMm cut)
                                      (formatMm (Demand.lengthMm cut))
                                      (Some (colorOf pc cut)) (Some (Demand.project cut))])
                      ++ [Segment.mk "kerf" KERF (numberToString KERF) None None]
                 else segments ++ [Segment.mk "cut" (Demand.lengthMm cut)
                                     (formatMm (Demand.lengthMm cut))
                                     (Some (colorOf pc cut)) (Some (Demand.project cut))]))
      as [IHs IHl]; [lia|].
    rewrite IHs, IHl. cbn [fold_left]. rewrite (cut_total_shift rest (0 + _)).
    destruct (Z.ltb_spec (Z.of_nat cutIdx) (Z.of_nat n - 1)) as [Hlt|Hge].
    + destruct rest as [|c2 rest]; [simpl in Hn; lia|].
      rewrite !segmentsMm_app, !length_app. cbn [segmentsMm fold_right Segment.mm List.length].
      split; [|lia].
      replace (Z.of_nat (S (S (List.length rest)) - 1))
        with (Z.of_nat (S (List.length rest) - 1) + 1) by lia.
      lia.
    + destruct rest as [|c2 rest]; [|simpl in Hn; lia].
      rewrite !segmentsMm_app, !length_app. cbn [segmentsMm fold_right Segment.mm List.length].
      cbn [fold_left]. split; simpl; lia.
Qed.

(** X10: the segments drawn for a pipe of the plan (fixed waste, the cuts
    with a kerf between neighbours, the rest if there is one) add up to the
    stock length of the pipe, so the bar is filled exactly; there are twice
    as many segments as cuts, and one more when something is left. *)
Theorem pipe_bar_fills_the_stock_length materials demands projectColors materialId pipes p :
  In (materialId, pipes) (optimize materials demands) -> In p pipes ->
  segmentsMm (segmentsOf projectColors p) = Pipe.stockLengthMm p /\
  List.length (segmentsOf projectColors p)
  = (2 * List.length (Pipe.cuts p)
     + (if (0 <? Pipe.remainingMm p)%Z then 1 else 0))%nat.
Proof.
  intros Hin Hp. apply optimize_in in Hin as (mat & pieces & _ & _ & -> & _).
  apply packMaterial_in in Hp as (q & _ & [Hc Hs Hu Hr Hl] & ->).
  unfold segmentsOf. cbn [Pipe.cuts Pipe.remainingMm Pipe.stockLengthMm].
  destruct (cutLoop_total projectColors (List.length (Pipe.cuts q)) (Pipe.cuts q) 0
              [Segment.mk "fixed-waste" FIXED_WASTE (numberToString FIXED_WASTE) None None]
              eq_refl) as [Es El].
  fold (cutSum q) in Es.
  assert (Hn : (1 <= List.length (Pipe.cuts q))%nat).
  { destruct (Pipe.cuts q); [congruence|simpl; lia]. }
  assert (Hm : (match Pipe.cuts q with [] => 0 | _ :: _ => 1 end = 1)%nat)
    by (destruct (Pipe.cuts q); congruence).
  rewrite Hm in El. cbn [segmentsMm fold_right Segment.mm List.length] in Es, El.
  destruct (Z.ltb_spec 0 (Pipe.remainingMm q + KERF)) as [Hpos|Hzero].
  - rewrite segmentsMm_app, length_app, Es, El.
    cbn [segmentsMm fold_right Segment.mm List.length].
    split; [|lia]. rewrite Hs. unfold KERF, FIXED_WASTE in *. lia.
  - rewrite Es, El.
    split; [|lia]. rewrite Hs. unfold KERF, FIXED_WASTE in *. lia.
Qed.

Lemma pipe_bar_fills_the_stock_length_witness :
  segmentsMm (segmentsOf [("P", "#3b82f6")]
                (Pipe.mk [Demand.mk "2" "P" "1" 2500; Demand.mk "3" "P" "1" 2500]
                         888 6000 5890))
  = Pipe.stockLengthMm (Pipe.mk [Demand.mk "2" "P" "1" 2500; Demand.mk "3" "P" "1" 2500]
                                888 6000 5890).
Proof.
  apply (pipe_bar_fills_the_stock_length [Material.mk "1" "M" 6000]
           [Demand.mk "2" "P" "1" 2500; Demand.mk "3" "P" "1" 2500] [("P", "#3b82f6")]
           "1"
           [Pipe.mk [Demand.mk "2" "P" "1" 2500; Demand.mk "3" "P" "1" 2500] 888 6000 5890]).
  - left. reflexivity.
  - left. reflexivity.
Defined.

(** ** The order of the cuts in a pipe *)

Lemma Descending_snoc l x :
  Descending l -> (forall c, In c l -> Demand.lengthMm x <= Demand.lengthMm c) ->
  Descending (l ++ [x]).
Proof.
  unfold Descending. induction 1 as [|a l Hl IH Ha]; intros Hx; simpl.
  - repeat constructor.
  - constructor.
    + apply IH. intros c Hc. apply Hx. now right.
    + apply Forall_app. split; auto. constructor; auto. apply Hx. now left.
Qed.

Lemma Placement_Ordered mat usable pipes piece rest pipes' :
  Placement mat usable pipes piece pipes' ->
  Descending (piece :: rest) -> Ordered (piece :: rest) pipes -> Ordered rest pipes'.
Proof.
  intros Hpl Hs Ho. unfold Descending in Hs. apply StronglySorted_inv in Hs as [_ Hrest].
  rewrite Forall_forall in Hrest.
  assert (Hold : forall p, In p pipes ->
            Descending (Pipe.cuts p) /\
            forall c d, In c (Pipe.cuts p) -> In d rest ->
                        Demand.lengthMm d <= Demand.lengthMm c).
  { intros p Hp. destruct (Ho p Hp) as [Hd Hc]. split; auto.
    intros c d Hc' Hd'. apply Hc; auto. now right. }
  destruct Hpl as [Hlong|i p0 Hfit Hn Hle Hmin|Hfit Hnone]; intros q Hq; auto.
  - apply updateAt_in in Hq as [Hq|(p1 & Hn1 & ->)]; auto.
    assert (Hp1 : In p1 pipes) by (eapply nth_error_In; eauto).
    destruct (Ho p1 Hp1) as [Hd Hc]. cbn [addCut Pipe.cuts]. split.
    + apply Descending_snoc; auto. intros c Hc'. apply Hc; auto. now left.
    + intros c d Hc' Hd'. apply in_app_or in Hc' as [Hc'|[<-|[]]].
      * apply Hc; auto. now right.
      * now apply Hrest.
  - apply in_app_or in Hq as [Hq|[<-|[]]]; auto.
    cbn [newPipe Pipe.cuts]. split.
    + repeat constructor.
    + intros c d [<-|[]] Hd'. now apply Hrest.
Qed.

Lemma fold_placePiece_Ordered mat usable sorted : forall pipes,
  Descending sorted -> Ordered sorted pipes ->
  Ordered [] (fold_left (placePiece mat usable) sorted pipes).
Proof.
  induction sorted as [|piece rest IH]; intros pipes Hs Ho; cbn [fold_left]; auto.
  apply IH.
  - unfold Descending in *. now apply StronglySorted_inv in Hs.
  - eapply Placement_Ordered; eauto. apply placePiece_Placement.
Qed.

(** X11: in every pipe of the plan the cuts are listed from the longest to
    the shortest. *)
Theorem cuts_of_a_pipe_descend materials demands materialId pipes p :
  In (materialId, pipes) (optimize materials demands) -> In p pipes ->
  Descending (Pipe.cuts p).
Proof.
  intros Hin Hp. apply optimize_in in Hin as (mat & pieces & _ & _ & -> & _).
  unfold packMaterial in Hp. apply in_map_iff in Hp as (q & <- & Hq).
  rewrite refundKerf_cuts.
  apply (fold_placePiece_Ordered mat (Material.stockLengthMm mat - FIXED_WASTE)
           (sortPieces pieces) []); auto.
  - apply sortPieces_Descending.
  - intros p0 [].
Qed.

Lemma cuts_of_a_pipe_descend_witness :
  Descending (Pipe.cuts (Pipe.mk [Demand.mk "3" "P" "1" 3000; Demand.mk "2" "P" "1" 2500]
                                 388 6000 5890)).
Proof.
  apply (cuts_of_a_pipe_descend [Material.mk "1" "M" 6000]
           [Demand.mk "2" "P" "1" 2500; Demand.mk "3" "P" "1" 3000] "1"
           [Pipe.mk [Demand.mk "3" "P" "1" 3000; Demand.mk "2" "P" "1" 2500] 388 6000 5890]).
  - left. reflexivity.
  - left. reflexivity.
Defined.

(** ** No pipe is opened while an earlier one has room *)

Lemma nth_error_updateAt i f pipes n :
  nth_error (updateAt i f pipes) n
  = if Nat.eqb n i then option_map f (nth_error pipes n) else nth_error pipes n.
Proof.
  revert i n. induction pipes as [|p pipes IH]; intros [|i] [|n]; simpl; auto.
  - now destruct (Nat.eqb n i).
Qed.

Lemma Placement_Tight mat usable pipes piece pipes' :
  Placement mat usable pipes piece pipes' ->
  0 <= Demand.lengthMm piece + KERF ->
  Forall (Packed mat usable) pipes ->
  Tight KERF pipes -> Tight KERF pipes'.
Proof.
  intros Hpl Hpos Hall Ht.
  destruct Hpl as [Hlong|i0 p0 Hfit Hn Hle Hmin|Hfit Hnone]; auto.
  - intros i j p q c Hij Hi Hj Hc. rewrite nth_error_updateAt in Hi, Hj.
    destruct (Nat.eqb_spec i i0) as [->|Hi0], (Nat.eqb_spec j i0) as [->|Hj0]; try lia.
    + rewrite Hn in Hi. cbn in Hi. inversion Hi; subst. cbn [addCut Pipe.remainingMm].
      specialize (Ht i0 j p0 q c Hij Hn Hj Hc). lia.
    + rewrite Hn in Hj. cbn in Hj. inversion Hj; subst. cbn [addCut Pipe.cuts] in Hc.
      rewrite Forall_forall in Hall.
      assert (Hne : Pipe.cuts p0 <> []).
      { apply (packed_cuts mat usable). apply Hall. eapply nth_error_In; eauto. }
      destruct (Pipe.cuts p0) as [|c0 cs] eqn:Ec; [congruence|]. cbn in Hc.
      apply (Ht i i0 p p0 c); auto. now rewrite Ec.
    + now apply (Ht i j p q c).
  - intros i j p q c Hij Hi Hj Hc.
    apply nth_error_snoc in Hj as [Hj|[-> ->]].
    + assert (Hjl : (j < List.length pipes)%nat) by (apply nth_error_Some; congruence).
      rewrite nth_error_app1 in Hi by lia. now apply (Ht i j p q c).
    + rewrite nth_error_app1 in Hi by lia. cbn in Hc. inversion Hc; subst.
      apply Hnone. eapply nth_error_In; eauto.
Qed.

Lemma fold_placePiece_Tight mat usable sorted : forall pipes,
  (forall d, In d sorted -> 0 <= Demand.lengthMm d + KERF) ->
  Forall (Packed mat usable) pipes -> Tight KERF pipes ->
  Tight KERF (fold_left (placePiece mat usable) sorted pipes).
Proof.
  induction sorted as [|piece rest IH]; intros pipes Hpos Hall Ht; cbn [fold_left]; auto.
  pose proof (placePiece_Placement mat usable pipes piece) as Hpl.
  apply IH.
  - intros d Hd. apply Hpos. now right.
  - eapply Placement_Packed; eauto.
  - eapply Placement_Tight; eauto. apply Hpos. now left.
Qed.

(** X12: with positive demand lengths, the final [remainingMm] of a pipe is
    less than the first cut of any pipe opened after it plus two kerfs: the
    loop opened the later pipe because the earlier one had less than the cut
    plus one kerf left, and the refund gave one kerf back.  (The pipe may
    still hold the cut and the kerf before it: see
    [pipe_with_room_for_a_later_cut].) *)
Theorem later_pipes_were_needed materials demands materialId pipes i j p q c :
  (forall d, In d demands -> 0 < Demand.lengthMm d) ->
  In (materialId, pipes) (optimize materials demands) ->
  (i < j)%nat -> nth_error pipes i = Some p -> nth_error pipes j = Some q ->
  hd_error (Pipe.cuts q) = Some c ->
  Pipe.remainingMm p < Demand.lengthMm c + 2 * KERF.
Proof.
  intros Hpos Hin Hij Hi Hj Hc.
  apply optimize_in in Hin as (mat & pieces & Hg & _ & -> & _).
  unfold packMaterial in Hi, Hj. rewrite nth_error_map in Hi, Hj.
  destruct (nth_error _ i) as [p0|] eqn:Ei; [|discriminate].
  destruct (nth_error _ j) as [q0|] eqn:Ej; [|discriminate].
  cbn in Hi, Hj. inversion Hi; inversion Hj; subst. clear Hi Hj.
  rewrite refundKerf_cuts in Hc.
  pose proof (packLoop_Packed mat (Material.stockLengthMm mat - FIXED_WASTE)
                (sortPieces pieces)) as Hall.
  rewrite Forall_forall in Hall.
  rewrite (refundKerf_Packed mat _ p0) by (apply Hall; eapply nth_error_In; eauto).
  cbn [Pipe.remainingMm].
  assert (Ht : Tight KERF (packLoop mat (Material.stockLengthMm mat - FIXED_WASTE)
                             (sortPieces pieces))).
  { apply fold_placePiece_Tight; [|constructor|].
    - intros d Hd. apply (Permutation_in _ (sortPieces_perm pieces)) in Hd.
      apply Map_get_Some_in, groupDemands_in in Hg as [_ ->].
      apply filter_In in Hd as [Hd _]. specialize (Hpos d Hd). unfold KERF. lia.
    - intros i0 j0 p1 q1 c1 _ H. destruct i0; discriminate. }
  specialize (Ht i j p0 q0 c Hij Ei Ej Hc). unfold KERF in *. lia.
Qed.

Lemma later_pipes_were_needed_witness :
  Pipe.remainingMm (Pipe.mk [Demand.mk "2" "P" "1" 2500; Demand.mk "3" "P" "1" 2500]
                            888 6000 5890)
  < Demand.lengthMm (Demand.mk "4" "P" "1" 2500) + 2 * KERF.
Proof.
  apply (later_pipes_were_needed [Material.mk "1" "M" 6000]
           [Demand.mk "2" "P" "1" 2500; Demand.mk "3" "P" "1" 2500;
            Demand.mk "4" "P" "1" 2500] "1"
           [Pipe.mk [Demand.mk "2" "P" "1" 2500; Demand.mk "3" "P" "1" 2500] 888 6000 5890;
            Pipe.mk [Demand.mk "4" "P" "1" 2500] 3390 6000 5890]
           0%nat 1%nat _
           (Pipe.mk [Demand.mk "4" "P" "1" 2500] 3390 6000 5890)).
  - intros d [<-|[<-|[<-|[]]]]; reflexivity.
  - left. reflexivity.
  - lia.
  - reflexivity.
  - reflexivity.
  - reflexivity.
Defined.

(** ** The totals of a plan *)



(** ** Nothing is lost between the plan and the too long pieces *)

Lemma tooLongPieces_filter materials demands :
  tooLongPieces materials demands = filter (tooLong (materialMapOf materials)) demands.
Proof.
  unfold tooLongPieces.
  assert (H : forall l acc,
             fold_left (fun pieces d =>
                          match Map_get (Demand.materialId d) (materialMapOf materials) with
                          | Some mat =>
                              if Material.stockLengthMm mat - FIXED_WASTE <? Demand.lengthMm d
                              then pieces ++ [d] else pieces
                          | None => pieces
                          end) l acc
             = acc ++ filter (tooLong (materialMapOf materials)) l).
  { induction l as [|d l IH]; intros acc; cbn [fold_left filter].
    - now rewrite app_nil_r.
    - rewrite IH. unfold tooLong at 2.
      destruct (Map_get (Demand.materialId d) _) as [mat|]; auto.
      destruct (_ <? _); auto. now rewrite <- app_assoc. }
  apply H.
Qed.

Lemma plan_count_all materials demands d :
  count_occ Demand_eq_dec (planCuts (optimize materials demands)) d
  = if placed (materialMapOf materials) d then count_occ Demand_eq_dec demands d else 0%nat.
Proof.
  unfold placed. rewrite (count_occ_plan _ (Demand.materialId d)).
  - rewrite optimize_get, groupDemands_get.
    destruct (filter (forMaterial (Demand.materialId d)) demands) as [|d0 l] eqn:E.
    + cbn [nonEmpty].
      assert (H0 : count_occ Demand_eq_dec demands d = 0%nat).
      { apply count_occ_not_In. intros Hin.
        assert (H : In d (filter (forMaterial (Demand.materialId d)) demands)).
        { apply filter_In. split; auto. unfold forMaterial. apply String.eqb_refl. }
        rewrite E in H. destruct H. }
      rewrite H0. destruct (String.eqb _ "__proto__");
        (destruct (Map_get _ _); [destruct (fits _ d)|]; reflexivity).
    + cbn [nonEmpty]. rewrite <- E. clear E d0 l.
      destruct (Map_get (Demand.materialId d) (materialMapOf materials)) as [mat|];
        [|now destruct (String.eqb _ "__proto__")].
      destruct (String.eqb (Demand.materialId d) "__proto__"); cbn [negb].
      { now rewrite andb_false_r. }
      rewrite andb_true_r.
      rewrite (proj1 (Permutation_count_occ Demand_eq_dec _ _) (packMaterial_cuts mat _)).
      rewrite !count_occ_filter. unfold forMaterial. rewrite String.eqb_refl.
      reflexivity.
  - apply optimize_NoDup.
  - intros k pipes Hk Hne Hd. apply in_flat_map in Hd as (p & Hp & Hc).
    destruct (plan_cut_origin _ _ _ _ _ _ Hk Hp Hc) as (_ & E & _). congruence.
Qed.

(** X14: whatever the ids are, the cuts of the plan are the demands that fit
    a known material not called [__proto__], each as often as it was entered,
    and the too long pieces of ResultStep are the too long demands in input
    order; so if no demand names [__proto__], the cuts and the too long pieces
    together are the demands of known materials. *)
Theorem cuts_and_too_long_pieces_are_the_demands materials demands :
  Permutation (planCuts (optimize materials demands))
              (filter (placed (materialMapOf materials)) demands) /\
  tooLongPieces materials demands = filter (tooLong (materialMapOf materials)) demands /\
  ((forall d, In d demands -> Demand.materialId d <> "__proto__") ->
   Permutation (planCuts (optimize materials demands) ++ tooLongPieces materials demands)
               (filter (knownMaterial (materialMapOf materials)) demands)).
Proof.
  split; [|split; [apply tooLongPieces_filter|]].
  - apply (Permutation_count_occ Demand_eq_dec). intros d.
    now rewrite plan_count_all, count_occ_filter.
  - intros Hplain. apply (Permutation_count_occ Demand_eq_dec). intros d.
    rewrite count_occ_app, plan_count_all, tooLongPieces_filter, !count_occ_filter.
    destruct (in_dec Demand_eq_dec d demands) as [Hin|Hn].
    + apply Hplain, String.eqb_neq in Hin.
      unfold placed, tooLong, knownMaterial, fits. rewrite Hin.
      destruct (Map_get (Demand.materialId d) _) as [mat|]; [|reflexivity].
      destruct (_ <? _); cbn [negb andb]; lia.
    + apply (count_occ_not_In Demand_eq_dec) in Hn. rewrite Hn.
      destruct (placed _ d), (tooLong _ d), (knownMaterial _ d); reflexivity.
Qed.

(** ** Lengths as text *)

(** X15: below 10^15 mm the doubles of [formatMm] do no harm: a whole
    length is shown by its exact decimal text, so different lengths are shown
    differently, the text is never empty and never has the separator of the
    patterns, and whole metres are shown without decimals. *)
Theorem formatMm_tells_lengths_apart a b :
  a < 10 ^ 15 -> b < 10 ^ 15 ->
  formatMm a = decimalMm a /\
  (formatMm a = formatMm b <-> a = b) /\
  lacks "+" (formatMm a) = true /\
  formatMm a <> "" /\
  (forall q, 1 <= q -> 1000 * q = a -> formatMm a = (numberToString q ++ " m")%string).
Proof.
  intros Ha Hb. split; [now apply formatMm_decimal|].
  split; [split; [now apply formatMm_inj|now intros ->]|].
  split; [now apply formatMm_lacks_plus|]. split; [now apply formatMm_nonempty|].
  intros q Hq E. rewrite formatMm_decimal by assumption. subst a.
  unfold decimalMm, formatMetres.
  destruct (Z.leb_spec 1000 (1000 * q)); [|lia].
  replace ((1000 * q) mod 1000) with 0 by (rewrite Z.mul_comm, Z.mod_mul; lia).
  replace (1000 * q / 1000) with q by (rewrite Z.mul_comm, Z.div_mul; lia).
  reflexivity.
Qed.

Lemma formatMm_tells_lengths_apart_witness :
  formatMm 2500 = decimalMm 2500 /\
  (formatMm 2500 = formatMm 2501 <-> 2500 = 2501) /\
  lacks "+" (formatMm 2500) = true /\
  formatMm 2500 <> "" /\
  (forall q, 1 <= q -> 1000 * q = 2500 -> formatMm 2500 = (numberToString q ++ " m")%string).
Proof. apply (formatMm_tells_lengths_apart 2500 2501); reflexivity. Defined.

(** ** The stored plan of the three-step App *)

Lemma optimize_unreferenced_material ms m ds :
  (forall d, In d ds -> Demand.materialId d <> Material.id m) ->
  optimize (ms ++ [m]) ds = optimize ms ds.
Proof.
  intros Hfree. rewrite !optimize_entries.
  assert (H : forall e, In e (groupDemands ds) ->
                        entryOf (materialMapOf (ms ++ [m])) e = entryOf (materialMapOf ms) e).
  { intros [k pieces] He. unfold entryOf. cbn [fst snd].
    rewrite materialMapOf_snoc, Map_get_set_other; [reflexivity|].
    intros E. apply groupDemands_in in He as [Hne ->].
    destruct (filter (forMaterial k) ds) as [|d l] eqn:F; [congruence|].
    assert (Hd : In d (filter (forMaterial k) ds)) by (rewrite F; now left).
    apply filter_In in Hd as [Hd Hk]. apply String.eqb_eq in Hk.
    apply (Hfree d Hd). congruence. }
  induction (groupDemands ds) as [|e l IH]; [reflexivity|].
  cbn [flat_map]. rewrite H by now left. f_equal. apply IH.
  intros e' He'. apply H. now right.
Qed.

Lemma wizardAddLoop_app cnt project materialId lengthMm : forall w,
  app (wizardAddLoop cnt project materialId lengthMm w)
  = addLoop cnt project materialId lengthMm (app w).
Proof.
  induction cnt as [|n IH]; intros w; cbn [wizardAddLoop addLoop]; auto.
  unfold nextId. now rewrite IH.
Qed.

Lemma wizardAddLoop_results cnt project materialId lengthMm : forall w,
  results (wizardAddLoop cnt project materialId lengthMm w)
  = match cnt with O => results w | S _ => None end.
Proof.
  induction cnt as [|n IH]; intros w; cbn [wizardAddLoop]; auto.
  unfold nextId. rewrite IH. now destruct n.
Qed.

Lemma wizardHandle_keeps e w :
  wizardOffered e w -> WellFormed (app w) /\ Current w ->
  WellFormed (app (wizardHandle e w)) /\ Current (wizardHandle e w).
Proof.
  intros Ho [W C]. destruct e; cbn [wizardHandle wizardOffered] in *.
  - (* a new material: its id is fresh, so no demand names it *)
    unfold wizardSubmitMaterial. destruct len as [len|]; auto.
    destruct (String.eqb name "" || (len <=? 0)) eqn:G; auto.
    unfold nextId, wizardAddMaterial. cbn [app results]. split.
    + pose proof (submitMaterial_WellFormed name (Some len) (app w) W) as H.
      unfold submitMaterial in H. rewrite G in H. exact H.
    + unfold Current in *. cbn [results app addMaterial materials demands].
      destruct (results w) as [plan|]; auto.
      rewrite optimize_unreferenced_material; auto.
      intros d Hd E. cbn [Material.id] in E.
      apply (minted_fresh (app w) W). rewrite <- E. apply in_or_app. left.
      now apply (wf_material (app w) W).
  - split; [now apply deleteMaterial_WellFormed|exact I].
  - unfold wizardSubmitDemand. destruct lengthMm as [lengthMm|], cnt as [cnt|]; auto.
    destruct (_ || _) eqn:G; auto.
    pose proof (submitDemand_WellFormed project materialId (Some lengthMm) (Some cnt)
                  (app w) Ho W) as H.
    unfold submitDemand in H. rewrite G in H.
    rewrite wizardAddLoop_app. split; auto.
    unfold Current. rewrite wizardAddLoop_results.
    apply orb_false_iff in G as [_ G]. apply Z.ltb_ge in G.
    destruct (Z.to_nat cnt) eqn:N; [lia|exact I].
  - split; [|exact I].
    pose proof (deleteGroup_WellFormed [id] (app w) W) as H.
    unfold deleteGroup in H. unfold deleteDemand. cbn [app].
    rewrite (filter_ext _ (fun d => negb (String.eqb (Demand.id d) id))) in H; auto.
    intros d. cbn [existsb]. now rewrite orb_false_r.
  - split; [now apply clearDemands_WellFormed|exact I].
  - unfold runOptimize. cbn [app]. split; [|reflexivity].
    destruct W. constructor; auto.
  - unfold wizardGoToStep. destruct (_ && _); auto. destruct (_ && _); auto.
    cbn [app]. split.
    + destruct W. constructor; auto.
    + exact C.
Qed.

Lemma WizardReachable_keeps w : WizardReachable w -> WellFormed (app w) /\ Current w.
Proof.
  induction 1 as [|e w _ IH Ho].
  - split; [apply WellFormed_initial|exact I].
  - now apply wizardHandle_keeps.
Qed.

(** X16: in the three-step App the stored plan is never out of date: in
    every state the handlers can produce, [results] is either empty or the
    plan of the current materials and demands, although adding a material
    does not reset it (a new material has no demands yet). *)
Theorem stored_plan_is_current w :
  WizardReachable w ->
  results w = None \/
  results w = Some (optimize (materials (app w)) (demands (app w))).
Proof.
  intros R. destruct (WizardReachable_keeps w R) as [_ C]. unfold Current in C.
  destruct (results w) as [plan|]; [right; now rewrite C|now left].
Qed.

Lemma stored_plan_is_current_witness :
  results (wizardHandle (WSubmitMaterial "N" (Some 3000))
             (wizardHandle WRunOptimize
                (wizardHandle (WSubmitDemand "P" "1" (Some 2500) (Some 1))
                   (wizardHandle (WSubmitMaterial "M" (Some 6000)) initialWizard))))
  = None \/
  results (wizardHandle (WSubmitMaterial "N" (Some 3000))
             (wizardHandle WRunOptimize
                (wizardHandle (WSubmitDemand "P" "1" (Some 2500) (Some 1))
                   (wizardHandle (WSubmitMaterial "M" (Some 6000)) initialWizard))))
  = Some (optimize
            (materials (app (wizardHandle (WSubmitMaterial "N" (Some 3000))
               (wizardHandle WRunOptimize
                  (wizardHandle (WSubmitDemand "P" "1" (Some 2500) (Some 1))
                     (wizardHandle (WSubmitMaterial "M" (Some 6000)) initialWizard))))))
            (demands (app (wizardHandle (WSubmitMaterial "N" (Some 3000))
               (wizardHandle WRunOptimize
                  (wizardHandle (WSubmitDemand "P" "1" (Some 2500) (Some 1))
                     (wizardHandle (WSubmitMaterial "M" (Some 6000)) initialWizard))))))).
Proof.
  apply (stored_plan_is_current
           (wizardHandle (WSubmitMaterial "N" (Some 3000))
              (wizardHandle WRunOptimize
                 (wizardHandle (WSubmitDemand "P" "1" (Some 2500) (Some 1))
                    (wizardHandle (WSubmitMaterial "M" (Some 6000)) initialWizard))))).
  apply WizardStep; [|exact I]. apply WizardStep; [|exact I].
  apply WizardStep; [|right; left; reflexivity].
  apply WizardStep; [apply WizardInitial|exact I].
Defined.

(** ** The order in which the plan is shown *)

Lemma arrayIndex_numeral k :
  0 < k < 4294967295 -> arrayIndex (numberToString k) = Some (Z.to_N k).
Proof.
  intros Hk. destruct k as [|p|p]; try lia.
  unfold arrayIndex, numberToString. cbn [Z.to_int NilZero.string_of_int].
  rewrite NilZero.usu by apply DecimalPos.Unsigned.to_uint_nonnil.
  unfold N.of_uint. rewrite DecimalPos.Unsigned.of_to. cbn [N.to_uint Z.to_N].
  rewrite String.eqb_refl. cbn [andb].
  destruct (N.ltb_spec (N.pos p) 4294967295); [reflexivity|lia].
Qed.

Lemma insertIndexed_sorted {V : Type} (e : N * (string * V)) l :
  StronglySorted (fun a b => (fst a <= fst b)%N) l ->
  StronglySorted (fun a b => (fst a <= fst b)%N) (insertIndexed e l).
Proof.
  induction 1 as [|x l Hl IH Hx]; simpl.
  - repeat constructor.
  - destruct (N.ltb_spec (fst e) (fst x)).
    + constructor; [now constructor|]. constructor; [lia|].
      rewrite Forall_forall in *. intros y Hy. specialize (Hx y Hy). lia.
    + constructor; auto. rewrite Forall_forall in *. intros y Hy.
      apply (Permutation_in _ (insertIndexed_perm e l)) in Hy as [<-|Hy]; auto.
Qed.

Lemma sortIndexed_sorted {V : Type} (l : list (N * (string * V))) :
  StronglySorted (fun a b => (fst a <= fst b)%N) (fold_right insertIndexed [] l).
Proof.
  induction l as [|e l IH]; simpl; [constructor|now apply insertIndexed_sorted].
Qed.

Lemma indexedEntries_index {V : Type} (obj : list (string * V)) x :
  In x (indexedEntries obj) -> arrayIndex (fst (snd x)) = Some (fst x).
Proof.
  unfold indexedEntries. intros H. apply in_flat_map in H as (e & _ & He).
  destruct (arrayIndex (fst e)) eqn:E; [|destruct He].
  destruct He as [<-|[]]. exact E.
Qed.

Lemma Object_entries_ascending {V : Type} (obj : list (string * V)) :
  (forall e, In e obj -> arrayIndex (fst e) <> None) ->
  StronglySorted ascendingKeys (Object_entries obj).
Proof.
  intros Hall. unfold Object_entries.
  assert (Hn : namedEntries obj = []).
  { unfold namedEntries. induction obj as [|e obj IH]; [reflexivity|].
    cbn [filter]. destruct (arrayIndex (fst e)) eqn:E.
    - apply IH. intros e' He'. apply Hall. now right.
    - exfalso. apply (Hall e); [now left|assumption]. }
  rewrite Hn, app_nil_r.
  pose proof (sortIndexed_sorted (indexedEntries obj)) as Hs.
  assert (Hi : forall x, In x (fold_right insertIndexed [] (indexedEntries obj)) ->
                         arrayIndex (fst (snd x)) = Some (fst x)).
  { intros x Hx. apply (indexedEntries_index obj).
    revert Hx. generalize (indexedEntries obj). intros l.
    induction l as [|y l IH]; simpl; auto. intros Hx.
    apply (Permutation_in _ (insertIndexed_perm y _)) in Hx as [<-|Hx]; auto. }
  revert Hs Hi. generalize (fold_right insertIndexed [] (indexedEntries obj)).
  intros l Hs. induction Hs as [|x l Hl IH Hx]; intros Hi; simpl; constructor.
  - apply IH. intros y Hy. apply Hi. now right.
  - rewrite Forall_forall in *. intros e He. apply in_map_iff in He as (y & <- & Hy).
    exists (fst x), (fst y). repeat split.
    + apply Hi. now left.
    + apply Hi. now right.
    + now apply Hx.
Qed.

(** X17: ResultSection shows the materials of the plan by ascending id, that
    is, in the order in which the materials were created and not in the
    order of their first demand: in every state of the app with fewer than
    2^32 - 1 ids, [Object.entries] of the plan has the entries of the plan,
    sorted by the number their key spells. *)
Theorem plan_is_shown_by_ascending_id st :
  Reachable st -> idCounter st < 4294967295 ->
  StronglySorted ascendingKeys (Object_entries (optimize (materials st) (demands st))) /\
  Permutation (Object_entries (optimize (materials st) (demands st)))
              (optimize (materials st) (demands st)).
Proof.
  intros R Hc. pose proof (Reachable_WellFormed st R) as W.
  split; [|apply Object_entries_perm].
  apply Object_entries_ascending. intros [k pipes] He. cbn [fst].
  apply optimize_in in He as (mat & pieces & Hg & _ & _).
  assert (Hk : exists d, In d (demands st) /\ Demand.materialId d = k)
    by (apply groupDemands_known; eauto).
  destruct Hk as (d & Hd & <-).
  destruct (WellFormed_material_numeral st d W Hd) as (n & Hn & ->).
  rewrite arrayIndex_numeral by lia. discriminate.
Qed.

Lemma plan_is_shown_by_ascending_id_witness :
  Permutation
    (Object_entries
       (optimize
          (materials (handle (SubmitDemand "P" "1" (Some 2500) (Some 1))
                        (handle (SubmitMaterial "M" (Some 6000)) initialApp)))
          (demands (handle (SubmitDemand "P" "1" (Some 2500) (Some 1))
                      (handle (SubmitMaterial "M" (Some 6000)) initialApp)))))
    (optimize
       (materials (handle (SubmitDemand "P" "1" (Some 2500) (Some 1))
                     (handle (SubmitMaterial "M" (Some 6000)) initialApp)))
       (demands (handle (SubmitDemand "P" "1" (Some 2500) (Some 1))
                   (handle (SubmitMaterial "M" (Some 6000)) initialApp)))).
Proof.
  apply (plan_is_shown_by_ascending_id
           (handle (SubmitDemand "P" "1" (Some 2500) (Some 1))
              (handle (SubmitMaterial "M" (Some 6000)) initialApp))).
  - apply ReachHandle; [apply ReachHandle; [apply ReachInitial|exact I]|].
    right. left. reflexivity.
  - vm_compute. reflexivity.
Defined.

(** ** The demand table *)

Lemma groupedByMat_snoc l agg :
  groupedByMatOf (l ++ [agg]) = groupedByMatStep (groupedByMatOf l) agg.
Proof. unfold groupedByMatOf. now rewrite fold_left_app. Qed.

Lemma groupedByMat_get k l :
  Map_get k (groupedByMatOf l) = nonEmpty (filter (rowOfMaterial k) l).
Proof.
  induction l as [|agg l IH] using rev_ind; [reflexivity|].
  rewrite groupedByMat_snoc, filter_app. unfold groupedByMatStep. cbn [filter].
  unfold rowOfMaterial at 2.
  destruct (String.eqb_spec (AggregatedDemand.materialId agg) k) as [->|Hk].
  - rewrite Map_get_set_same, IH. destruct (filter _ l); reflexivity.
  - rewrite Map_get_set_other by auto. now rewrite IH, app_nil_r.
Qed.

Lemma groupedByMat_NoDup l : NoDup (Map_keys (groupedByMatOf l)).
Proof.
  unfold groupedByMatOf. apply fold_Map_set_NoDup; [|constructor].
  intros m a H. unfold groupedByMatStep. now apply Map_set_NoDup.
Qed.

(** X18: the demand table has one header per material that has rows, never
    an empty one, and under each header exactly the aggregated rows of that
    material, in their order. *)
Theorem demand_table_lists_rows_by_material aggregated :
  NoDup (Map_keys (groupedByMatOf aggregated)) /\
  (forall k items,
      In (k, items) (groupedByMatOf aggregated) <->
      items <> [] /\ items = filter (rowOfMaterial k) aggregated) /\
  (forall agg, In agg aggregated ->
               exists items, In (AggregatedDemand.materialId agg, items)
                                (groupedByMatOf aggregated) /\ In agg items).
Proof.
  assert (Hin : forall k items,
             In (k, items) (groupedByMatOf aggregated) <->
             items <> [] /\ items = filter (rowOfMaterial k) aggregated).
  { intros k items. split.
    - intros H. apply Map_in_get in H; [|apply groupedByMat_NoDup].
      rewrite groupedByMat_get in H.
      destruct (filter _ aggregated) eqn:E; inversion H; subst. split; congruence.
    - intros [Hne ->]. apply Map_get_Some_in. rewrite groupedByMat_get.
      destruct (filter _ aggregated); simpl; congruence. }
  split; [apply groupedByMat_NoDup|]. split; [exact Hin|].
  intros agg Ha.
  assert (F : In agg (filter (rowOfMaterial (AggregatedDemand.materialId agg)) aggregated)).
  { apply filter_In. split; auto. unfold rowOfMaterial. apply String.eqb_refl. }
  exists (filter (rowOfMaterial (AggregatedDemand.materialId agg)) aggregated).
  split; auto. apply Hin. split; auto. intros E. rewrite E in F. destruct F.
Qed.

(** X19: in every state of the app a row of the demand table is marked as
    too long exactly when its demands get no place in the plan: a demand of
    a marked row is in no pipe, a demand of an unmarked row is in exactly
    one. *)
Theorem marked_rows_are_the_unplaced_demands st k items agg d :
  Reachable st ->
  In (k, items) (groupedByMatOf (aggregateDemands (demands st))) -> In agg items ->
  In d (demands st) -> In (Demand.id d) (AggregatedDemand.ids agg) ->
  if rowTooLong (materialMapOf (materials st)) k agg
  then ~ In d (planCuts (optimize (materials st) (demands st)))
  else count_occ Demand_eq_dec (planCuts (optimize (materials st) (demands st))) d = 1%nat.
Proof.
  intros R Hk Ha Hd Hi. pose proof (Reachable_WellFormed st R) as W.
  pose proof (WellFormed_demand_ids st W) as Hnd.
  apply Map_in_get in Hk; [|apply groupedByMat_NoDup].
  rewrite groupedByMat_get in Hk.
  destruct (filter (rowOfMaterial k) (aggregateDemands (demands st))) as [|a0 l0] eqn:E;
    [discriminate|].
  cbn [nonEmpty] in Hk. inversion Hk; subst items. rewrite <- E in Ha. clear E Hk a0 l0.
  apply filter_In in Ha as [Ha Hm]. unfold rowOfMaterial in Hm. apply String.eqb_eq in Hm.
  rewrite (app_aggregates_by_triple_aux st W) in Ha.
  apply in_map_iff in Ha as (d0 & <- & Hd0). unfold groupOfTriple in *.
  cbn [AggregatedDemand.ids AggregatedDemand.materialId AggregatedDemand.lengthMm] in *.
  apply in_map_iff in Hi as (d1 & Eid & Hd1). apply filter_In in Hd1 as [Hd1 T].
  assert (d1 = d) by (eapply NoDup_map_eq; eauto). subst d1.
  unfold sameTriple in T. apply andb_true_iff in T as [T Tl].
  apply andb_true_iff in T as [Tm _]. apply String.eqb_eq in Tm. apply Z.eqb_eq in Tl.
  pose proof (plan_count (materials st) (demands st) d Hnd Hd) as Hc.
  unfold rowTooLong. cbn [AggregatedDemand.lengthMm]. rewrite <- Hm, Tm, Tl.
  assert (Hmat : exists mat, Map_get (Demand.materialId d) (materialMapOf (materials st))
                             = Some mat).
  { apply materialMapOf_known. pose proof (wf_material st W d Hd) as H.
    apply in_map_iff in H as (m & Em & Hin). eauto. }
  destruct Hmat as [mat Hmat]. rewrite Hmat in *.
  rewrite (WellFormed_material_plain st d W Hd) in Hc.
  cbn [negb] in Hc. rewrite andb_true_r in Hc. unfold fits in Hc.
  destruct (_ <? _); cbn [negb] in Hc; auto.
  now apply (count_occ_not_In Demand_eq_dec).
Qed.

Lemma marked_rows_are_the_unplaced_demands_witness :
  count_occ Demand_eq_dec
    (planCuts
       (optimize
          (materials (handle (SubmitDemand "P" "1" (Some 2500) (Some 1))
                        (handle (SubmitMaterial "M" (Some 6000)) initialApp)))
          (demands (handle (SubmitDemand "P" "1" (Some 2500) (Some 1))
                      (handle (SubmitMaterial "M" (Some 6000)) initialApp)))))
    (Demand.mk "2" "P" "1" 2500)
  = 1%nat.
Proof.
  refine (marked_rows_are_the_unplaced_demands
            (handle (SubmitDemand "P" "1" (Some 2500) (Some 1))
               (handle (SubmitMaterial "M" (Some 6000)) initialApp))
            "1" [AggregatedDemand.mk "1|P|2500" "P" "1" 2500 1 ["2"]]
            (AggregatedDemand.mk "1|P|2500" "P" "1" 2500 1 ["2"])
            (Demand.mk "2" "P" "1" 2500) _ _ _ _ _).
  - apply ReachHandle; [apply ReachHandle; [apply ReachInitial|exact I]|].
    right. left. reflexivity.
  - left. reflexivity.
  - left. reflexivity.
  - left. reflexivity.
  - left. reflexivity.
Defined.

(** ** The model on sample values *)

(** Pieces of 2500, 2500 and 885 mm on 6000 mm: the third piece opens a
    second pipe, because the loop asks for 887 mm and the first pipe has 886
    before the refund; in the plan the first pipe has 888 mm left. *)
Example pipe_with_room_for_a_later_cut :
  optimize [Material.mk "1" "M" 6000]
           [Demand.mk "2" "P" "1" 2500; Demand.mk "3" "P" "1" 2500; Demand.mk "4" "P" "1" 885]
  = [("1", [Pipe.mk [Demand.mk "2" "P" "1" 2500; Demand.mk "3" "P" "1" 2500] 888 6000 5890;
            Pipe.mk [Demand.mk "4" "P" "1" 885] 5005 6000 5890])] /\
  885 + KERF <= 888 < 885 + 2 * KERF.
Proof. split; [reflexivity|]. unfold KERF. lia. Qed.

(** From 2^43 m on the doubles are further apart than a millimetre *)
Example formatMm_long_samples :
  map formatMm [999999999999999; 8796093022207999; 8796093022208001;
                9007199254740990; 9007199254740991]
  = ["999999999999.999 m"; "8796093022207.999 m"; "8796093022208.002 m";
     "9007199254740.99 m"; "9007199254740.99 m"].
Proof. vm_compute. reflexivity. Qed.

Example formatMm_samples : map formatMm [2500; 2000; 1234; 999; 1050; 12000; 0; 1000; 1001]
  = ["2.5 m"; "2 m"; "1.234 m"; "999 mm"; "1.05 m"; "12 m"; "0 mm"; "1 m"; "1.001 m"].
Proof. vm_compute. reflexivity. Qed.

Example Object_entries_order : Object_entries [("b", 1); ("10", 2); ("2", 3); ("a", 4); ("02", 5); ("0", 6)]
  = [("0", 6); ("2", 3); ("10", 2); ("b", 1); ("a", 4); ("02", 5)].
Proof. vm_compute. reflexivity. Qed.

(** Scenario 5 of the specification *)
Example aggregate_by_project :
  aggregateDemands
    [Demand.mk "1" "X" "M" 1000; Demand.mk "2" "X" "M" 1000; Demand.mk "3" "X" "M" 1000;
     Demand.mk "4" "Y" "M" 1000]
  = [AggregatedDemand.mk "M|X|1000" "X" "M" 1000 3 ["1"; "2"; "3"];
     AggregatedDemand.mk "M|Y|1000" "Y" "M" 1000 1 ["4"]].
Proof. vm_compute. reflexivity. Qed.

(** Demands for material 2 before material 1: the plan is created in that
    order and shown in the other *)
Example shown_order_differs_from_creation_order :
  map fst (optimize [Material.mk "1" "M" 6000; Material.mk "2" "N" 3000]
                    [Demand.mk "3" "P" "2" 1000; Demand.mk "4" "P" "1" 1000]) = ["2"; "1"] /\
  map fst (Object_entries
             (optimize [Material.mk "1" "M" 6000; Material.mk "2" "N" 3000]
                       [Demand.mk "3" "P" "2" 1000; Demand.mk "4" "P" "1" 1000]))
  = ["1"; "2"].
Proof. split; vm_compute; reflexivity. Qed.
